(** * Lighthouse localization: message formatting and the i18n tree walk

    A shallow embedding of [shared/localization/message.js] and of the i18n
    module that uses it ([getFormatted], [replaceIcuMessages], ...), with the
    properties of the specification proved about the embedding. *)

From Stdlib Require Import ZArith QArith Qround String Ascii List Bool Lia.
From Stdlib Require Import DecimalString DecimalNat.
From stdpp Require Import base option list strings gmap sorting.
Set Warnings "-register-all".

Local Open Scope string_scope.
Local Open Scope list_scope.

(** ** JavaScript numbers

    The code only divides, multiplies and rounds the numbers it is given.  The
    arithmetic of the host (IEEE doubles) is kept abstract: a theorem about
    [num_div] or [Math_round] holds whatever these operations compute. *)

Class JsNumber : Type := {
  number : Type;
  num_lit : Z -> number;
  num_div : number -> number -> number;
  num_mul : number -> number -> number;
  Math_round : number -> number
}.

(** ** Errors thrown by the module, one constructor per [throw] *)

Inductive Error : Type :=
| ValueNotProvided (lhlMessage id : string)
| NotANumber (lhlMessage id : string)
| UnmatchedValue (valueId lhlMessage : string)
| UnsupportedLocale (locale : string)
| InvalidIcuMessageType
| CannotHandle (property : string)
| UnexpectedMessage (icuMessageId : string)
| InvalidMessageId (i18nMessageId : string)
| LibraryError (what : string).

Inductive Result (A : Type) : Type :=
| Ok (a : A)
| Throw (e : Error).

Arguments Ok {A} a.
Arguments Throw {A} e.
Definition isOk {A} (r : Result A) : bool :=
  match r with Ok _ => true | Throw _ => false end.

(** The errors [_preformatValues] throws when values and placeholders do not
    fit together. *)
Definition isValidationError (e : Error) : bool :=
  match e with
  | ValueNotProvided _ _ | NotANumber _ _ | UnmatchedValue _ _ => true
  | _ => false
  end.

(** ** The AST of intl-messageformat-parser *)

Inductive MessageElement : Type :=
| messageTextElement (value : string)
| argumentElement (id : string) (format : option ElementFormat)
with ElementFormat : Type :=
| numberFormat (style : option string)
| dateFormat (style : option string)
| timeFormat (style : option string)
| selectFormat (options : list OptionalFormatPattern)
| pluralFormat (ordinal : bool) (offset : Z) (options : list OptionalFormatPattern)
with OptionalFormatPattern : Type :=
| optionalFormatPattern (selector : string) (elements : list MessageElement).

(** [el.id] and [el.format] of an element of the [Map]; only argument elements
    are ever stored there. *)
Definition el_id (el : MessageElement) : string :=
  match el with argumentElement id _ => id | messageTextElement _ => "" end.

Definition el_format (el : MessageElement) : option ElementFormat :=
  match el with argumentElement _ f => f | messageTextElement _ => None end.

Definition isArgumentElement (el : MessageElement) : bool :=
  match el with argumentElement _ _ => true | messageTextElement _ => false end.

(** ** Insertion-ordered maps with string keys

    A JavaScript [Map] (and the own properties of an object) keeps its keys in
    insertion order; setting an existing key replaces the value where it
    stands, a new key goes last. *)

Section OrderedMap.
Context {V : Type}.

Fixpoint om_get (k : string) (m : list (string * V)) : option V :=
  match m with
  | [] => None
  | (k', v) :: m' => if String.eqb k k' then Some v else om_get k m'
  end.

Fixpoint om_set (k : string) (v : V) (m : list (string * V)) : list (string * V) :=
  match m with
  | [] => [(k, v)]
  | (k', v') :: m' =>
      if String.eqb k k' then (k', v) :: m' else (k', v') :: om_set k v m'
  end.

Definition om_has (k : string) (m : list (string * V)) : bool :=
  match om_get k m with Some _ => true | None => false end.

Definition om_keys (m : list (string * V)) : list string := map fst m.

Definition om_values (m : list (string * V)) : list V := map snd m.
End OrderedMap.

(** ** [collectAllCustomElementsFromICU] (message.js, lines 52-69) *)

Definition ElementMap : Type := list (string * MessageElement).

Fixpoint collectElement (el : MessageElement) (seenElementsById : ElementMap)
  {struct el} : ElementMap :=
  match el with
  | messageTextElement _ => seenElementsById
  | argumentElement id format =>
      let seen := om_set id el seenElementsById in
      match format with
      | Some (pluralFormat _ _ options) =>
          (fix perOption (opts : list OptionalFormatPattern) (seen : ElementMap)
             {struct opts} : ElementMap :=
             match opts with
             | [] => seen
             | optionalFormatPattern _ els :: opts' =>
                 perOption opts'
                   ((fix perElement (l : list MessageElement) (seen : ElementMap)
                       {struct l} : ElementMap :=
                       match l with
                       | [] => seen
                       | e :: l' => perElement l' (collectElement e seen)
                       end) els seen)
             end) options seen
      | _ => seen
      end
  end.

Fixpoint collectInto (icuElements : list MessageElement) (seenElementsById : ElementMap)
  : ElementMap :=
  match icuElements with
  | [] => seenElementsById
  | el :: rest => collectInto rest (collectElement el seenElementsById)
  end.

(** The call with the default [seenElementsById = new Map()]. *)
Definition collectAllCustomElementsFromICU (icuElements : list MessageElement) : ElementMap :=
  collectInto icuElements [].

(** ** JavaScript values

    Documents and value records are trees of plain data: every object and
    array is held by one property only.  [VFunction k] is a function, named
    after the method [k] of [Object.prototype] when it is one.  A string is a
    sequence of code units, each below 256. *)

Inductive value `{JsNumber} : Type :=
| VUndefined
| VNull
| VBoolean (b : bool)
| VNumber (n : number)
| VString (s : string)
| VArray (items : list value)
| VObject (props : list (string * value))
| VFunction (name : string).

(** The own enumerable properties of a plain object, in enumeration order. *)
Definition Record `{JsNumber} : Type := list (string * value).

Definition Object_prototype_keys : list string :=
  [ "constructor"; "__defineGetter__"; "__defineSetter__"; "hasOwnProperty";
    "__lookupGetter__"; "__lookupSetter__"; "isPrototypeOf";
    "propertyIsEnumerable"; "toString"; "valueOf"; "__proto__";
    "toLocaleString" ].

Definition isInherited (k : string) : bool :=
  existsb (String.eqb k) Object_prototype_keys.

Section Records.
Context `{JsNumber}.

(** [k in o]: an own property, or one found on the prototype chain. *)
Definition has_property (k : string) (o : Record) : bool :=
  om_has k o || isInherited k.

(** [o[k]]: the own property, else what [Object.prototype] has under that
    name: its methods, and under [__proto__] the prototype itself, an object
    without enumerable properties. *)
Definition get_property (k : string) (o : Record) : value :=
  match om_get k o with
  | Some v => v
  | None =>
      if String.eqb k "__proto__" then VObject []
      else if isInherited k then VFunction k
      else VUndefined
  end.

(** [o[k] = v] on an object literal that starts empty: writing [__proto__]
    goes to the inherited setter and adds no own property (the setter
    ignores strings and numbers, and is handed the prototype the object
    already has when the value was read from [__proto__]). *)
Definition set_property {V} (k : string) (v : V) (o : list (string * V))
    : list (string * V) :=
  if String.eqb k "__proto__" then o else om_set k v o.
End Records.

(** ** Sequencing of computations that may throw *)

#[global] Instance Result_ret : MRet Result := fun A a => Ok a.

#[global] Instance Result_bind : MBind Result := fun A B k r =>
  match r with
  | Ok a => k a
  | Throw e => Throw e
  end.

(** [for (const x of xs) body(x)], the body updating a state or throwing. *)
Fixpoint forEach {A S} (xs : list A) (body : A -> S -> Result S) (s : S) : Result S :=
  match xs with
  | [] => Ok s
  | x :: xs' => s' ← body x s; forEach xs' body s'
  end.

(** ** The formatting library (intl-messageformat)

    [new MessageFormat(message, locale, formats)] parses [message] or throws;
    the object it returns has the AST ([getAst().elements]) and [format]. *)

Record NumberFormatOptions : Type := {
  minimumFractionDigits : option Z;
  maximumFractionDigits : option Z;
  percentStyle : bool
}.

Definition formats : list (string * NumberFormatOptions) :=
  [ ("bytes", {| minimumFractionDigits := None; maximumFractionDigits := Some 0%Z;
                 percentStyle := false |});
    ("milliseconds", {| minimumFractionDigits := None; maximumFractionDigits := Some 0%Z;
                        percentStyle := false |});
    ("seconds", {| minimumFractionDigits := Some 1%Z; maximumFractionDigits := Some 1%Z;
                   percentStyle := false |});
    ("extendedPercent", {| minimumFractionDigits := None; maximumFractionDigits := Some 2%Z;
                           percentStyle := true |}) ].

Record Formatter `{JsNumber} : Type := {
  getAst_elements : list MessageElement;
  format : Record -> Result string
}.

(** What the module takes from its host: the formatting library, whether
    [Intl.NumberFormat.supportedLocalesOf([locale])] is non-empty (it throws on
    a malformed tag), and the list of locale files found when the module is
    loaded. *)
Class Host `{JsNumber} : Type := {
  MessageFormat : string -> string -> list (string * NumberFormatOptions) -> Result Formatter;
  Intl_supportedLocalesOf : string -> Result bool;
  CANONICAL_LOCALES : list string
}.

(** ** [_preformatValues] (message.js, lines 80-138) *)

Section Preformat.
Context `{JsNumber}.

(** Lines 107-120: the value stored for a numeric placeholder. *)
Definition preformatNumber (id : string) (style : option string) (v : number) : number :=
  if bool_decide (style = Some "milliseconds") then
    num_mul (Math_round (num_div v (num_lit 10))) (num_lit 10)
  else if bool_decide (style = Some "seconds") && String.eqb id "timeInMs" then
    num_div (Math_round (num_div v (num_lit 100))) (num_lit 10)
  else if bool_decide (style = Some "bytes") then
    num_div v (num_lit 1024)
  else v.

(** Lines 87-121: the body of the loop over the argument elements. *)
Definition preformatElement (values : Record) (lhlMessage : string)
    (el : MessageElement) (formattedValues : Record) : Result Record :=
  let id := el_id el in
  let format := el_format el in
  if negb (String.eqb id "") && negb (has_property id values) then
    Throw (ValueNotProvided lhlMessage id)
  else
    let value := get_property id values in
    match format with
    | Some (numberFormat style) =>
        match value with
        | VNumber v => Ok (set_property id (VNumber (preformatNumber id style v)) formattedValues)
        | _ => Throw (NotANumber lhlMessage id)
        end
    | _ => Ok (set_property id value formattedValues)
    end.

(** Lines 124-135: the body of the loop over [Object.keys(values)]. *)
Definition checkValueId (values : Record) (lhlMessage : string)
    (valueId : string) (formattedValues : Record) : Result Record :=
  if has_property valueId formattedValues then Ok formattedValues
  else if String.eqb valueId "errorCode" then
    Ok (set_property "errorCode" (get_property "errorCode" values) formattedValues)
  else Throw (UnmatchedValue valueId lhlMessage).

Definition _preformatValues (messageFormatter : Formatter) (values : Record)
    (lhlMessage : string) : Result Record :=
  let elementMap := collectAllCustomElementsFromICU (getAst_elements messageFormatter) in
  let argumentElements := om_values elementMap in
  formattedValues ← forEach argumentElements (preformatElement values lhlMessage) [];
  forEach (om_keys values) (checkValueId values lhlMessage) formattedValues.

(** ** [_formatMessage] (message.js, lines 149-159) *)

Context `{!Host}.

(** Line 151. *)
Definition localeForMessageFormat (locale : string) : string :=
  if String.eqb locale "en-XA" || String.eqb locale "en-XL" then "de-DE" else locale.

(** [values] is [None] for a call that leaves the argument out. *)
Definition _formatMessage (message : string) (values : option Record) (locale : string)
    : Result string :=
  let values := default [] values in
  formatter ← MessageFormat message (localeForMessageFormat locale) formats;
  valuesForMessageFormat ← _preformatValues formatter values message;
  format formatter valuesForMessageFormat.
End Preformat.

(** ** Strings and the regular expressions of the i18n module *)

Fixpoint allChars (p : ascii -> bool) (s : string) : bool :=
  match s with
  | EmptyString => true
  | String c s' => p c && allChars p s'
  end.

Definition anyChar (p : ascii -> bool) (s : string) : bool :=
  negb (allChars (fun c => negb (p c)) s).

(** The string has a space, the character of code 32. *)
Definition hasSpace (s : string) : bool := anyChar (fun c => Ascii.eqb c " ") s.

(** [\s], on code units below 256: tab to carriage return, space, no-break space. *)
Definition isWhiteSpace (c : ascii) : bool :=
  let n := nat_of_ascii c in
  (Nat.leb 9 n && Nat.leb n 13) || Nat.eqb n 32 || Nat.eqb n 160.

(** [[a-z]] under the [i] flag. *)
Definition isAsciiLetter (c : ascii) : bool :=
  let n := nat_of_ascii c in
  (Nat.leb 65 n && Nat.leb n 90) || (Nat.leb 97 n && Nat.leb n 122).

(** [/^[a-z]+$/i.test(s)] *)
Definition isLettersOnly (s : string) : bool :=
  negb (String.eqb s "") && allChars isAsciiLetter s.

(** The test of line 144: [s] holds a closing bracket, a double quote, a
    single quote or white space. *)
Definition hasBracketQuoteOrSpace (s : string) : bool :=
  anyChar (fun c => Ascii.eqb c "]" || Nat.eqb (nat_of_ascii c) 34
                    || Ascii.eqb c "'" || isWhiteSpace c) s.

(** The rest of [s] after the prefix [p], when [s] starts with [p]. *)
Fixpoint afterPrefix (p s : string) : option string :=
  match p, s with
  | EmptyString, _ => Some s
  | String a p', String b s' => if Ascii.eqb a b then afterPrefix p' s' else None
  | String _ _, EmptyString => None
  end.

(** [MESSAGE_I18N_ID_REGEX] (line 31) is [/ | [^\s]+$/]: the bar between
    the two spaces is the alternation of regular expressions, not a
    character.  Its first alternative is a space; its second a space with
    one or more characters that are not white space behind it, up to the end
    of the input.  Each is matched here at the start of [s]. *)
Definition matchesSpace (s : string) : bool :=
  match afterPrefix " " s with
  | Some _ => true
  | None => false
  end.

Definition matchesSpaceAndWord (s : string) : bool :=
  match afterPrefix " " s with
  | Some rest => negb (String.eqb rest "") && allChars (fun c => negb (isWhiteSpace c)) rest
  | None => false
  end.

(** [MESSAGE_I18N_ID_REGEX.test(s)]: one of the alternatives matches at some
    position of [s]. *)
Fixpoint MESSAGE_I18N_ID_REGEX_test (s : string) : bool :=
  (matchesSpace s || matchesSpaceAndWord s)
  || match s with
     | EmptyString => false
     | String _ s' => MESSAGE_I18N_ID_REGEX_test s'
     end.

(** The text before the first occurrence of [sep] in [s] and, when there is
    one, the text after it. *)
Fixpoint cutAt (sep s : string) : string * option string :=
  match afterPrefix sep s with
  | Some rest => ("", Some rest)
  | None =>
      match s with
      | EmptyString => ("", None)
      | String c s' => let '(before, after) := cutAt sep s' in (String c before, after)
      end
  end.

(** [s.endsWith(suffix)] *)
Definition endsWith (suffix s : string) : bool :=
  let n := String.length s in
  let m := String.length suffix in
  Nat.leb m n && String.eqb (substring (n - m) m s) suffix.

(** The property name of an array index. *)
Definition indexKey (i : nat) : string := NilEmpty.string_of_uint (Nat.to_uint i).

(** ** Type verifiers and [isIcuMessage] (i18n module, lines 82-111) *)

Record IcuMessage `{JsNumber} : Type := {
  i18nId : string;
  values : option Record;
  formattedDefault : string
}.

(** An entry of [LH.Result.IcuMessagePaths]: the path alone, or
    [{values, path}]. *)
Inductive IcuMessagePath `{JsNumber} : Type :=
| PathOnly (path : string)
| PathWithValues (values : Record) (path : string).

Section Values.
Context `{JsNumber}.

Definition typeof (v : value) : string :=
  match v with
  | VUndefined => "undefined"
  | VNull | VArray _ | VObject _ => "object"
  | VBoolean _ => "boolean"
  | VNumber _ => "number"
  | VString _ => "string"
  | VFunction _ => "function"
  end.

Definition isNull (v : value) : bool :=
  match v with VNull => true | _ => false end.

Definition isUndefined (v : value) : bool :=
  match v with VUndefined => true | _ => false end.

Definition Array_isArray (v : value) : bool :=
  match v with VArray _ => true | _ => false end.

(** Modelled from the spec: [isObjectOfUnknownValues] of type-verifiers.js,
    which is not among the sources; the type guard for an object that is
    neither [null] nor an array. *)
Definition isObjectOfUnknownValues (val : value) : bool :=
  String.eqb (typeof val) "object" && negb (isNull val) && negb (Array_isArray val).

(** Modelled from the spec: [isObjectOrArrayOfUnknownValues] of
    type-verifiers.js, which is not among the sources; the type guard for an
    object or an array, [null] excluded. *)
Definition isObjectOrArrayOfUnknownValues (val : value) : bool :=
  String.eqb (typeof val) "object" && negb (isNull val).

(** [Object.entries(v)]; an array has its indices for keys. *)
Definition Object_entries (v : value) : list (string * value) :=
  match v with
  | VObject props => props
  | VArray items => imap (fun i x => (indexKey i, x)) items
  | _ => []
  end.

Definition Object_values (v : value) : list value := map snd (Object_entries v).

(** [v[k]] for a property read off a document node. *)
Definition prop (k : string) (v : value) : value :=
  match v with
  | VObject props => get_property k props
  | _ => VUndefined
  end.

Definition isIcuMessage (icuMessageOrNot : value) : bool :=
  if negb (isObjectOfUnknownValues icuMessageOrNot) then false
  else
    let i18nId := prop "i18nId" icuMessageOrNot in
    let values := prop "values" icuMessageOrNot in
    let formattedDefault := prop "formattedDefault" icuMessageOrNot in
    if negb (String.eqb (typeof i18nId) "string") then false
    else if negb (String.eqb (typeof formattedDefault) "string") then false
    else if negb (isUndefined values)
            && (negb (isObjectOfUnknownValues values)
                || existsb (fun value =>
                              negb (String.eqb (typeof value) "string")
                              && negb (String.eqb (typeof value) "number"))
                     (Object_values values))
    then false
    else match i18nId with
         | VString s => MESSAGE_I18N_ID_REGEX_test s
         | _ => false
         end.

(** The fields of a value that passed [isIcuMessage], as the type
    [LH.IcuMessage] has them. *)
Definition asIcuMessage (v : value) : IcuMessage :=
  {| i18nId := match prop "i18nId" v with VString s => s | _ => "" end;
     values := match prop "values" v with VObject r => Some r | _ => None end;
     formattedDefault := match prop "formattedDefault" v with VString s => s | _ => "" end |}.
End Values.

(** ** The module state: [LOCALE_MESSAGES]

    Operations of the i18n module run against the table of locale messages
    and hand it on, changed or not, with their result or their error. *)

Record LocaleMessage : Type := { message : string }.

Definition LhlMessages : Type := list (string * LocaleMessage).

Abbreviation Store := (gmap string LhlMessages).

Definition Op (A : Type) : Type := Store -> Result A * Store.

#[global] Instance Op_ret : MRet Op := fun A a LOCALE_MESSAGES => (Ok a, LOCALE_MESSAGES).

#[global] Instance Op_bind : MBind Op := fun A B k m LOCALE_MESSAGES =>
  match m LOCALE_MESSAGES with
  | (Ok a, LOCALE_MESSAGES') => k a LOCALE_MESSAGES'
  | (Throw e, LOCALE_MESSAGES') => (Throw e, LOCALE_MESSAGES')
  end.

(** [LOCALE_MESSAGES[locale]], as the module uses it.  [LOCALE_MESSAGES] is
    a plain object: under a name that was not registered and that every
    object inherits ([constructor], [toString], ...) the read gives a function
    of [Object.prototype], or the prototype itself, and not [undefined].  Such
    a value is truthy, has no enumerable key and no property under a name
    that holds a space, so the module sees it as a table without entries. *)
Definition localeTable (LOCALE_MESSAGES : Store) (locale : string) : option LhlMessages :=
  match LOCALE_MESSAGES !! locale with
  | Some localeMessages => Some localeMessages
  | None => if isInherited locale then Some [] else None
  end.

Definition readLocale (locale : string) : Op (option LhlMessages) :=
  fun LOCALE_MESSAGES => (Ok (localeTable LOCALE_MESSAGES locale), LOCALE_MESSAGES).

Definition readLocaleKeys : Op (list string) :=
  fun LOCALE_MESSAGES => (Ok (map fst (map_to_list LOCALE_MESSAGES)), LOCALE_MESSAGES).

(** [LOCALE_MESSAGES[locale] = lhlMessages].  The locales are those of
    [LH.Locale]; [__proto__], under which the assignment would set the
    prototype of the object and no property, is not one of them. *)
Definition writeLocale (locale : string) (lhlMessages : LhlMessages) : Op unit :=
  fun LOCALE_MESSAGES => (Ok tt, <[locale := lhlMessages]> LOCALE_MESSAGES).

Definition throw {A} (e : Error) : Op A := fun LOCALE_MESSAGES => (Throw e, LOCALE_MESSAGES).

(** A computation that does not look at the module state. *)
Definition pure {A} (r : Result A) : Op A := fun LOCALE_MESSAGES => (r, LOCALE_MESSAGES).

#[global] Instance string_leb_dec (s t : string) : Decision (String.leb s t = true).
Proof. solve_decision. Defined.

Section I18n.
Context `{JsNumber} `{!Host}.

(** Lines 40-54. *)
Definition _localizeIcuMessage (icuMessage : IcuMessage) (locale : string) : Op string :=
  localeMessages ← readLocale locale;
  match localeMessages with
  | None => throw (UnsupportedLocale locale)
  | Some localeMessages =>
      match om_get (i18nId icuMessage) localeMessages with
      | None => mret (formattedDefault icuMessage)
      | Some localeMessage =>
          pure (_formatMessage (message localeMessage) (values icuMessage) locale)
      end
  end.

(** Lines 250-256; [key] is [undefined] when the id has no separator. *)
Definition getIcuMessageIdParts (i18nMessageId : string) : Result (string * option string) :=
  if negb (MESSAGE_I18N_ID_REGEX_test i18nMessageId) then
    Throw (InvalidMessageId i18nMessageId)
  else
    let '(filename, rest) := cutAt " | " i18nMessageId in
    Ok (filename, (fun r => fst (cutAt " | " r)) <$> rest).

(** Lines 60-75. *)
Definition getRendererFormattedStrings (locale : string) : Op (list (string * string)) :=
  localeMessages ← readLocale locale;
  match localeMessages with
  | None => throw (UnsupportedLocale locale)
  | Some localeMessages =>
      let icuMessageIds := filter (fun f => String.prefix "report/" f = true) (om_keys localeMessages) in
      pure (forEach icuMessageIds (fun icuMessageId strings =>
              '(filename, key) ← getIcuMessageIdParts icuMessageId;
              if negb (endsWith "util.js" filename) then Throw (UnexpectedMessage icuMessageId)
              else Ok (set_property (default "undefined" key)
                         (from_option message "undefined" (om_get icuMessageId localeMessages))
                         strings)) [])
  end.

(** Lines 123-134. *)
Definition getFormatted (icuMessageOrRawString : value) (locale : string) : Op string :=
  if isIcuMessage icuMessageOrRawString then
    _localizeIcuMessage (asIcuMessage icuMessageOrRawString) locale
  else match icuMessageOrRawString with
       | VString s => mret s
       | _ => throw InvalidIcuMessageType
       end.

(** Lines 137-150. *)
Definition _formatPathAsString (pathInLHR : list string) : Result string :=
  forEach pathInLHR (fun property pathAsString =>
    if isLettersOnly property then
      Ok ((if Nat.eqb (String.length pathAsString) 0 then pathAsString
           else pathAsString +:+ ".") +:+ property)
    else if hasBracketQuoteOrSpace property then Throw (CannotHandle property)
    else Ok (pathAsString +:+ "[" +:+ property +:+ "]")) "".

(** Lines 206-211. *)
Definition hasLocale (requestedLocale : string) : Op bool :=
  hasIntlSupport ← pure (Intl_supportedLocalesOf requestedLocale);
  localeMessages ← readLocale requestedLocale;
  let hasMessages := bool_decide (is_Some localeMessages) in
  mret (hasIntlSupport && hasMessages).

(** Lines 219-221. *)
Definition getCanonicalLocales : Op (list string) := mret CANONICAL_LOCALES.

(** Lines 232-234. *)
Definition getAvailableLocales : Op (list string) :=
  keys ← readLocaleKeys;
  mret (merge_sort (fun s t => String.leb s t = true) keys).

(** Lines 243-245. *)
Definition registerLocaleData (locale : string) (lhlMessages : LhlMessages) : Op unit :=
  writeLocale locale lhlMessages.
End I18n.

(** ** [replaceIcuMessages] (i18n module, lines 162-199)

    The walk mutates two objects, the document and [icuMessagePaths], and runs
    against [LOCALE_MESSAGES].  [replaceInObject] takes the three as they are
    when it is called and returns them as it leaves them, with [Throw e] when
    it leaves by an exception; what was replaced before the exception stays
    replaced. *)

Abbreviation IcuMessagePaths := (gmap string (list IcuMessagePath)).

Section Replace.
Context `{JsNumber} `{!Host}.

Definition Walked (A : Type) : Type := A * IcuMessagePaths * Store * Result unit.

(** The body of the loop of line 171, for one entry; [recurse] is the call
    of line 190. *)
Definition visitProperty (locale : string) (pathInLHR : list string)
    (property : string) (possibleIcuMessage : value)
    (recurse : IcuMessagePaths -> Store -> Walked value)
    (icuMessagePaths : IcuMessagePaths) (LOCALE_MESSAGES : Store) : Walked value :=
  let currentPathInLHR := pathInLHR ++ [property] in
  if isIcuMessage possibleIcuMessage then
    match getFormatted possibleIcuMessage locale LOCALE_MESSAGES with
    | (Throw e, LOCALE_MESSAGES) =>
        (possibleIcuMessage, icuMessagePaths, LOCALE_MESSAGES, Throw e)
    | (Ok formattedString, LOCALE_MESSAGES) =>
        let msg := asIcuMessage possibleIcuMessage in
        let messageInstancesInLHR := default [] (icuMessagePaths !! i18nId msg) in
        match _formatPathAsString currentPathInLHR with
        | Throw e => (possibleIcuMessage, icuMessagePaths, LOCALE_MESSAGES, Throw e)
        | Ok currentPathAsString =>
            let messageInstancesInLHR :=
              messageInstancesInLHR ++
                [match values msg with
                 | Some values => PathWithValues values currentPathAsString
                 | None => PathOnly currentPathAsString
                 end] in
            (VString formattedString,
             <[i18nId msg := messageInstancesInLHR]> icuMessagePaths,
             LOCALE_MESSAGES, Ok tt)
        end
    end
  else recurse icuMessagePaths LOCALE_MESSAGES.

(** The loop over the entries of an object. *)
Definition walkProps
    (visit : string -> value -> IcuMessagePaths -> Store -> Walked value) :=
  fix go (entries : list (string * value)) (icuMessagePaths : IcuMessagePaths)
      (LOCALE_MESSAGES : Store) {struct entries} : Walked (list (string * value)) :=
    match entries with
    | [] => ([], icuMessagePaths, LOCALE_MESSAGES, Ok tt)
    | (property, v) :: rest =>
        match visit property v icuMessagePaths LOCALE_MESSAGES with
        | (v', icuMessagePaths, LOCALE_MESSAGES, Throw e) =>
            ((property, v') :: rest, icuMessagePaths, LOCALE_MESSAGES, Throw e)
        | (v', icuMessagePaths, LOCALE_MESSAGES, Ok _) =>
            let '(rest', icuMessagePaths, LOCALE_MESSAGES, c) :=
              go rest icuMessagePaths LOCALE_MESSAGES in
            ((property, v') :: rest', icuMessagePaths, LOCALE_MESSAGES, c)
        end
    end.

(** The loop over the entries of an array, from index [i] on. *)
Definition walkItems
    (visit : string -> value -> IcuMessagePaths -> Store -> Walked value) :=
  fix go (i : nat) (items : list value) (icuMessagePaths : IcuMessagePaths)
      (LOCALE_MESSAGES : Store) {struct items} : Walked (list value) :=
    match items with
    | [] => ([], icuMessagePaths, LOCALE_MESSAGES, Ok tt)
    | v :: rest =>
        match visit (indexKey i) v icuMessagePaths LOCALE_MESSAGES with
        | (v', icuMessagePaths, LOCALE_MESSAGES, Throw e) =>
            (v' :: rest, icuMessagePaths, LOCALE_MESSAGES, Throw e)
        | (v', icuMessagePaths, LOCALE_MESSAGES, Ok _) =>
            let '(rest', icuMessagePaths, LOCALE_MESSAGES, c) :=
              go (S i) rest icuMessagePaths LOCALE_MESSAGES in
            (v' :: rest', icuMessagePaths, LOCALE_MESSAGES, c)
        end
    end.

Fixpoint replaceInObject (locale : string) (subObject : value)
    (pathInLHR : list string) (icuMessagePaths : IcuMessagePaths)
    (LOCALE_MESSAGES : Store) {struct subObject} : Walked value :=
  if negb (isObjectOrArrayOfUnknownValues subObject) then
    (subObject, icuMessagePaths, LOCALE_MESSAGES, Ok tt)
  else
    match subObject with
    | VObject props =>
        let '(props', icuMessagePaths, LOCALE_MESSAGES, c) :=
          walkProps (fun property possibleIcuMessage =>
                       visitProperty locale pathInLHR property possibleIcuMessage
                         (replaceInObject locale possibleIcuMessage (pathInLHR ++ [property])))
            props icuMessagePaths LOCALE_MESSAGES in
        (VObject props', icuMessagePaths, LOCALE_MESSAGES, c)
    | VArray items =>
        let '(items', icuMessagePaths, LOCALE_MESSAGES, c) :=
          walkItems (fun property possibleIcuMessage =>
                       visitProperty locale pathInLHR property possibleIcuMessage
                         (replaceInObject locale possibleIcuMessage (pathInLHR ++ [property])))
            0 items icuMessagePaths LOCALE_MESSAGES in
        (VArray items', icuMessagePaths, LOCALE_MESSAGES, c)
    | _ => (subObject, icuMessagePaths, LOCALE_MESSAGES, Ok tt)
    end.

(** The result, the input object as the call leaves it, and the module
    state. *)
Definition replaceIcuMessages (inputObject : value) (locale : string)
    (LOCALE_MESSAGES : Store) : Result IcuMessagePaths * value * Store :=
  let '(inputObject', icuMessagePaths, LOCALE_MESSAGES, c) :=
    replaceInObject locale inputObject [] ∅ LOCALE_MESSAGES in
  (_ ← c; Ok icuMessagePaths, inputObject', LOCALE_MESSAGES).
End Replace.

(** ** The exported operations, as calls against the module state *)

Inductive Call `{JsNumber} : Type :=
| Call_formatPathAsString (pathInLHR : list string)
| Call_collectAllCustomElementsFromICU (icuElements : list MessageElement)
| Call_isIcuMessage (icuMessageOrNot : value)
| Call_getFormatted (icuMessageOrRawString : value) (locale : string)
| Call_getRendererFormattedStrings (locale : string)
| Call_replaceIcuMessages (inputObject : value) (locale : string)
| Call_hasLocale (requestedLocale : string)
| Call_registerLocaleData (locale : string) (lhlMessages : LhlMessages)
| Call_formatMessage (message : string) (values : option Record) (locale : string)
| Call_getIcuMessageIdParts (i18nMessageId : string)
| Call_getAvailableLocales
| Call_getCanonicalLocales.

(** What a call gives back: its result or its error and, for
    [replaceIcuMessages], the input object as the call leaves it. *)
Inductive Outcome `{JsNumber} : Type :=
| OutString (r : Result string)
| OutElements (m : ElementMap)
| OutBoolean (r : Result bool)
| OutStrings (r : Result (list (string * string)))
| OutPaths (r : Result IcuMessagePaths) (inputObject : value)
| OutUnit (r : Result unit)
| OutParts (r : Result (string * option string))
| OutLocales (r : Result (list string)).

Section Calls.
Context `{JsNumber} `{!Host}.

Definition run (call : Call) (LOCALE_MESSAGES : Store) : Outcome * Store :=
  match call with
  | Call_formatPathAsString pathInLHR =>
      (OutString (_formatPathAsString pathInLHR), LOCALE_MESSAGES)
  | Call_collectAllCustomElementsFromICU icuElements =>
      (OutElements (collectAllCustomElementsFromICU icuElements), LOCALE_MESSAGES)
  | Call_isIcuMessage icuMessageOrNot =>
      (OutBoolean (Ok (isIcuMessage icuMessageOrNot)), LOCALE_MESSAGES)
  | Call_getFormatted icuMessageOrRawString locale =>
      prod_map OutString id (getFormatted icuMessageOrRawString locale LOCALE_MESSAGES)
  | Call_getRendererFormattedStrings locale =>
      prod_map OutStrings id (getRendererFormattedStrings locale LOCALE_MESSAGES)
  | Call_replaceIcuMessages inputObject locale =>
      let '(r, inputObject', LOCALE_MESSAGES) :=
        replaceIcuMessages inputObject locale LOCALE_MESSAGES in
      (OutPaths r inputObject', LOCALE_MESSAGES)
  | Call_hasLocale requestedLocale =>
      prod_map OutBoolean id (hasLocale requestedLocale LOCALE_MESSAGES)
  | Call_registerLocaleData locale lhlMessages =>
      prod_map OutUnit id (registerLocaleData locale lhlMessages LOCALE_MESSAGES)
  | Call_formatMessage message values locale =>
      (OutString (_formatMessage message values locale), LOCALE_MESSAGES)
  | Call_getIcuMessageIdParts i18nMessageId =>
      (OutParts (getIcuMessageIdParts i18nMessageId), LOCALE_MESSAGES)
  | Call_getAvailableLocales =>
      prod_map OutLocales id (getAvailableLocales LOCALE_MESSAGES)
  | Call_getCanonicalLocales =>
      prod_map OutLocales id (getCanonicalLocales LOCALE_MESSAGES)
  end.

Definition isRegisterLocaleData (call : Call) : bool :=
  match call with Call_registerLocaleData _ _ => true | _ => false end.

(** What a call reads of the module state: two states are alike for it
    when they hold the same table for its locale. *)
Definition alikeFor (call : Call) (s1 s2 : Store) : Prop :=
  match call with
  | Call_getFormatted _ locale | Call_getRendererFormattedStrings locale
  | Call_replaceIcuMessages _ locale | Call_hasLocale locale =>
      s1 !! locale = s2 !! locale
  | Call_getAvailableLocales => s1 = s2
  | _ => True
  end.
End Calls.

(** ** The argument elements of a message, as the specification lists them

    The elements of a list that are argument elements, each followed by the
    argument elements nested in the options of its plural format, in the
    order of the text. *)

Definition pattern_elements (opt : OptionalFormatPattern) : list MessageElement :=
  match opt with optionalFormatPattern _ els => els end.

Fixpoint argumentElementsOf (el : MessageElement) : list MessageElement :=
  match el with
  | messageTextElement _ => []
  | argumentElement id format =>
      el :: match format with
            | Some (pluralFormat _ _ options) =>
                flat_map (fun opt => flat_map argumentElementsOf (pattern_elements opt)) options
            | _ => []
            end
  end.

Definition allArgumentElements (icuElements : list MessageElement) : list MessageElement :=
  flat_map argumentElementsOf icuElements.

(** Setting each element of a list under its id, first to last. *)
Definition recordAll (els : list MessageElement) (seen : ElementMap) : ElementMap :=
  fold_left (fun m el => om_set (el_id el) el m) els seen.

(** ** The checks of [_preformatValues], as conditions on the input *)

Section PreformatResult.
Context `{JsNumber}.

(** [el] passes the checks of lines 88-105: its value is provided, and is a
    number when the element has a number format. *)
Definition elementProvided (values : Record) (el : MessageElement) : Prop :=
  (el_id el = "" \/ has_property (el_id el) values = true)
  /\ (forall style, el_format el = Some (numberFormat style) ->
        exists v, get_property (el_id el) values = VNumber v).
End PreformatResult.

(** ** [replaceIcuMessages], as the specification describes it *)

Section ReplaceSpec.
Context `{JsNumber}.

(** The entries of an array from index [i] on, each mapped by [f]. *)
Definition itemsFrom {B} (f : string -> value -> list B) :=
  fix go (i : nat) (items : list value) {struct items} : list B :=
    match items with
    | [] => []
    | x :: rest => f (indexKey i) x ++ go (S i) rest
    end.

(** The property values of the tree that are [LH.IcuMessage]s and lie in no
    other one, each with the names of the properties that lead to it, in
    the order of [Object.entries]. *)
Fixpoint icuLocations (v : value) (pathInLHR : list string) {struct v}
    : list (list string * value) :=
  match v with
  | VObject props =>
      flat_map (fun kx => if isIcuMessage kx.2 then [(pathInLHR ++ [kx.1], kx.2)]
                          else icuLocations kx.2 (pathInLHR ++ [kx.1])) props
  | VArray items =>
      itemsFrom (fun k x => if isIcuMessage x then [(pathInLHR ++ [k], x)]
                            else icuLocations x (pathInLHR ++ [k])) 0 items
  | _ => []
  end.

(** The tree with each of these property values replaced by the string
    [text] gives for it. *)
Fixpoint localized (text : value -> string) (v : value) {struct v} : value :=
  match v with
  | VObject props =>
      VObject (map (fun kx => (kx.1, if isIcuMessage kx.2 then VString (text kx.2)
                                     else localized text kx.2)) props)
  | VArray items =>
      VArray (map (fun x => if isIcuMessage x then VString (text x)
                            else localized text x) items)
  | _ => v
  end.

(** The value found by following property names down from [v]. *)
Fixpoint valueAt (pathInLHR : list string) (v : value) : option value :=
  match pathInLHR with
  | [] => Some v
  | property :: rest => x ← om_get property (Object_entries v); valueAt rest x
  end.

(** No object of the tree has two properties of one name, as in JavaScript. *)
Fixpoint uniqueKeys (v : value) {struct v} : Prop :=
  match v with
  | VObject props =>
      NoDup (om_keys props) /\ foldr (fun kx rest => uniqueKeys kx.2 /\ rest) True props
  | VArray items => foldr (fun x rest => uniqueKeys x /\ rest) True items
  | _ => True
  end.

(** The entry recorded for the message [m] found at [path]. *)
Definition pathEntry (pathAsString : list string -> string)
    (location : list string * value) : IcuMessagePath :=
  match values (asIcuMessage location.2) with
  | Some values => PathWithValues values (pathAsString location.1)
  | None => PathOnly (pathAsString location.1)
  end.

Definition recordLocation (pathAsString : list string -> string)
    (icuMessagePaths : IcuMessagePaths) (location : list string * value) : IcuMessagePaths :=
  <[i18nId (asIcuMessage location.2) :=
      default [] (icuMessagePaths !! i18nId (asIcuMessage location.2))
      ++ [pathEntry pathAsString location]]> icuMessagePaths.
End ReplaceSpec.

Section ReplaceSpecHost.
Context `{JsNumber} `{!Host}.

Variables (locale : string) (LOCALE_MESSAGES : Store).

(** The string [getFormatted] gives for a message, the string
    [_formatPathAsString] gives for a path, and whether both succeed. *)
Definition formattedText (m : value) : string :=
  match (getFormatted m locale LOCALE_MESSAGES).1 with Ok s => s | Throw _ => "" end.

Definition pathText (pathInLHR : list string) : string :=
  match _formatPathAsString pathInLHR with Ok s => s | Throw _ => "" end.

Definition locationOk (location : list string * value) : bool :=
  isOk (getFormatted location.2 locale LOCALE_MESSAGES).1
  && isOk (_formatPathAsString location.1).
End ReplaceSpecHost.

(** ** What the operations do, in terms of their inputs

    Definitions used to state how the path strings are built, which message
    ids the renderer strings accept, and where the walk of
    [replaceIcuMessages] stops. *)

(** The keys of a [Map] after setting the ids one after the other: each id
    where it was first set. *)
Definition firstVisits (ids keys : list string) : list string :=
  fold_left (fun keys id => if bool_decide (id ∈ keys) then keys else keys ++ [id]) ids keys.

Section PreformatChecks.
Context `{JsNumber}.

(** The checks of lines 88-105 on one element, as a test. *)
Definition valueFits (values : Record) (el : MessageElement) : bool :=
  (String.eqb (el_id el) "" || has_property (el_id el) values)
  && match el_format el with
     | Some (numberFormat _) =>
         match get_property (el_id el) values with VNumber _ => true | _ => false end
     | _ => true
     end.

(** The error of the element that fails them. *)
Definition elementError (values : Record) (lhlMessage : string) (el : MessageElement) : Error :=
  if negb (String.eqb (el_id el) "") && negb (has_property (el_id el) values)
  then ValueNotProvided lhlMessage (el_id el)
  else NotANumber lhlMessage (el_id el).

(** The check of lines 124-134 on one key of the values, given the
    elements the first loop went over. *)
Definition keyMatched (kept : list MessageElement) (valueId : string) : bool :=
  existsb (fun el => String.eqb (el_id el) valueId) kept
  || isInherited valueId || String.eqb valueId "errorCode".
End PreformatChecks.

(** Whether [_formatPathAsString] can write the property: letters only, or
    free of the characters of line 144. *)
Definition writable (property : string) : bool :=
  isLettersOnly property || negb (hasBracketQuoteOrSpace property).

(** What a property adds to the path string; [first] says that nothing was
    written before it. *)
Definition pathSegment (first : bool) (property : string) : string :=
  if isLettersOnly property then (if first then "" else ".") +:+ property
  else "[" +:+ property +:+ "]".

Fixpoint pathSegments (first : bool) (pathInLHR : list string) : string :=
  match pathInLHR with
  | [] => ""
  | property :: rest => pathSegment first property +:+ pathSegments false rest
  end.

(** The body of the loop of [_formatPathAsString], lines 140-146. *)
Definition pathStep (property pathAsString : string) : Result string :=
  if isLettersOnly property then
    Ok ((if Nat.eqb (String.length pathAsString) 0 then pathAsString
         else pathAsString +:+ ".") +:+ property)
  else if hasBracketQuoteOrSpace property then Throw (CannotHandle property)
  else Ok (pathAsString +:+ "[" +:+ property +:+ "]").

Definition isDigit (c : ascii) : bool :=
  let n := nat_of_ascii c in Nat.leb 48 n && Nat.leb n 57.

Definition startsWithoutLetter (s : string) : Prop :=
  match s with
  | EmptyString => True
  | String c _ => isAsciiLetter c = false
  end.

(** [typeof v] is [string] or [number]. *)
Definition isStringOrNumber `{JsNumber} (v : value) : bool :=
  match v with VString _ | VNumber _ => true | _ => false end.



(** [entry.path], or the entry itself when it is a string. *)
Definition entryPath `{JsNumber} (entry : IcuMessagePath) : string :=
  match entry with
  | PathOnly path => path
  | PathWithValues _ path => path
  end.

Section ReplacePartway.
Context `{JsNumber}.

(** The entries of an object with the first [n] messages of the walk
    replaced; [visit] does the same inside a value that is no message. *)
Definition firstProps (text : value -> string) (visit : nat -> value -> value) :=
  fix go (n : nat) (props : list (string * value)) {struct props} : list (string * value) :=
    match props with
    | [] => []
    | (k, x) :: rest =>
        if isIcuMessage x then
          match n with
          | 0 => props
          | S n' => (k, VString (text x)) :: go n' rest
          end
        else (k, visit n x) :: go (n - length (icuLocations x [])) rest
    end.

(** The same for the entries of an array. *)
Definition firstItems (text : value -> string) (visit : nat -> value -> value) :=
  fix go (n : nat) (items : list value) {struct items} : list value :=
    match items with
    | [] => []
    | x :: rest =>
        if isIcuMessage x then
          match n with
          | 0 => items
          | S n' => VString (text x) :: go n' rest
          end
        else visit n x :: go (n - length (icuLocations x [])) rest
    end.

(** The tree with the first [n] messages of the walk replaced, the others
    left as they are. *)
Fixpoint localizedFirst (text : value -> string) (n : nat) (v : value) {struct v} : value :=
  match v with
  | VObject props => VObject (firstProps text (fun n x => localizedFirst text n x) n props)
  | VArray items => VArray (firstItems text (fun n x => localizedFirst text n x) n items)
  | _ => v
  end.

(** What the place of the [i]-th message of the walk holds once the first
    [n] messages are replaced. *)
Definition placeAfter (text : value -> string) (n i : nat)
    (location : list string * value) : value :=
  if Nat.ltb i n then VString (text location.2) else location.2.
End ReplacePartway.

Section ReplacePartwayHost.
Context `{JsNumber} `{!Host}.

Variables (locale : string) (LOCALE_MESSAGES : Store).

(** The error a location stops the walk with: the one of [getFormatted],
    else the one of [_formatPathAsString]. *)
Definition locationError (location : list string * value) : option Error :=
  match (getFormatted location.2 locale LOCALE_MESSAGES).1 with
  | Throw e => Some e
  | Ok _ => match _formatPathAsString location.1 with
            | Throw e => Some e
            | Ok _ => None
            end
  end.

(** The locations the walk gets through before the first one that fails. *)
Fixpoint okPrefix (locations : list (list string * value)) : list (list string * value) :=
  match locations with
  | [] => []
  | location :: rest =>
      if locationOk locale LOCALE_MESSAGES location then location :: okPrefix rest else []
  end.

(** How the walk over these locations ends. *)
Definition walkOutcome (locations : list (list string * value)) : Result unit :=
  match find (fun location => negb (locationOk locale LOCALE_MESSAGES location)) locations with
  | Some location =>
      match locationError location with
      | Some e => Throw e
      | None => Ok tt
      end
  | None => Ok tt
  end.
End ReplacePartwayHost.

(** ** [CANONICAL_LOCALES] (i18n module, lines 22-29) *)

(** [s.replace(pattern, replacement)] for a pattern that is a string: the
    first occurrence is replaced. *)
Definition replaceFirst (pattern replacement s : string) : string :=
  match cutAt pattern s with
  | (before, Some after) => before +:+ replacement +:+ after
  | (_, None) => s
  end.

(** Lines 22-29: [CANONICAL_LOCALES] once the module is loaded.
    [readdirSync] is the list of the file names of [locales/], and [None]
    where the file system cannot be read. *)
Definition canonicalLocales (readdirSync : option (list string)) : list string :=
  match readdirSync with
  | None => ["__availableLocales__"]
  | Some basenames =>
      merge_sort (fun s t => String.leb s t = true)
        (map (fun locale => replaceFirst ".json" "" locale)
           (filter (fun basename =>
                      endsWith ".json" basename && negb (endsWith ".ctc.json" basename) = true)
              basenames))
  end.

(** The string has no dot. *)
Definition noDot (s : string) : bool := allChars (fun c => negb (Ascii.eqb c ".")) s.

(** ** A host and inputs to run the definitions on

    Exact rational arithmetic for the numbers, and a formatter for the
    fragment of the message syntax without nesting: text, [{id}],
    [{id, number}] and [{id, number, style}]; it formats by substitution.
    It finds the value of a placeholder as the library does, with
    [id in values] and [values[id]]; a value that is neither a string nor a
    number adds no text. *)

Definition rationalNumber : JsNumber := {|
  number := Q;
  num_lit := inject_Z;
  num_div := fun a b => Qred (a / b)%Q;
  num_mul := fun a b => Qred (a * b)%Q;
  Math_round := fun a => inject_Z (Qfloor (a + (1 # 2))%Q)
|}.

(** The number [z] as a value. *)
Definition VInteger (z : Z) : @value rationalNumber := @VNumber rationalNumber (inject_Z z).

Definition showZ (z : Z) : string := NilEmpty.string_of_int (Z.to_int z).

Definition showQ (q : Q) : string :=
  let q := Qred q in
  if Pos.eqb (Qden q) 1 then showZ (Qnum q)
  else showZ (Qnum q) +:+ "/" +:+ showZ (Zpos (Qden q)).

Fixpoint trimLeft (s : string) : string :=
  match s with
  | String c s' => if isWhiteSpace c then trimLeft s' else s
  | EmptyString => EmptyString
  end.

Definition trim (s : string) : string :=
  String.rev (trimLeft (String.rev (trimLeft s))).

(** The pieces of [s] between commas. *)
Fixpoint commaPieces (s : string) (piece : string) : list string :=
  match s with
  | EmptyString => [piece]
  | String c s' =>
      if Ascii.eqb c "," then piece :: commaPieces s' ""
      else commaPieces s' (piece +:+ String c "")
  end.

Definition parseArgument (inside : string) : Result MessageElement :=
  match trim <$> commaPieces inside "" with
  | [id] => if String.eqb id "" then Throw (LibraryError "syntax") else Ok (argumentElement id None)
  | [id; "number"] => Ok (argumentElement id (Some (numberFormat None)))
  | [id; "number"; style] => Ok (argumentElement id (Some (numberFormat (Some style))))
  | _ => Throw (LibraryError "syntax")
  end.

Definition textElement (text : string) : list MessageElement :=
  if String.eqb text "" then [] else [messageTextElement text].

Fixpoint parseElements (s : string) (inArgument : bool) (piece : string)
    (elements : list MessageElement) : Result (list MessageElement) :=
  match s with
  | EmptyString =>
      if inArgument then Throw (LibraryError "syntax") else Ok (elements ++ textElement piece)
  | String c s' =>
      if Ascii.eqb c "{" then
        if inArgument then Throw (LibraryError "syntax")
        else parseElements s' true "" (elements ++ textElement piece)
      else if Ascii.eqb c "}" then
        if inArgument then
          match parseArgument piece with
          | Ok el => parseElements s' false "" (elements ++ [el])
          | Throw e => Throw e
          end
        else Throw (LibraryError "syntax")
      else parseElements s' inArgument (piece +:+ String c "") elements
  end.

Definition substitute (elements : list MessageElement)
    (values : @Record rationalNumber) : Result string :=
  forEach elements (fun el text =>
    match el with
    | messageTextElement t => Ok (text +:+ t)
    | argumentElement id _ =>
        if negb (has_property id values) then Throw (LibraryError "value")
        else match get_property id values with
             | VString s => Ok (text +:+ s)
             | VNumber q => Ok (text +:+ showQ q)
             | _ => Ok text
             end
    end) "".

Definition substitutionHost : @Host rationalNumber := {|
  MessageFormat := fun message locale formats =>
    elements ← parseElements message false "" [];
    Ok {| getAst_elements := elements; format := substitute elements |};
  Intl_supportedLocalesOf := fun locale =>
    Ok (String.eqb locale "en-US" || String.eqb locale "de");
  CANONICAL_LOCALES := ["de"; "en-US"]
|}.

(** Two formatters, as [MessageFormat] returns them for
    [Took {timeInMs, number, seconds}] and [Hello {name}]. *)
Definition secondsFormatter : @Formatter rationalNumber :=
  {| getAst_elements :=
       [messageTextElement "Took ";
        argumentElement "timeInMs" (Some (numberFormat (Some "seconds")))];
     format :=
       substitute [messageTextElement "Took ";
                   argumentElement "timeInMs" (Some (numberFormat (Some "seconds")))] |}.

Definition helloFormatter : @Formatter rationalNumber :=
  {| getAst_elements := [messageTextElement "Hello "; argumentElement "name" None];
     format := substitute [messageTextElement "Hello "; argumentElement "name" None] |}.

(** A message and a table of locale messages to run [getFormatted] on. *)
Definition titleMessage : @value rationalNumber :=
  VObject [("i18nId", VString "core/audits/redirects.js | title");
           ("values", VObject [("count", VInteger 3)]);
           ("formattedDefault", VString "Avoid 3 redirects")].

Definition germanMessages : Store :=
  {[ "de" := [("core/audits/redirects.js | title",
               {| message := "Vermeide {count} Weiterleitungen" |})] ]}.

Definition emptyGermanMessages : Store := {[ "de" := [] ]}.

(** A document with the message at two places. *)
Definition reportDocument : @value rationalNumber :=
  VObject [("audits", VArray [titleMessage; VString "plain"]); ("title", titleMessage)].

(** A document without messages, and one whose second message sits under a
    property name that cannot be written. *)
Definition plainDocument : @value rationalNumber :=
  VObject [("fetchTime", VString "2021-01-01"); ("timing", VArray [VInteger 1; VNull])].

Definition spacedDocument : @value rationalNumber :=
  VObject [("title", titleMessage); ("final url", titleMessage); ("last", titleMessage)].

(** A message whose id has a space and no separator, a document that holds
    it, and a table with an id of the renderer whose key has a space. *)
Definition looseMessage : @value rationalNumber :=
  VObject [("i18nId", VString "hello world"); ("formattedDefault", VString "dflt")].

Definition looseDocument : @value rationalNumber := VObject [("a", looseMessage)].

Definition rendererMessages : Store :=
  {[ "de" := [("report/renderer/util.js | two words", {| message := "A" |})] ]}.

(** * Properties *)

(** ** Insertion-ordered maps *)

Section OrderedMapFacts.
Context {V : Type}.

Implicit Types (m : list (string * V)) (k : string) (v : V).

Lemma om_get_set_eq k v m : om_get k (om_set k v m) = Some v.
Proof.
  induction m as [|[k' v'] m IH]; simpl.
  - by rewrite String.eqb_refl.
  - destruct (String.eqb k k') eqn:E; simpl; rewrite E; done.
Qed.

Lemma om_get_set_ne k k' v m : k ≠ k' -> om_get k' (om_set k v m) = om_get k' m.
Proof.
  intros Hne. induction m as [|[k0 v0] m IH]; simpl.
  - destruct (String.eqb k' k) eqn:E; [apply String.eqb_eq in E; congruence | done].
  - destruct (String.eqb k k0) eqn:E; simpl.
    + apply String.eqb_eq in E; subst k0.
      destruct (String.eqb k' k) eqn:E'; [apply String.eqb_eq in E'; congruence | done].
    + by rewrite IH.
Qed.

Lemma om_keys_set k v m :
  om_keys (om_set k v m) = if om_has k m then om_keys m else om_keys m ++ [k].
Proof.
  unfold om_has, om_keys. induction m as [|[k' v'] m IH]; simpl; [done|].
  destruct (String.eqb k k') eqn:E; simpl; [done|].
  rewrite IH. by destruct (om_get k m).
Qed.

Lemma om_has_elem_of k m : om_has k m = true <-> k ∈ om_keys m.
Proof.
  unfold om_has, om_keys. induction m as [|[k' v'] m IH]; simpl.
  - split; [done | by intros ?%elem_of_nil].
  - destruct (String.eqb k k') eqn:E.
    + apply String.eqb_eq in E; subst. split; [intros _; left | done].
    + apply String.eqb_neq in E. rewrite IH, elem_of_cons. tauto.
Qed.

Lemma om_keys_set_NoDup k v m : NoDup (om_keys m) -> NoDup (om_keys (om_set k v m)).
Proof.
  intros Hnd. rewrite om_keys_set. destruct (om_has k m) eqn:E; [done|].
  apply NoDup_app; split_and!; [done | | apply NoDup_singleton].
  intros x Hx ->%list_elem_of_singleton.
  apply om_has_elem_of in Hx. congruence.
Qed.

Lemma om_get_elem_of k v m : om_get k m = Some v -> (k, v) ∈ m.
Proof.
  induction m as [|[k' v'] m IH]; simpl; [done|].
  destruct (String.eqb k k') eqn:E.
  - apply String.eqb_eq in E; subst. intros [= ->]. left.
  - intros ?. right. by apply IH.
Qed.

Lemma om_elem_of_get k v m : NoDup (om_keys m) -> (k, v) ∈ m -> om_get k m = Some v.
Proof.
  unfold om_keys. induction m as [|[k' v'] m IH]; simpl.
  - by intros _ ?%elem_of_nil.
  - intros [Hk Hnd]%NoDup_cons Hin. apply elem_of_cons in Hin as [Heq | Hin].
    { injection Heq as -> ->. by rewrite String.eqb_refl. }
    destruct (String.eqb k k') eqn:E; [|by apply IH].
    apply String.eqb_eq in E; subst. exfalso. apply Hk.
    apply list_elem_of_fmap. by exists (k', v).
Qed.

Lemma om_get_None_keys k m : om_get k m = None <-> k ∉ om_keys m.
Proof.
  rewrite <- om_has_elem_of. unfold om_has. destruct (om_get k m); naive_solver.
Qed.
End OrderedMapFacts.

(** ** [collectAllCustomElementsFromICU] *)

Section MessageElementInduction.
Variable P : MessageElement -> Prop.

Hypothesis Htext : forall value, P (messageTextElement value).

Hypothesis Hplural : forall id ordinal offset options,
  Forall (fun opt => Forall P (pattern_elements opt)) options ->
  P (argumentElement id (Some (pluralFormat ordinal offset options))).

Hypothesis Hother : forall id format,
  (forall ordinal offset options, format <> Some (pluralFormat ordinal offset options)) ->
  P (argumentElement id format).

Lemma MessageElement_nested_ind : forall el, P el.
Proof.
  fix IH 1. intros [value | id [[s|s|s|opts|ordinal offset opts]|]];
    [apply Htext | apply Hother; congruence .. | | apply Hother; congruence].
  { apply Hplural. induction opts as [|[selector els] opts IHopts]; constructor; [|done].
    simpl. induction els as [|el els IHels]; constructor; [apply IH | done]. }
Qed.
End MessageElementInduction.

Lemma recordAll_app els1 els2 seen :
  recordAll (els1 ++ els2) seen = recordAll els2 (recordAll els1 seen).
Proof. apply fold_left_app. Qed.

(** The loop over the elements of one list, as in the source. *)
Lemma collectElement_plural id ordinal offset options seen :
  collectElement (argumentElement id (Some (pluralFormat ordinal offset options))) seen
  = fold_left (fun seen opt => collectInto (pattern_elements opt) seen) options
      (om_set id (argumentElement id (Some (pluralFormat ordinal offset options))) seen).
Proof.
  simpl. generalize (om_set id (argumentElement id (Some (pluralFormat ordinal offset options))) seen).
  induction options as [|[selector els] options IH]; intros m; simpl; [done|].
  rewrite IH. reflexivity.
Qed.

Lemma collectElement_recordAll el :
  forall seen, collectElement el seen = recordAll (argumentElementsOf el) seen.
Proof.
  induction el as [value | id ordinal offset options IH | id format Hnp]
    using MessageElement_nested_ind; intros seen.
  - done.
  - rewrite collectElement_plural. simpl.
    generalize (om_set id (argumentElement id (Some (pluralFormat ordinal offset options))) seen).
    induction IH as [|[selector els] options Hels _ IHopts]; intros m; simpl; [done|].
    rewrite recordAll_app, <- IHopts. f_equal.
    clear -Hels. simpl in Hels. revert m.
    induction Hels as [|el els Hel _ IHels]; intros m; simpl; [done|].
    rewrite recordAll_app, <- IHels. by rewrite Hel.
  - destruct format as [[]|]; try done. by destruct (Hnp ordinal offset options).
Qed.

Lemma collectInto_recordAll icuElements :
  forall seen, collectInto icuElements seen = recordAll (allArgumentElements icuElements) seen.
Proof.
  induction icuElements as [|el els IH]; intros seen; simpl; [done|].
  unfold allArgumentElements in *. simpl.
  by rewrite recordAll_app, IH, collectElement_recordAll.
Qed.

Lemma recordAll_snoc els el seen :
  recordAll (els ++ [el]) seen = om_set (el_id el) el (recordAll els seen).
Proof. by rewrite recordAll_app. Qed.

Lemma recordAll_NoDup els seen :
  NoDup (om_keys seen) -> NoDup (om_keys (recordAll els seen)).
Proof.
  revert seen. induction els as [|el els IH]; intros seen Hnd; simpl; [done|].
  by apply IH, om_keys_set_NoDup.
Qed.

(** The element kept under an id is the last one recorded with that id. *)
Lemma recordAll_get els seen id :
  om_get id (recordAll els seen)
  = match last (filter (fun el => el_id el = id) els) with
    | Some el => Some el
    | None => om_get id seen
    end.
Proof.
  induction els as [|el els IH] using rev_ind; [done|].
  rewrite recordAll_snoc, filter_app, filter_cons, filter_nil.
  destruct (decide (el_id el = id)) as [<-|Hne].
  - by rewrite om_get_set_eq, last_snoc.
  - by rewrite om_get_set_ne, app_nil_r.
Qed.

Lemma argumentElementsOf_argument el x :
  x ∈ argumentElementsOf el -> isArgumentElement x = true.
Proof.
  revert x. induction el as [value | id ordinal offset options IH | id format Hnp]
    using MessageElement_nested_ind; intros x; simpl.
  - by intros ?%elem_of_nil.
  - intros [->|Hin]%elem_of_cons; [done|].
    apply list_elem_of_In, in_flat_map in Hin as (opt & Hopt & Hin).
    apply in_flat_map in Hin as (el & Hel & Hin).
    rewrite Forall_forall in IH. specialize (IH opt (proj2 (list_elem_of_In _ _) Hopt)).
    rewrite Forall_forall in IH. apply (IH el); by apply list_elem_of_In.
  - intros [->|Hin]%elem_of_cons; [done|].
    destruct format as [[]|]; try by apply elem_of_nil in Hin.
    by destruct (Hnp ordinal offset options).
Qed.

Lemma last_filter_elem_of {A} (P : A -> Prop) `{!forall a, Decision (P a)} (l : list A) x :
  last (filter P l) = Some x -> x ∈ l /\ P x.
Proof.
  intros Hlast. apply last_Some in Hlast as [l' Heq].
  assert (x ∈ filter P l) as Hin by (rewrite Heq; set_solver).
  by apply list_elem_of_filter in Hin as [? ?].
Qed.

Lemma last_filter_None {A} (P : A -> Prop) `{!forall a, Decision (P a)} (l : list A) :
  last (filter P l) = None <-> forall x, x ∈ l -> ~ P x.
Proof.
  rewrite last_None. split.
  - intros Hnil x Hin HP.
    assert (x ∈ filter P l) as Hx by (by apply list_elem_of_filter).
    rewrite Hnil in Hx. by apply elem_of_nil in Hx.
  - intros Hall. destruct (filter P l) as [|y l'] eqn:E; [done|].
    assert (y ∈ filter P l) as Hy by (rewrite E; left).
    apply list_elem_of_filter in Hy as [? ?]. naive_solver.
Qed.

Lemma collected_get icuElements id :
  om_get id (collectAllCustomElementsFromICU icuElements)
  = last (filter (fun el => el_id el = id) (allArgumentElements icuElements)).
Proof.
  unfold collectAllCustomElementsFromICU.
  rewrite collectInto_recordAll, recordAll_get. simpl. by destruct (last _).
Qed.

Lemma collected_NoDup icuElements :
  NoDup (om_keys (collectAllCustomElementsFromICU icuElements)).
Proof.
  unfold collectAllCustomElementsFromICU. rewrite collectInto_recordAll.
  apply recordAll_NoDup. constructor.
Qed.

Lemma collected_entry icuElements id el :
  (id, el) ∈ collectAllCustomElementsFromICU icuElements ->
  el ∈ allArgumentElements icuElements /\ el_id el = id.
Proof.
  intros Hin. apply om_elem_of_get in Hin; [|apply collected_NoDup].
  rewrite collected_get in Hin. by apply last_filter_elem_of in Hin.
Qed.

Lemma collected_has_id icuElements el :
  el ∈ allArgumentElements icuElements ->
  el_id el ∈ om_keys (collectAllCustomElementsFromICU icuElements).
Proof.
  intros Hin. apply om_has_elem_of. unfold om_has. rewrite collected_get.
  destruct (last _) eqn:E; [done|].
  rewrite last_filter_None in E. by destruct (E el Hin).
Qed.

Lemma allArgumentElements_argument icuElements el :
  el ∈ allArgumentElements icuElements -> isArgumentElement el = true.
Proof.
  intros Hin. apply list_elem_of_In, in_flat_map in Hin as (el0 & _ & Hin).
  eapply argumentElementsOf_argument. by apply list_elem_of_In.
Qed.

(** C6: the map returned by [collectAllCustomElementsFromICU] holds exactly
    the argument elements of the list and those nested, recursively, in the
    options of plural formats, keyed on their id: every entry is such an
    element under its own id, every such element has its id in the map, the
    entry of an id is the last element visited with that id, and no id
    appears twice. *)
Theorem collectAllCustomElementsFromICU_exact (icuElements : list MessageElement) :
  let collected := collectAllCustomElementsFromICU icuElements in
  NoDup (om_keys collected)
  /\ (forall id el, (id, el) ∈ collected ->
        el ∈ allArgumentElements icuElements /\ el_id el = id
        /\ isArgumentElement el = true)
  /\ (forall el, el ∈ allArgumentElements icuElements -> el_id el ∈ om_keys collected)
  /\ (forall id, om_get id collected
                 = last (filter (fun el => el_id el = id) (allArgumentElements icuElements))).
Proof.
  intros collected. split_and!.
  - apply collected_NoDup.
  - intros id el [Hin Hid]%collected_entry.
    split_and!; [done.. | by eapply allArgumentElements_argument].
  - apply collected_has_id.
  - apply collected_get.
Qed.

(** ** Loops that may throw *)

Section ForEach.
Context {A S : Type}.

Implicit Types (xs : list A) (body : A -> S -> Result S) (I : S -> Prop).

Lemma forEach_app xs ys body s :
  forEach (xs ++ ys) body s = (s' ← forEach xs body s; forEach ys body s').
Proof.
  revert s. induction xs as [|x xs IH]; intros s; simpl; [done|].
  destruct (body x s) as [s1|e]; simpl; [apply IH | done].
Qed.

Lemma forEach_Ok_inv I xs body s s' :
  I s ->
  (forall x s s', x ∈ xs -> I s -> body x s = Ok s' -> I s') ->
  forEach xs body s = Ok s' -> I s'.
Proof.
  revert s. induction xs as [|x xs IH]; intros s Hs Hstep; simpl.
  - by intros [= <-].
  - destruct (body x s) as [s1|e] eqn:E; simpl; [|done].
    apply IH; [eapply Hstep; [left | done..] |].
    intros y t t' Hy. apply Hstep. by right.
Qed.

Lemma forEach_Throw_inv I xs body s e :
  I s ->
  (forall x s s', x ∈ xs -> I s -> body x s = Ok s' -> I s') ->
  forEach xs body s = Throw e ->
  exists x s0, x ∈ xs /\ I s0 /\ body x s0 = Throw e.
Proof.
  revert s. induction xs as [|x xs IH]; intros s Hs Hstep; simpl; [done|].
  destruct (body x s) as [s1|e'] eqn:E; simpl.
  - intros Hthrow. destruct (IH s1) as (y & s0 & Hy & Hs0 & Hb); [| |done|].
    + eapply Hstep; [left | done..].
    + intros y t t' Hy. apply Hstep. by right.
    + exists y, s0. split_and!; [by right | done..].
  - intros [= <-]. exists x, s. split_and!; [left | done..].
Qed.

Lemma forEach_must_throw I xs body s x0 :
  I s ->
  (forall x s s', x ∈ xs -> I s -> body x s = Ok s' -> I s') ->
  x0 ∈ xs ->
  (forall s, I s -> isOk (body x0 s) = false) ->
  isOk (forEach xs body s) = false.
Proof.
  revert s. induction xs as [|x xs IH]; intros s Hs Hstep Hin Hx0; simpl.
  - by apply elem_of_nil in Hin.
  - destruct (body x s) as [s1|e] eqn:E; simpl; [|done].
    apply elem_of_cons in Hin as [->|Hin].
    + specialize (Hx0 s Hs). by rewrite E in Hx0.
    + apply IH; [eapply Hstep; [left | done..] | | done..].
      intros y t t' Hy. apply Hstep. by right.
Qed.

Lemma forEach_total I xs body s :
  I s ->
  (forall x s, x ∈ xs -> I s -> exists s', body x s = Ok s' /\ I s') ->
  exists s', forEach xs body s = Ok s' /\ I s'.
Proof.
  revert s. induction xs as [|x xs IH]; intros s Hs Hstep; simpl; [by exists s|].
  destruct (Hstep x s) as (s1 & -> & Hs1); [left | done |]. simpl.
  apply IH; [done|]. intros y t Hy. apply Hstep. by right.
Qed.
End ForEach.

(** ** [_preformatValues] *)

Section PreformatFacts.
Context `{JsNumber}.

Implicit Types (values formattedValues : Record) (el : MessageElement).

Lemma set_property_keys {V} k (v : V) (o : list (string * V)) k' :
  k' ∈ om_keys (set_property k v o) -> k' ∈ om_keys o \/ k' = k.
Proof.
  unfold set_property. destruct (String.eqb k "__proto__"); [by left|].
  rewrite om_keys_set. destruct (om_has k o); [by left|].
  rewrite elem_of_app, list_elem_of_singleton. tauto.
Qed.

Lemma set_property_get_ne {V} k (v : V) (o : list (string * V)) k' :
  k <> k' -> om_get k' (set_property k v o) = om_get k' o.
Proof.
  intros Hne. unfold set_property. destruct (String.eqb k "__proto__"); [done|].
  by apply om_get_set_ne.
Qed.

Lemma set_property_get_eq {V} k (v : V) (o : list (string * V)) :
  k <> "__proto__" -> om_get k (set_property k v o) = Some v.
Proof.
  intros Hne%String.eqb_neq. unfold set_property. rewrite Hne. apply om_get_set_eq.
Qed.

Lemma preformatElement_validation values lhlMessage el formattedValues e :
  preformatElement values lhlMessage el formattedValues = Throw e ->
  isValidationError e = true.
Proof.
  unfold preformatElement.
  destruct (negb _ && negb _); [by intros [= <-]|].
  destruct (el_format el) as [[]|]; try done.
  destruct (get_property _ _); try done; by intros [= <-].
Qed.

Lemma checkValueId_validation values lhlMessage valueId formattedValues e :
  checkValueId values lhlMessage valueId formattedValues = Throw e ->
  isValidationError e = true.
Proof.
  unfold checkValueId. destruct (has_property _ _); [done|].
  destruct (String.eqb _ _); [done|]. by intros [= <-].
Qed.

(** Whatever [_preformatValues] throws is a validation error. *)
Lemma preformatValues_validation formatter values lhlMessage e :
  _preformatValues formatter values lhlMessage = Throw e ->
  isValidationError e = true.
Proof.
  unfold _preformatValues.
  destruct (forEach (om_values _) _ _) as [fv|e1] eqn:E1; simpl.
  - intros (x & s0 & _ & _ & Hb)%(forEach_Throw_inv (fun _ => True)); [|done..].
    by eapply checkValueId_validation.
  - intros [= <-].
    apply (forEach_Throw_inv (fun _ => True)) in E1 as (x & s0 & _ & _ & Hb); [|done..].
    by eapply preformatElement_validation.
Qed.

(** The keys of the first loop's result are ids of the elements it went over. *)
Lemma preformatElement_keys values lhlMessage el formattedValues formattedValues' k :
  preformatElement values lhlMessage el formattedValues = Ok formattedValues' ->
  k ∈ om_keys formattedValues' -> k ∈ om_keys formattedValues \/ k = el_id el.
Proof.
  unfold preformatElement.
  destruct (negb _ && negb _); [done|].
  destruct (el_format el) as [[]|]; try (intros [= <-]; apply set_property_keys).
  destruct (get_property _ _); try done. intros [= <-]; apply set_property_keys.
Qed.

Lemma preformatLoop_keys values lhlMessage els formattedValues k :
  forEach els (preformatElement values lhlMessage) [] = Ok formattedValues ->
  k ∈ om_keys formattedValues -> exists el, el ∈ els /\ el_id el = k.
Proof.
  intros Hloop. revert k.
  refine (forEach_Ok_inv
            (fun fv => forall k, k ∈ om_keys fv -> exists el, el ∈ els /\ el_id el = k)
            _ _ _ _ _ _ Hloop); [by intros ? ?%elem_of_nil |].
  intros el fv fv' Hel Hfv Hstep k' Hk'.
  destruct (preformatElement_keys _ _ _ _ _ _ Hstep Hk') as [?| ->]; [by apply Hfv | by exists el].
Qed.


Lemma collected_values_entry icuElements el :
  el ∈ om_values (collectAllCustomElementsFromICU icuElements) ->
  (el_id el, el) ∈ collectAllCustomElementsFromICU icuElements.
Proof.
  unfold om_values. intros ([id el'] & -> & Hin)%list_elem_of_fmap. simpl.
  by destruct (collected_entry _ _ _ Hin) as [_ ->].
Qed.

Lemma collected_values_of_id icuElements el :
  el ∈ allArgumentElements icuElements ->
  exists el', el' ∈ om_values (collectAllCustomElementsFromICU icuElements)
              /\ el_id el' = el_id el.
Proof.
  intros Hin%collected_has_id. unfold om_keys in Hin.
  apply list_elem_of_fmap in Hin as ([id el'] & Hid & Hin). simpl in Hid. subst id.
  exists el'. split.
  - unfold om_values. apply list_elem_of_fmap. by exists (el_id el, el').
  - by destruct (collected_entry _ _ _ Hin).
Qed.


(** A provided key that is no placeholder, not [errorCode] and not a name
    every object has stops the second loop, when the first one came through. *)
Lemma preformatValues_unmatched formatter values lhlMessage valueId :
  valueId ∈ om_keys values ->
  (forall el, el ∈ allArgumentElements (getAst_elements formatter) -> el_id el <> valueId) ->
  valueId <> "errorCode" -> isInherited valueId = false ->
  isOk (_preformatValues formatter values lhlMessage) = false.
Proof.
  intros Hkey Hnone Hne%String.eqb_neq Hinh. unfold _preformatValues.
  destruct (forEach (om_values _) _ _) as [fv|e1] eqn:E1; simpl; [|done].
  apply (forEach_must_throw (fun fv => valueId ∉ om_keys fv) _ _ _ valueId); [| |done|].
  - intros Hin. destruct (preformatLoop_keys _ _ _ _ _ E1 Hin) as (el & Hel & Hid).
    apply collected_values_entry, collected_entry in Hel as [Hel _]. by apply (Hnone el).
  - intros k s s' _ Hs. unfold checkValueId.
    destruct (has_property k s); [by intros [= <-]|].
    destruct (String.eqb k "errorCode") eqn:Ek; [|done].
    intros [= <-]. intros [?|Heq]%set_property_keys; [done|].
    apply String.eqb_neq in Hne. by subst.
  - intros s Hs. unfold checkValueId, has_property.
    apply om_get_None_keys in Hs. unfold om_has. by rewrite Hs, Hinh, Hne.
Qed.
End PreformatFacts.

(** ** [_formatMessage]: validation *)

Section FormatMessageValidation.
Context `{JsNumber} `{!Host}.

Lemma formatMessage_preformat_throws message values locale formatter :
  MessageFormat message (localeForMessageFormat locale) formats = Ok formatter ->
  isOk (_preformatValues formatter (default [] values) message) = false ->
  exists e, _formatMessage message values locale = Throw e /\ isValidationError e = true.
Proof.
  intros Hparse Hpre. unfold _formatMessage. rewrite Hparse. simpl.
  destruct (_preformatValues _ _ _) as [r|e] eqn:E; [done|].
  exists e. split; [done | by eapply preformatValues_validation].
Qed.


(** C4, amended: when the values record has a key that matches no argument
    placeholder of the template, is not [errorCode] and is not a name every
    object inherits, [_formatMessage] throws a validation error. *)
Theorem formatMessage_unmatched_value
    (message : string) (values : option Record) (locale : string)
    (formatter : Formatter) (valueId : string) :
  MessageFormat message (localeForMessageFormat locale) formats = Ok formatter ->
  valueId ∈ om_keys (default [] values) ->
  (forall el, el ∈ allArgumentElements (getAst_elements formatter) -> el_id el <> valueId) ->
  valueId <> "errorCode" ->
  isInherited valueId = false ->
  exists e, _formatMessage message values locale = Throw e /\ isValidationError e = true.
Proof.
  intros Hparse Hkey Hnone Hne Hinh.
  eapply formatMessage_preformat_throws; [done|].
  by eapply preformatValues_unmatched.
Qed.
End FormatMessageValidation.

(** ** [_preformatValues]: what it returns *)

Lemma forEach_Ok_each {A S} (R : A -> S -> Prop) (xs : list A)
    (body : A -> S -> Result S) (s s' : S) :
  (forall x s s', body x s = Ok s' -> R x s') ->
  (forall x y s s', R x s -> body y s = Ok s' -> R x s') ->
  forEach xs body s = Ok s' ->
  forall x, x ∈ xs -> R x s'.
Proof.
  intros Hnew Hkeep. revert s. induction xs as [|y xs IH]; intros s; simpl.
  - by intros _ x ?%elem_of_nil.
  - destruct (body y s) as [s1|e] eqn:E; simpl; [|done].
    intros Hloop x [->|Hin]%elem_of_cons; [|by eapply IH].
    apply (forEach_Ok_inv (R y) _ _ _ _ (Hnew _ _ _ E)) in Hloop; [done|].
    intros z t t' _. apply Hkeep.
Qed.

Section PreformatResultFacts.
Context `{JsNumber}.

Implicit Types (values formattedValues : Record) (el : MessageElement).

Lemma set_property_has {V} k (v : V) (o : list (string * V)) :
  om_has k (set_property k v o) || isInherited k = true.
Proof.
  unfold set_property. destruct (String.eqb k "__proto__") eqn:E.
  - apply String.eqb_eq in E. subst. by rewrite orb_true_r.
  - unfold om_has. by rewrite om_get_set_eq.
Qed.

Lemma set_property_has_mono {V} k k' (v : V) (o : list (string * V)) :
  om_has k o || isInherited k = true ->
  om_has k (set_property k' v o) || isInherited k = true.
Proof.
  destruct (decide (k' = k)) as [->|Hne]; [intros _; apply set_property_has|].
  unfold om_has. by rewrite set_property_get_ne.
Qed.

Lemma preformatElement_has values lhlMessage el formattedValues formattedValues' :
  preformatElement values lhlMessage el formattedValues = Ok formattedValues' ->
  has_property (el_id el) formattedValues' = true.
Proof.
  unfold preformatElement, has_property.
  destruct (negb _ && negb _); [done|].
  destruct (el_format el) as [[]|]; try (intros [= <-]; apply set_property_has).
  destruct (get_property _ _); try done. intros [= <-]; apply set_property_has.
Qed.

Lemma preformatElement_has_mono values lhlMessage el formattedValues formattedValues' k :
  has_property k formattedValues = true ->
  preformatElement values lhlMessage el formattedValues = Ok formattedValues' ->
  has_property k formattedValues' = true.
Proof.
  unfold preformatElement, has_property. intros Hk.
  destruct (negb _ && negb _); [done|].
  destruct (el_format el) as [[]|]; try (intros [= <-]; by apply set_property_has_mono).
  destruct (get_property _ _); try done. intros [= <-]; by apply set_property_has_mono.
Qed.

Lemma preformatElement_get_ne values lhlMessage el formattedValues formattedValues' k :
  el_id el <> k ->
  preformatElement values lhlMessage el formattedValues = Ok formattedValues' ->
  om_get k formattedValues' = om_get k formattedValues.
Proof.
  unfold preformatElement. intros Hk.
  destruct (negb _ && negb _); [done|].
  destruct (el_format el) as [[]|]; try (intros [= <-]; by apply set_property_get_ne).
  destruct (get_property _ _); try done. intros [= <-]; by apply set_property_get_ne.
Qed.

Lemma preformatElement_provided values lhlMessage el formattedValues :
  elementProvided values el ->
  isOk (preformatElement values lhlMessage el formattedValues) = true.
Proof.
  intros [Hhas Hnum]. unfold preformatElement.
  assert (negb (String.eqb (el_id el) "") && negb (has_property (el_id el) values) = false) as ->.
  { destruct Hhas as [->| ->]; [done | by rewrite andb_false_r]. }
  destruct (el_format el) as [[style| | | |]|]; try done.
  by destruct (Hnum style eq_refl) as [v ->].
Qed.

Lemma checkValueId_has values lhlMessage valueId formattedValues formattedValues' :
  checkValueId values lhlMessage valueId formattedValues = Ok formattedValues' ->
  has_property valueId formattedValues' = true.
Proof.
  unfold checkValueId. destruct (has_property valueId formattedValues) eqn:E.
  - by intros [= <-].
  - destruct (String.eqb valueId "errorCode") eqn:Ek; [|done].
    apply String.eqb_eq in Ek. subst. intros [= <-]. apply set_property_has.
Qed.

Lemma checkValueId_has_mono values lhlMessage valueId formattedValues formattedValues' k :
  has_property k formattedValues = true ->
  checkValueId values lhlMessage valueId formattedValues = Ok formattedValues' ->
  has_property k formattedValues' = true.
Proof.
  unfold checkValueId. intros Hk. destruct (has_property valueId formattedValues).
  - by intros [= <-].
  - destruct (String.eqb valueId "errorCode"); [|done].
    intros [= <-]. by apply set_property_has_mono.
Qed.

(** The second loop leaves every property but [errorCode] as it is, and
    gives [errorCode] the provided value, when it sets it. *)
Lemma checkValueId_get values lhlMessage valueId formattedValues formattedValues' k :
  checkValueId values lhlMessage valueId formattedValues = Ok formattedValues' ->
  om_get k formattedValues' = om_get k formattedValues
  \/ (k = "errorCode" /\ has_property k formattedValues = false
      /\ om_get k formattedValues' = Some (get_property "errorCode" values)).
Proof.
  unfold checkValueId. destruct (has_property valueId formattedValues) eqn:E.
  - intros [= <-]. by left.
  - destruct (String.eqb valueId "errorCode") eqn:Ek; [|done].
    apply String.eqb_eq in Ek. subst. intros [= <-].
    destruct (decide (k = "errorCode")) as [->|Hne].
    + right. split_and!; [done..|]. by apply set_property_get_eq.
    + left. by apply set_property_get_ne.
Qed.

(** When every element of the map passes the checks and every provided key
    is a placeholder, [errorCode] or an inherited name, nothing is thrown. *)
Lemma preformatValues_total formatter values lhlMessage :
  (forall el, el ∈ om_values (collectAllCustomElementsFromICU (getAst_elements formatter)) ->
              elementProvided values el) ->
  (forall k, k ∈ om_keys values ->
             k = "errorCode" \/ isInherited k = true
             \/ exists el, el ∈ allArgumentElements (getAst_elements formatter) /\ el_id el = k) ->
  isOk (_preformatValues formatter values lhlMessage) = true.
Proof.
  intros Hprov Hkeys. unfold _preformatValues.
  destruct (forEach_total (fun _ => True)
              (om_values (collectAllCustomElementsFromICU (getAst_elements formatter)))
              (preformatElement values lhlMessage) []) as (fv & Hfv & _); [done | |].
  { intros el s Hel _.
    pose proof (preformatElement_provided values lhlMessage el s (Hprov el Hel)) as Hok.
    destruct (preformatElement _ _ _ _) as [s'|]; [by exists s' | done]. }
  rewrite Hfv. simpl.
  pose proof (forEach_Ok_each (fun el fv => has_property (el_id el) fv = true) _ _ _ _
                (preformatElement_has values lhlMessage)
                (fun x y s s' => preformatElement_has_mono values lhlMessage y s s' (el_id x))
                Hfv) as Hids.
  destruct (forEach_total
              (fun fv => forall el, el ∈ allArgumentElements (getAst_elements formatter) ->
                                    has_property (el_id el) fv = true)
              (om_keys values) (checkValueId values lhlMessage) fv) as (r & -> & _); [| |done].
  { intros el (el' & Hel' & <-)%collected_values_of_id. by apply Hids. }
  intros k s Hk Hs. unfold checkValueId.
  destruct (has_property k s) eqn:E; [by exists s|].
  destruct (String.eqb k "errorCode") eqn:Ek.
  - eexists. split; [done|]. intros el Hel. unfold has_property.
    apply set_property_has_mono. by apply Hs.
  - apply String.eqb_neq in Ek.
    destruct (Hkeys k Hk) as [?|[Hinh|(el & Hel & <-)]]; [done | |].
    + unfold has_property in E. by rewrite Hinh, orb_true_r in E.
    + by rewrite (Hs el Hel) in E.
Qed.
End PreformatResultFacts.

Section PreformatClaims.
Context `{JsNumber}.

Implicit Types (values : Record) (el : MessageElement).

Lemma collected_keys_ids icuElements :
  om_keys (collectAllCustomElementsFromICU icuElements)
  = el_id <$> om_values (collectAllCustomElementsFromICU icuElements).
Proof.
  pose proof (collected_entry icuElements) as Hentry.
  unfold om_keys, om_values.
  induction (collectAllCustomElementsFromICU icuElements) as [|[k el] m IH]; [done|].
  simpl. rewrite IH.
  - f_equal. symmetry. apply (Hentry k el). left.
  - intros id el' Hin. apply Hentry. by right.
Qed.

Lemma preformatNumber_cases id style v :
  let w := preformatNumber id style v in
  (style = Some "milliseconds" ->
     w = num_mul (Math_round (num_div v (num_lit 10))) (num_lit 10))
  /\ (style = Some "seconds" -> id = "timeInMs" ->
        w = num_div (Math_round (num_div v (num_lit 100))) (num_lit 10))
  /\ (style = Some "bytes" -> w = num_div v (num_lit 1024))
  /\ (style <> Some "milliseconds" -> ~ (style = Some "seconds" /\ id = "timeInMs") ->
      style <> Some "bytes" -> w = v).
Proof.
  unfold preformatNumber. split_and!.
  - intros ->. by rewrite bool_decide_eq_true_2.
  - intros -> ->. by rewrite bool_decide_eq_false_2.
  - intros ->. rewrite bool_decide_eq_false_2 by done.
    by rewrite (bool_decide_eq_false_2 (Some "bytes" = Some "seconds")) by done.
  - intros Hms Hs Hb. rewrite (bool_decide_eq_false_2 _ Hms), (bool_decide_eq_false_2 _ Hb).
    destruct (bool_decide (style = Some "seconds")) eqn:E1; [|done].
    destruct (String.eqb id "timeInMs") eqn:E2; [|done].
    apply bool_decide_eq_true in E1. apply String.eqb_eq in E2. tauto.
Qed.

(** The value the first loop stores for the element the map keeps under
    [id] is still there at the end. *)
Lemma preformatValues_number formatter values lhlMessage id style r :
  om_get id (collectAllCustomElementsFromICU (getAst_elements formatter))
    = Some (argumentElement id (Some (numberFormat style))) ->
  id <> "__proto__" ->
  _preformatValues formatter values lhlMessage = Ok r ->
  exists v, get_property id values = VNumber v
            /\ om_get id r = Some (VNumber (preformatNumber id style v)).
Proof.
  intros Hget Hproto. unfold _preformatValues.
  pose proof (collected_NoDup (getAst_elements formatter)) as Hnd.
  rewrite collected_keys_ids in Hnd.
  apply om_get_elem_of in Hget.
  assert (argumentElement id (Some (numberFormat style))
            ∈ om_values (collectAllCustomElementsFromICU (getAst_elements formatter))) as Hin.
  { unfold om_values. apply list_elem_of_fmap. by eexists (_, _). }
  apply list_elem_of_split in Hin as (l1 & l2 & Hsplit). rewrite Hsplit in *.
  rewrite fmap_app, fmap_cons in Hnd. simpl in Hnd.
  apply NoDup_app in Hnd as (_ & _ & [Hl2 _]%NoDup_cons).
  rewrite forEach_app. simpl.
  destruct (forEach l1 _ _) as [s1|]; [simpl|done].
  destruct (preformatElement values lhlMessage _ s1) as [s2|] eqn:E0; [simpl|done].
  unfold preformatElement in E0. simpl in E0.
  destruct (negb _ && negb _); [done|].
  destruct (get_property id values) as [| | |v| | | |] eqn:Ev; try done.
  injection E0 as <-.
  destruct (forEach l2 _ _) as [fv|] eqn:E2; [simpl|done].
  intros Hloop. exists v. split; [done|].
  apply (forEach_Ok_inv
           (fun s => om_get id s = Some (VNumber (preformatNumber id style v)))) in E2.
  - apply (forEach_Ok_inv
             (fun s => om_get id s = Some (VNumber (preformatNumber id style v)))) in Hloop;
      [done..|].
    intros k s s' _ Hs Hstep.
    destruct (checkValueId_get _ _ _ _ _ id Hstep) as [-> | (_ & Hhas & _)]; [done|].
    unfold has_property, om_has in Hhas. by rewrite Hs in Hhas.
  - by apply set_property_get_eq.
  - intros el s s' Hel Hs Hstep.
    rewrite (preformatElement_get_ne values lhlMessage el s s' id); [done | | done].
    intros Heq. apply Hl2, list_elem_of_fmap. by exists el.
Qed.

(** C1, amended: for the number placeholder that the map of
    [collectAllCustomElementsFromICU] keeps under [id] (the last one visited
    with that id), whenever [_preformatValues] returns a record the provided
    value is a number [v] and the record holds under [id] the value
    converted by the style: [round(v/10)*10] for [milliseconds],
    [round(v/100)/10] for [seconds] under the id [timeInMs], [v/1024] for
    [bytes], and [v] otherwise; and [_preformatValues] does return a record
    when every kept placeholder has its value, a number for a number
    format, and every provided key is a placeholder, [errorCode] or a name
    every object inherits. *)
Theorem preformatValues_number_conversion
    (formatter : Formatter) (values : Record) (lhlMessage id : string)
    (style : option string) :
  om_get id (collectAllCustomElementsFromICU (getAst_elements formatter))
    = Some (argumentElement id (Some (numberFormat style))) ->
  id <> "__proto__" ->
  (forall r, _preformatValues formatter values lhlMessage = Ok r ->
     exists v w,
       get_property id values = VNumber v /\ om_get id r = Some (VNumber w)
       /\ (style = Some "milliseconds" ->
             w = num_mul (Math_round (num_div v (num_lit 10))) (num_lit 10))
       /\ (style = Some "seconds" -> id = "timeInMs" ->
             w = num_div (Math_round (num_div v (num_lit 100))) (num_lit 10))
       /\ (style = Some "bytes" -> w = num_div v (num_lit 1024))
       /\ (style <> Some "milliseconds" -> ~ (style = Some "seconds" /\ id = "timeInMs") ->
           style <> Some "bytes" -> w = v))
  /\ ((forall el,
         el ∈ om_values (collectAllCustomElementsFromICU (getAst_elements formatter)) ->
         elementProvided values el) ->
      (forall k, k ∈ om_keys values ->
         k = "errorCode" \/ isInherited k = true
         \/ exists el, el ∈ allArgumentElements (getAst_elements formatter) /\ el_id el = k) ->
      exists r, _preformatValues formatter values lhlMessage = Ok r).
Proof.
  intros Hget Hproto. split.
  - intros r Hr.
    destruct (preformatValues_number _ _ _ _ _ _ Hget Hproto Hr) as (v & Hv & Hw).
    exists v, (preformatNumber id style v).
    split; [done|]. split; [done|]. apply preformatNumber_cases.
  - intros Hprov Hkeys.
    pose proof (preformatValues_total formatter values lhlMessage Hprov Hkeys) as Hok.
    destruct (_preformatValues _ _ _) as [r|]; [by exists r | done].
Qed.

(** C10, amended: the key [errorCode] never makes [_preformatValues] throw
    the unmatched-value error; and for a template without an [errorCode]
    placeholder and a values record that has the key [errorCode], whose
    other keys all match placeholders, and that gives every kept placeholder
    its value (a number for a number format), [_preformatValues] returns a
    record that holds the provided [errorCode] value. *)
Theorem preformatValues_errorCode
    (formatter : Formatter) (values : Record) (lhlMessage : string) (v : value) :
  (forall e lhl, _preformatValues formatter values lhlMessage = Throw e ->
                 e <> UnmatchedValue "errorCode" lhl)
  /\ (om_get "errorCode" values = Some v ->
      (forall el, el ∈ allArgumentElements (getAst_elements formatter) ->
                  el_id el <> "errorCode") ->
      (forall k, k ∈ om_keys values -> k <> "errorCode" ->
         exists el, el ∈ allArgumentElements (getAst_elements formatter) /\ el_id el = k) ->
      (forall el,
         el ∈ om_values (collectAllCustomElementsFromICU (getAst_elements formatter)) ->
         elementProvided values el) ->
      exists r, _preformatValues formatter values lhlMessage = Ok r
                /\ om_get "errorCode" r = Some v).
Proof.
  split.
  - intros e lhl. unfold _preformatValues.
    destruct (forEach (om_values _) _ _) as [fv|e1] eqn:E1; simpl.
    + intros (k & s0 & _ & _ & Hb)%(forEach_Throw_inv (fun _ => True)); [|done..].
      unfold checkValueId in Hb. destruct (has_property k s0); [done|].
      destruct (String.eqb k "errorCode") eqn:Ek; [done|].
      injection Hb as <-. intros [= -> _]. done.
    + intros [= <-].
      apply (forEach_Throw_inv (fun _ => True)) in E1 as (x & s0 & _ & _ & Hb); [|done..].
      unfold preformatElement in Hb.
      destruct (negb _ && negb _); [by injection Hb as <-|].
      destruct (el_format x) as [[]|]; try done.
      destruct (get_property _ _); try done; by injection Hb as <-.
  - intros Hv Hnone Hkeys Hprov.
    assert (isOk (_preformatValues formatter values lhlMessage) = true) as Hok.
    { apply preformatValues_total; [done|]. intros k Hk.
      destruct (decide (k = "errorCode")); [by left | right; right; by apply Hkeys]. }
    destruct (_preformatValues formatter values lhlMessage) as [r|] eqn:Hr; [|done].
    exists r. split; [done|]. unfold _preformatValues in Hr.
    destruct (forEach (om_values _) _ _) as [fv|] eqn:E1; [simpl in Hr|done].
    assert (om_get "errorCode" fv = None) as Hfv.
    { apply om_get_None_keys. intros Hin.
      destruct (preformatLoop_keys _ _ _ _ _ E1 Hin) as (el & Hel & Hid).
      apply collected_values_entry, collected_entry in Hel as [Hel _]. by apply (Hnone el). }
    assert (has_property "errorCode" r = true) as Hhas.
    { refine (forEach_Ok_each (fun k s => has_property k s = true) _ _ _ _
                (checkValueId_has values lhlMessage)
                (fun x y s s' => checkValueId_has_mono values lhlMessage y s s' x)
                Hr "errorCode" _).
      apply om_has_elem_of. unfold om_has. by rewrite Hv. }
    apply (forEach_Ok_inv
             (fun s => om_get "errorCode" s = None \/ om_get "errorCode" s = Some v)) in Hr.
    + destruct Hr as [Hr|Hr]; [|done].
      unfold has_property, om_has in Hhas. by rewrite Hr in Hhas.
    + by left.
    + intros k s s' _ Hs Hstep.
      destruct (checkValueId_get _ _ _ _ _ "errorCode" Hstep) as [-> | (_ & _ & ->)]; [done|].
      right. unfold get_property. by rewrite Hv.
Qed.
End PreformatClaims.

(** ** [getFormatted] *)

Section GetFormattedFacts.
Context `{JsNumber} `{!Host}.

(** What [isIcuMessage] checks: an object with a string [i18nId] that
    passes the test of [MESSAGE_I18N_ID_REGEX], a string
    [formattedDefault], and [values] absent or an
    object. *)
Lemma isIcuMessage_fields (v : value) :
  isIcuMessage v = true ->
  exists props id text,
    v = VObject props
    /\ prop "i18nId" v = VString id /\ MESSAGE_I18N_ID_REGEX_test id = true
    /\ prop "formattedDefault" v = VString text
    /\ (prop "values" v = VUndefined \/ exists r, prop "values" v = VObject r).
Proof.
  unfold isIcuMessage. destruct v as [| | | | | |props|]; try done.
  simpl. set (i := get_property "i18nId" props). set (d := get_property "formattedDefault" props).
  set (vs := get_property "values" props).
  destruct i as [| | | |id| | |]; try done.
  destruct d as [| | | |text| | |]; try done. simpl.
  intros Hrest. exists props, id, text. split_and!; try done.
  - destruct vs; simpl in Hrest; try done.
    by destruct (existsb _ _).
  - destruct vs as [| | | | | |r|]; simpl in Hrest; try done; [by left | right; by exists r].
Qed.

(** [getFormatted] reads the module state and leaves it as it is. *)
Lemma getFormatted_store (v : value) (locale : string) (LOCALE_MESSAGES : Store) :
  snd (getFormatted v locale LOCALE_MESSAGES) = LOCALE_MESSAGES.
Proof.
  unfold getFormatted, _localizeIcuMessage, readLocale, mbind, Op_bind, mret, Op_ret, throw, pure.
  destruct (isIcuMessage v).
  - destruct (localeTable LOCALE_MESSAGES locale) as [localeMessages|]; [|done].
    by destruct (om_get _ localeMessages).
  - by destruct v.
Qed.

(** C5: for a value that is an [LH.IcuMessage] whose [i18nId] has a message
    in the table of the locale, [getFormatted] returns what [_formatMessage]
    gives for the template of the locale and the values of the message; for
    a string it returns the string. *)
Theorem getFormatted_localized
    (icuMessage : value) (locale : string) (LOCALE_MESSAGES : Store)
    (localeMessages : LhlMessages) (localeMessage : LocaleMessage) :
  (isIcuMessage icuMessage = true ->
   LOCALE_MESSAGES !! locale = Some localeMessages ->
   om_get (i18nId (asIcuMessage icuMessage)) localeMessages = Some localeMessage ->
   getFormatted icuMessage locale LOCALE_MESSAGES
     = (_formatMessage (message localeMessage) (values (asIcuMessage icuMessage)) locale,
        LOCALE_MESSAGES))
  /\ (forall s : string,
        getFormatted (VString s) locale LOCALE_MESSAGES = (Ok s, LOCALE_MESSAGES)).
Proof.
  split; [|done]. intros Hicu Hlocale Hmessage.
  unfold getFormatted, _localizeIcuMessage, readLocale, localeTable, mbind, Op_bind, pure.
  by rewrite Hicu, Hlocale, Hmessage.
Qed.

(** C9: for a value that is an [LH.IcuMessage] and a locale with a table
    that has no entry for its [i18nId], [getFormatted] returns the
    [formattedDefault] of the message and throws nothing. *)
Theorem getFormatted_default
    (icuMessage : value) (locale : string) (LOCALE_MESSAGES : Store)
    (localeMessages : LhlMessages) :
  isIcuMessage icuMessage = true ->
  LOCALE_MESSAGES !! locale = Some localeMessages ->
  om_get (i18nId (asIcuMessage icuMessage)) localeMessages = None ->
  exists text,
    prop "formattedDefault" icuMessage = VString text
    /\ getFormatted icuMessage locale LOCALE_MESSAGES = (Ok text, LOCALE_MESSAGES).
Proof.
  intros Hicu Hlocale Hmessage.
  destruct (isIcuMessage_fields _ Hicu) as (props & id & text & -> & _ & _ & Htext & _).
  exists text. split; [done|].
  unfold getFormatted, _localizeIcuMessage, readLocale, localeTable, mbind, Op_bind, mret, Op_ret.
  rewrite Hicu, Hlocale, Hmessage. unfold asIcuMessage. simpl in *. by rewrite Htext.
Qed.
End GetFormattedFacts.

(** ** [replaceIcuMessages] *)

Section ValueInduction.
Context `{JsNumber}.

Variable P : value -> Prop.

Hypothesis Hatom : forall v, Array_isArray v = false ->
  (forall props, v <> VObject props) -> P v.

Hypothesis Harray : forall items, Forall P items -> P (VArray items).

Hypothesis Hobject : forall props, Forall (fun kx => P kx.2) props -> P (VObject props).

Lemma value_nested_ind : forall v, P v.
Proof.
  fix IH 1. intros [| | | | |items|props|]; try (by apply Hatom).
  - apply Harray. induction items as [|x items IHitems]; constructor; [apply IH | done].
  - apply Hobject. induction props as [|[k x] props IHprops]; constructor; [apply IH | done].
Qed.
End ValueInduction.

Section ReplaceFacts.
Context `{JsNumber} `{!Host}.

Variables (locale : string) (LOCALE_MESSAGES : Store).

#[local] Abbreviation text := (formattedText locale LOCALE_MESSAGES).

#[local] Abbreviation ok := (locationOk locale LOCALE_MESSAGES).

#[local] Abbreviation record := (recordLocation pathText).

Lemma replaceInObject_object props pathInLHR icuMessagePaths st :
  replaceInObject locale (VObject props) pathInLHR icuMessagePaths st
  = let '(props', icuMessagePaths, st, c) :=
      walkProps (fun property x =>
                   visitProperty locale pathInLHR property x
                     (replaceInObject locale x (pathInLHR ++ [property])))
        props icuMessagePaths st in
    (VObject props', icuMessagePaths, st, c).
Proof. reflexivity. Qed.

Lemma replaceInObject_array items pathInLHR icuMessagePaths st :
  replaceInObject locale (VArray items) pathInLHR icuMessagePaths st
  = let '(items', icuMessagePaths, st, c) :=
      walkItems (fun property x =>
                   visitProperty locale pathInLHR property x
                     (replaceInObject locale x (pathInLHR ++ [property])))
        0 items icuMessagePaths st in
    (VArray items', icuMessagePaths, st, c).
Proof. reflexivity. Qed.

Lemma replaceInObject_atom v pathInLHR icuMessagePaths st :
  Array_isArray v = false -> (forall props, v <> VObject props) ->
  replaceInObject locale v pathInLHR icuMessagePaths st = (v, icuMessagePaths, st, Ok tt).
Proof. intros Harr Hobj. destruct v; try done. by destruct (Hobj props). Qed.

Lemma visitProperty_message pathInLHR property x recurse icuMessagePaths :
  isIcuMessage x = true -> ok (pathInLHR ++ [property], x) = true ->
  visitProperty locale pathInLHR property x recurse icuMessagePaths LOCALE_MESSAGES
  = (VString (text x), record icuMessagePaths (pathInLHR ++ [property], x),
     LOCALE_MESSAGES, Ok tt).
Proof.
  intros Hicu [Hfmt Hpath]%andb_true_iff. simpl in Hfmt, Hpath.
  unfold visitProperty, formattedText, recordLocation, pathEntry, pathText. rewrite Hicu.
  pose proof (getFormatted_store x locale LOCALE_MESSAGES) as Hst.
  destruct (getFormatted x locale LOCALE_MESSAGES) as [[s|e] st]; [|done].
  simpl in Hst. subst st. simpl.
  by destruct (_formatPathAsString (pathInLHR ++ [property])).
Qed.

Lemma visitProperty_other pathInLHR property x recurse icuMessagePaths st :
  isIcuMessage x = false ->
  visitProperty locale pathInLHR property x recurse icuMessagePaths st
  = recurse icuMessagePaths st.
Proof. intros Hicu. unfold visitProperty. by rewrite Hicu. Qed.

(** When every message formats and every path to a message can be written,
    the walk replaces each message and records each location. *)
Lemma replaceInObject_ok (v : value) :
  forall pathInLHR icuMessagePaths,
    forallb ok (icuLocations v pathInLHR) = true ->
    replaceInObject locale v pathInLHR icuMessagePaths LOCALE_MESSAGES
    = (localized text v, fold_left record (icuLocations v pathInLHR) icuMessagePaths,
       LOCALE_MESSAGES, Ok tt).
Proof.
  induction v as [v Harr Hobj | items IH | props IH] using value_nested_ind;
    intros pathInLHR icuMessagePaths Hok.
  - rewrite replaceInObject_atom by done. destruct v; try done. by destruct (Hobj props).
  - rewrite replaceInObject_array. simpl in Hok |- *.
    revert icuMessagePaths Hok. generalize 0 as i.
    induction IH as [|x items Hx _ IHitems]; intros i icuMessagePaths Hok; simpl; [done|].
    simpl in Hok. rewrite forallb_app in Hok. apply andb_true_iff in Hok as [Hhere Hrest].
    destruct (isIcuMessage x) eqn:Hicu.
    + simpl in Hhere. rewrite andb_true_r in Hhere.
      rewrite visitProperty_message by done.
      specialize (IHitems (S i) (record icuMessagePaths (pathInLHR ++ [indexKey i], x)) Hrest).
      destruct (walkItems _ _ _ _ _) as [[[items' paths'] st'] c'].
      injection IHitems as Hitems -> -> ->. by rewrite <- Hitems.
    + rewrite visitProperty_other, Hx by done. rewrite fold_left_app.
      specialize (IHitems (S i) (fold_left record (icuLocations x (pathInLHR ++ [indexKey i]))
                                   icuMessagePaths) Hrest).
      destruct (walkItems _ _ _ _ _) as [[[items' paths'] st'] c'].
      injection IHitems as Hitems -> -> ->. by rewrite <- Hitems.
  - rewrite replaceInObject_object. simpl in Hok |- *.
    revert icuMessagePaths Hok.
    induction IH as [|[k x] props Hx _ IHprops]; intros icuMessagePaths Hok; simpl; [done|].
    simpl in Hok, Hx. rewrite forallb_app in Hok. apply andb_true_iff in Hok as [Hhere Hrest].
    destruct (isIcuMessage x) eqn:Hicu.
    + simpl in Hhere. rewrite andb_true_r in Hhere.
      rewrite visitProperty_message by done.
      specialize (IHprops (record icuMessagePaths (pathInLHR ++ [k], x)) Hrest).
      destruct (walkProps _ _ _ _) as [[[props' paths'] st'] c'].
      injection IHprops as Hprops -> -> ->. by rewrite <- Hprops.
    + rewrite visitProperty_other, Hx by done. rewrite fold_left_app.
      specialize (IHprops (fold_left record (icuLocations x (pathInLHR ++ [k]))
                             icuMessagePaths) Hrest).
      destruct (walkProps _ _ _ _) as [[[props' paths'] st'] c'].
      injection IHprops as Hprops -> -> ->. by rewrite <- Hprops.
Qed.
End ReplaceFacts.

Section ReplaceOutcome.
Context `{JsNumber} `{!Host}.

Variables (locale : string) (LOCALE_MESSAGES : Store).

#[local] Abbreviation ok := (locationOk locale LOCALE_MESSAGES).

#[local] Abbreviation record := (recordLocation pathText).

Lemma visitProperty_message_throws pathInLHR property x recurse icuMessagePaths :
  isIcuMessage x = true -> ok (pathInLHR ++ [property], x) = false ->
  exists v' paths' e,
    visitProperty locale pathInLHR property x recurse icuMessagePaths LOCALE_MESSAGES
    = (v', paths', LOCALE_MESSAGES, Throw e).
Proof.
  intros Hicu Hok. unfold locationOk in Hok. simpl in Hok.
  unfold visitProperty. rewrite Hicu.
  pose proof (getFormatted_store x locale LOCALE_MESSAGES) as Hst.
  destruct (getFormatted x locale LOCALE_MESSAGES) as [[s|e] st]; simpl in Hst; subst st.
  - simpl in Hok. destruct (_formatPathAsString (pathInLHR ++ [property])); [done|].
    by eexists _, _, _.
  - by eexists _, _, _.
Qed.

(** When some message does not format, or the path to it cannot be
    written, the walk leaves by an exception. *)
Lemma replaceInObject_throws (v : value) :
  forall pathInLHR icuMessagePaths,
    forallb ok (icuLocations v pathInLHR) = false ->
    exists v' paths' e,
      replaceInObject locale v pathInLHR icuMessagePaths LOCALE_MESSAGES
      = (v', paths', LOCALE_MESSAGES, Throw e).
Proof.
  induction v as [v Harr Hobj | items IH | props IH] using value_nested_ind;
    intros pathInLHR icuMessagePaths Hok.
  - destruct v; try done. by destruct (Hobj props).
  - rewrite replaceInObject_array. simpl in Hok.
    enough (exists items' paths' e,
              walkItems (fun property x =>
                           visitProperty locale pathInLHR property x
                             (replaceInObject locale x (pathInLHR ++ [property])))
                0 items icuMessagePaths LOCALE_MESSAGES
              = (items', paths', LOCALE_MESSAGES, Throw e)) as (items' & paths' & e & ->)
      by (by eexists _, _, _).
    revert icuMessagePaths Hok. generalize 0 as i.
    induction IH as [|x items Hx _ IHitems]; intros i icuMessagePaths Hok; simpl; [done|].
    simpl in Hok. rewrite forallb_app in Hok.
    destruct (isIcuMessage x) eqn:Hicu.
    + simpl in Hok. rewrite andb_true_r in Hok.
      destruct (ok (pathInLHR ++ [indexKey i], x)) eqn:Hhere.
      * rewrite (visitProperty_message locale LOCALE_MESSAGES) by done.
        destruct (IHitems (S i) (record icuMessagePaths (pathInLHR ++ [indexKey i], x)) Hok)
          as (items' & paths' & e & ->). by eexists _, _, _.
      * destruct (visitProperty_message_throws pathInLHR (indexKey i) x
                    (replaceInObject locale x (pathInLHR ++ [indexKey i]))
                    icuMessagePaths Hicu Hhere) as (v' & paths' & e & ->).
        by eexists _, _, _.
    + rewrite visitProperty_other by done.
      destruct (forallb ok (icuLocations x (pathInLHR ++ [indexKey i]))) eqn:Hhere.
      * rewrite (replaceInObject_ok locale LOCALE_MESSAGES) by done.
        destruct (IHitems (S i) (fold_left record (icuLocations x (pathInLHR ++ [indexKey i]))
                                   icuMessagePaths) Hok)
          as (items' & paths' & e & ->). by eexists _, _, _.
      * destruct (Hx (pathInLHR ++ [indexKey i]) icuMessagePaths Hhere)
          as (v' & paths' & e & ->). by eexists _, _, _.
  - rewrite replaceInObject_object. simpl in Hok.
    enough (exists props' paths' e,
              walkProps (fun property x =>
                           visitProperty locale pathInLHR property x
                             (replaceInObject locale x (pathInLHR ++ [property])))
                props icuMessagePaths LOCALE_MESSAGES
              = (props', paths', LOCALE_MESSAGES, Throw e)) as (props' & paths' & e & ->)
      by (by eexists _, _, _).
    revert icuMessagePaths Hok.
    induction IH as [|[k x] props Hx _ IHprops]; intros icuMessagePaths Hok; simpl; [done|].
    simpl in Hok, Hx. rewrite forallb_app in Hok.
    destruct (isIcuMessage x) eqn:Hicu.
    + simpl in Hok. rewrite andb_true_r in Hok.
      destruct (ok (pathInLHR ++ [k], x)) eqn:Hhere.
      * rewrite (visitProperty_message locale LOCALE_MESSAGES) by done.
        destruct (IHprops (record icuMessagePaths (pathInLHR ++ [k], x)) Hok)
          as (props' & paths' & e & ->). by eexists _, _, _.
      * destruct (visitProperty_message_throws pathInLHR k x
                    (replaceInObject locale x (pathInLHR ++ [k]))
                    icuMessagePaths Hicu Hhere) as (v' & paths' & e & ->).
        by eexists _, _, _.
    + rewrite visitProperty_other by done.
      destruct (forallb ok (icuLocations x (pathInLHR ++ [k]))) eqn:Hhere.
      * rewrite (replaceInObject_ok locale LOCALE_MESSAGES) by done.
        destruct (IHprops (fold_left record (icuLocations x (pathInLHR ++ [k]))
                             icuMessagePaths) Hok)
          as (props' & paths' & e & ->). by eexists _, _, _.
      * destruct (Hx (pathInLHR ++ [k]) icuMessagePaths Hhere)
          as (v' & paths' & e & ->). by eexists _, _, _.
Qed.

(** The entries under an id after recording a list of locations. *)
Lemma recorded_lookup (locations : list (list string * value)) :
  forall (icuMessagePaths : IcuMessagePaths) (id : string),
    fold_left record locations icuMessagePaths !! id
    = match pathEntry pathText
              <$> filter (fun location => i18nId (asIcuMessage location.2) = id) locations with
      | [] => icuMessagePaths !! id
      | new => Some (default [] (icuMessagePaths !! id) ++ new)
      end.
Proof.
  induction locations as [|location locations IH]; intros icuMessagePaths id; [done|].
  cbn [fold_left]. rewrite IH, filter_cons. unfold recordLocation.
  destruct (decide (i18nId (asIcuMessage location.2) = id)) as [<-|Hne].
  - rewrite lookup_insert_eq, fmap_cons. cbn [default].
    destruct (pathEntry pathText <$> filter _ locations); [done|].
    unfold id. by rewrite <- app_assoc.
  - by rewrite lookup_insert_ne.
Qed.
End ReplaceOutcome.

Section ReplaceLocations.
Context `{JsNumber}.

Lemma indexKey_inj (i j : nat) : indexKey i = indexKey j -> i = j.
Proof.
  unfold indexKey. intros Heq. apply Unsigned.to_uint_inj.
  apply (f_equal NilEmpty.uint_of_string) in Heq.
  rewrite !NilEmpty.usu in Heq. by injection Heq.
Qed.

Lemma om_get_item (items : list value) (i : nat) (x : value) :
  items !! i = Some x ->
  om_get (indexKey i) (Object_entries (VArray items)) = Some x.
Proof.
  intros Hx. simpl. apply om_elem_of_get.
  - apply NoDup_alt. intros j1 j2 k. unfold om_keys.
    rewrite !list_lookup_fmap, !list_lookup_imap.
    destruct (items !! j1), (items !! j2); simpl; try done.
    intros [= <-] [= Heq]. symmetry. by apply indexKey_inj.
  - by apply (elem_of_lookup_imap_2 (fun i x => (indexKey i, x))).
Qed.

Lemma om_get_fmap_values {A B} (g : A -> B) (k : string) (m : list (string * A)) :
  om_get k (map (fun kx => (kx.1, g kx.2)) m) = g <$> om_get k m.
Proof.
  induction m as [|[k' a] m IH]; simpl; [done|]. by destruct (String.eqb k k').
Qed.

Lemma itemsFrom_elem_of {B} (f : string -> value -> list B) (items : list value) :
  forall (n : nat) (b : B),
    b ∈ itemsFrom f n items ->
    exists j x, items !! j = Some x /\ b ∈ f (indexKey (n + j)) x.
Proof.
  induction items as [|x items IH]; intros n b; simpl; [by intros ?%elem_of_nil|].
  intros [Hin|Hin]%elem_of_app.
  - exists 0, x. by rewrite Nat.add_0_r.
  - destruct (IH (S n) b Hin) as (j & y & Hy & Hb). exists (S j), y.
    by rewrite Nat.add_succ_r.
Qed.

Lemma uniqueKeys_props (props : list (string * value)) :
  uniqueKeys (VObject props) ->
  NoDup (om_keys props) /\ Forall (fun kx => uniqueKeys kx.2) props.
Proof.
  simpl. intros [Hnd Hall]. split; [done|].
  clear Hnd. induction props as [|kx props IH]; constructor; simpl in Hall; tauto.
Qed.

Lemma uniqueKeys_items (items : list value) :
  uniqueKeys (VArray items) -> Forall uniqueKeys items.
Proof.
  simpl. induction items as [|x items IH]; intros Hall; constructor; simpl in Hall; tauto.
Qed.

(** Each location is a place of the tree: its path leads to the message in
    the input, and to the string put there in the localized tree. *)
Lemma icuLocations_valueAt (text : value -> string) (v : value) :
  forall prefix location,
    uniqueKeys v -> location ∈ icuLocations v prefix ->
    exists rest,
      location.1 = prefix ++ rest
      /\ valueAt rest v = Some location.2
      /\ valueAt rest (localized text v) = Some (VString (text location.2)).
Proof.
  induction v as [v Harr Hobj | items IH | props IH] using value_nested_ind;
    intros prefix location Hunique Hin.
  - destruct v; try done; try (by apply elem_of_nil in Hin). by destruct (Hobj props).
  - apply uniqueKeys_items in Hunique.
    cbn [icuLocations] in Hin.
    apply itemsFrom_elem_of in Hin as (j & x & Hx & Hin). simpl in Hin.
    rewrite Forall_forall in IH, Hunique.
    assert (x ∈ items) as Hxin by (by eapply list_elem_of_lookup_2).
    assert (om_get (indexKey j) (Object_entries (localized text (VArray items)))
            = Some (if isIcuMessage x then VString (text x) else localized text x)) as Hnew.
    { cbn [localized]. apply om_get_item. by rewrite list_lookup_fmap, Hx. }
    destruct (isIcuMessage x) eqn:Hicu.
    + apply list_elem_of_singleton in Hin as ->. exists [indexKey j].
      split_and!; [done | |]; cbn [valueAt].
      * by rewrite (om_get_item _ _ _ Hx).
      * by rewrite Hnew.
    + destruct (IH x Hxin (prefix ++ [indexKey j]) location (Hunique x Hxin) Hin)
        as (rest & Hpath & Hold & Hloc).
      exists (indexKey j :: rest). split_and!; cbn [valueAt].
      * by rewrite Hpath, <- app_assoc.
      * by rewrite (om_get_item _ _ _ Hx).
      * by rewrite Hnew.
  - apply uniqueKeys_props in Hunique as [Hnd Hunique].
    cbn [icuLocations] in Hin.
    apply list_elem_of_In, in_flat_map in Hin as ([k x] & Hkx & Hin).
    apply list_elem_of_In in Hkx, Hin. simpl in Hin.
    rewrite Forall_forall in IH, Hunique.
    pose proof (om_elem_of_get k x props Hnd Hkx) as Hget.
    assert (om_get k (Object_entries (localized text (VObject props)))
            = Some (if isIcuMessage x then VString (text x) else localized text x)) as Hnew.
    { cbn [localized Object_entries].
      by rewrite (om_get_fmap_values
                    (fun y => if isIcuMessage y then VString (text y) else localized text y)),
        Hget. }
    destruct (isIcuMessage x) eqn:Hicu.
    + apply list_elem_of_singleton in Hin as ->. exists [k].
      split_and!; [done | |]; cbn [valueAt Object_entries].
      * by rewrite Hget.
      * cbn [Object_entries] in Hnew. by rewrite Hnew.
    + destruct (IH (k, x) Hkx (prefix ++ [k]) location (Hunique (k, x) Hkx) Hin)
        as (rest & Hpath & Hold & Hloc).
      exists (k :: rest). split_and!; cbn [valueAt Object_entries].
      * by rewrite Hpath, <- app_assoc.
      * by rewrite Hget.
      * cbn [Object_entries] in Hnew. by rewrite Hnew.
Qed.
End ReplaceLocations.

Section ReplaceClaims.
Context `{JsNumber} `{!Host}.

Lemma icuLocations_messages (v : value) :
  forall pathInLHR location,
    location ∈ icuLocations v pathInLHR -> isIcuMessage location.2 = true.
Proof.
  induction v as [v Harr Hobj | items IH | props IH] using value_nested_ind;
    intros pathInLHR location.
  - destruct v; try done; try (by intros ?%elem_of_nil). by destruct (Hobj props).
  - simpl. generalize 0 as i.
    induction IH as [|x items Hx _ IHitems]; intros i; simpl; [by intros ?%elem_of_nil|].
    intros [Hin|Hin]%elem_of_app; [|by eapply IHitems].
    destruct (isIcuMessage x) eqn:Hicu; [|by eapply Hx].
    by apply list_elem_of_singleton in Hin as ->.
  - simpl. induction IH as [|[k x] props Hx _ IHprops]; simpl; [by intros ?%elem_of_nil|].
    intros [Hin|Hin]%elem_of_app; [|by eapply IHprops].
    simpl in Hin, Hx. destruct (isIcuMessage x) eqn:Hicu; [|by eapply Hx].
    by apply list_elem_of_singleton in Hin as ->.
Qed.

(** C2, amended: take the property values of the input tree that are
    [LH.IcuMessage]s and lie in no other one, with the path to each.  When
    every one of them formats without error (so the locale is supported)
    and its path can be written (no property name on it has a closing
    bracket, a quote or white space), [replaceIcuMessages] returns, the
    input object is left with each of them replaced by its formatted
    string and nothing else changed (so the path of each message leads to
    its string), and the returned map holds under each [i18nId] exactly the
    paths to the messages with that id, in the order of the walk, paired
    with the values of the message when it has any; otherwise
    [replaceIcuMessages] throws. *)
Theorem replaceIcuMessages_replaces_and_records
    (inputObject : value) (locale : string) (LOCALE_MESSAGES : Store) :
  let locations := icuLocations inputObject [] in
  (forall location, location ∈ locations -> isIcuMessage location.2 = true)
  /\ (uniqueKeys inputObject ->
      forall location, location ∈ locations ->
        valueAt location.1 inputObject = Some location.2
        /\ valueAt location.1 (localized (formattedText locale LOCALE_MESSAGES) inputObject)
           = Some (VString (formattedText locale LOCALE_MESSAGES location.2)))
  /\ (forallb (locationOk locale LOCALE_MESSAGES) locations = true ->
      exists icuMessagePaths,
        replaceIcuMessages inputObject locale LOCALE_MESSAGES
        = (Ok icuMessagePaths,
           localized (formattedText locale LOCALE_MESSAGES) inputObject,
           LOCALE_MESSAGES)
        /\ forall id,
             icuMessagePaths !! id
             = match pathEntry pathText
                       <$> filter (fun location => i18nId (asIcuMessage location.2) = id)
                             locations with
               | [] => None
               | entries => Some entries
               end)
  /\ (forallb (locationOk locale LOCALE_MESSAGES) locations = false ->
      exists e inputObject',
        replaceIcuMessages inputObject locale LOCALE_MESSAGES
        = (Throw e, inputObject', LOCALE_MESSAGES)).
Proof.
  intros locations. split_and!.
  - apply icuLocations_messages.
  - intros Hunique location Hin.
    destruct (icuLocations_valueAt (formattedText locale LOCALE_MESSAGES) inputObject
                [] location Hunique Hin) as (rest & Hpath & Hold & Hnew).
    simpl in Hpath. by rewrite Hpath.
  - intros Hok. unfold replaceIcuMessages.
    rewrite (replaceInObject_ok locale LOCALE_MESSAGES) by done.
    eexists. split; [done|]. intros id. rewrite recorded_lookup.
    rewrite lookup_empty. by destruct (_ <$> _).
  - intros Hok. unfold replaceIcuMessages.
    destruct (replaceInObject_throws locale LOCALE_MESSAGES inputObject [] ∅ Hok)
      as (v' & paths' & e & ->).
    by exists e, v'.
Qed.
End ReplaceClaims.

(** ** The module state: what calls read and what they leave *)

Section ModuleState.
Context `{JsNumber} `{!Host}.

(** The table the module sees for a locale depends on what the state holds
    under the locale alone. *)
Lemma localeTable_local (locale : string) (s1 s2 : Store) :
  s1 !! locale = s2 !! locale -> localeTable s1 locale = localeTable s2 locale.
Proof. unfold localeTable. by intros ->. Qed.

Lemma getFormatted_local (v : value) (locale : string) (s1 s2 : Store) :
  s1 !! locale = s2 !! locale ->
  (getFormatted v locale s1).1 = (getFormatted v locale s2).1.
Proof.
  intros Hlocale%localeTable_local.
  unfold getFormatted, _localizeIcuMessage, readLocale, mbind, Op_bind, mret, Op_ret, throw, pure.
  destruct (isIcuMessage v).
  - rewrite Hlocale. destruct (localeTable s2 locale) as [localeMessages|]; [|done].
    by destruct (om_get _ localeMessages).
  - by destruct v.
Qed.

Lemma visitProperty_local locale pathInLHR property x recurse icuMessagePaths (s1 s2 : Store) :
  s1 !! locale = s2 !! locale ->
  (forall icuMessagePaths, exists v' paths' c,
      recurse icuMessagePaths s1 = (v', paths', s1, c)
      /\ recurse icuMessagePaths s2 = (v', paths', s2, c)) ->
  exists v' paths' c,
    visitProperty locale pathInLHR property x recurse icuMessagePaths s1 = (v', paths', s1, c)
    /\ visitProperty locale pathInLHR property x recurse icuMessagePaths s2 = (v', paths', s2, c).
Proof.
  intros Hlocale Hrec. unfold visitProperty.
  destruct (isIcuMessage x); [|apply Hrec].
  pose proof (getFormatted_local x locale s1 s2 Hlocale) as Hsame.
  pose proof (getFormatted_store x locale s1) as Hs1.
  pose proof (getFormatted_store x locale s2) as Hs2.
  destruct (getFormatted x locale s1) as [r1 t1], (getFormatted x locale s2) as [r2 t2].
  simpl in *. subst.
  destruct r2 as [formattedString|e]; [|by eexists _, _, _].
  destruct (_formatPathAsString (pathInLHR ++ [property])); by eexists _, _, _.
Qed.

(** The walk gives the same document, the same paths and the same outcome
    in two states that hold the same table for the locale. *)
Lemma replaceInObject_local locale (v : value) (s1 s2 : Store) :
  s1 !! locale = s2 !! locale ->
  forall pathInLHR icuMessagePaths, exists v' paths' c,
    replaceInObject locale v pathInLHR icuMessagePaths s1 = (v', paths', s1, c)
    /\ replaceInObject locale v pathInLHR icuMessagePaths s2 = (v', paths', s2, c).
Proof.
  intros Hlocale.
  induction v as [v Harr Hobj | items IH | props IH] using value_nested_ind;
    intros pathInLHR icuMessagePaths.
  - rewrite !replaceInObject_atom by done. by eexists _, _, _.
  - rewrite !replaceInObject_array.
    enough (exists items' paths' c,
              walkItems (fun property x =>
                           visitProperty locale pathInLHR property x
                             (replaceInObject locale x (pathInLHR ++ [property])))
                0 items icuMessagePaths s1 = (items', paths', s1, c)
              /\ walkItems (fun property x =>
                              visitProperty locale pathInLHR property x
                                (replaceInObject locale x (pathInLHR ++ [property])))
                   0 items icuMessagePaths s2 = (items', paths', s2, c))
      as (items' & paths' & c & -> & ->) by (by eexists _, _, _).
    revert icuMessagePaths. generalize 0 as i.
    induction IH as [|x items Hx _ IHitems]; intros i icuMessagePaths; simpl;
      [by eexists _, _, _|].
    destruct (visitProperty_local locale pathInLHR (indexKey i) x
                (replaceInObject locale x (pathInLHR ++ [indexKey i]))
                icuMessagePaths s1 s2 Hlocale (Hx _)) as (v' & paths' & c & -> & ->).
    destruct c as [[]|e]; [|by eexists _, _, _].
    destruct (IHitems (S i) paths') as (items' & paths'' & c' & -> & ->).
    by eexists _, _, _.
  - rewrite !replaceInObject_object.
    enough (exists props' paths' c,
              walkProps (fun property x =>
                           visitProperty locale pathInLHR property x
                             (replaceInObject locale x (pathInLHR ++ [property])))
                props icuMessagePaths s1 = (props', paths', s1, c)
              /\ walkProps (fun property x =>
                              visitProperty locale pathInLHR property x
                                (replaceInObject locale x (pathInLHR ++ [property])))
                   props icuMessagePaths s2 = (props', paths', s2, c))
      as (props' & paths' & c & -> & ->) by (by eexists _, _, _).
    revert icuMessagePaths.
    induction IH as [|[k x] props Hx _ IHprops]; intros icuMessagePaths; simpl;
      [by eexists _, _, _|].
    simpl in Hx.
    destruct (visitProperty_local locale pathInLHR k x
                (replaceInObject locale x (pathInLHR ++ [k]))
                icuMessagePaths s1 s2 Hlocale (Hx _)) as (v' & paths' & c & -> & ->).
    destruct c as [[]|e]; [|by eexists _, _, _].
    destruct (IHprops paths') as (props' & paths'' & c' & -> & ->).
    by eexists _, _, _.
Qed.

Lemma replaceIcuMessages_local (inputObject : value) locale (s1 s2 : Store) :
  s1 !! locale = s2 !! locale ->
  exists r inputObject',
    replaceIcuMessages inputObject locale s1 = (r, inputObject', s1)
    /\ replaceIcuMessages inputObject locale s2 = (r, inputObject', s2).
Proof.
  intros Hlocale. unfold replaceIcuMessages.
  destruct (replaceInObject_local locale inputObject s1 s2 Hlocale [] ∅)
    as (v' & paths' & c & -> & ->).
  by eexists _, _.
Qed.

(** Every call but [registerLocaleData] hands the module state on as it
    got it. *)
Lemma run_store (call : Call) (LOCALE_MESSAGES : Store) :
  isRegisterLocaleData call = false -> (run call LOCALE_MESSAGES).2 = LOCALE_MESSAGES.
Proof.
  destruct call; try done; intros _; simpl.
  - apply getFormatted_store.
  - unfold getRendererFormattedStrings, readLocale, mbind, Op_bind, throw, pure.
    by destruct (localeTable LOCALE_MESSAGES locale).
  - destruct (replaceIcuMessages_local inputObject locale LOCALE_MESSAGES LOCALE_MESSAGES
                eq_refl) as (r & v' & -> & _).
    done.
  - unfold hasLocale, readLocale, mbind, Op_bind, mret, Op_ret, pure.
    by destruct (Intl_supportedLocalesOf requestedLocale).
Qed.

(** The outcome of a call is the same in two states that are alike for it. *)
Lemma run_local (call : Call) (s1 s2 : Store) :
  alikeFor call s1 s2 -> (run call s1).1 = (run call s2).1.
Proof.
  destruct call; simpl; intros Halike; try done.
  - f_equal. by apply getFormatted_local.
  - unfold getRendererFormattedStrings, readLocale, mbind, Op_bind, throw, pure.
    rewrite (localeTable_local _ _ _ Halike). by destruct (localeTable s2 locale).
  - destruct (replaceIcuMessages_local inputObject locale s1 s2 Halike)
      as (r & v' & -> & ->).
    done.
  - unfold hasLocale, readLocale, mbind, Op_bind, mret, Op_ret, pure.
    destruct (Intl_supportedLocalesOf requestedLocale); simpl;
      [by rewrite (localeTable_local _ _ _ Halike) | done].
  - by subst.
Qed.
End ModuleState.

Section ModuleClaims.
Context `{JsNumber} `{!Host}.

(** C8, amended: every exported operation other than [registerLocaleData]
    leaves the table of locale messages as it was, so it changes the result
    of no later call; [registerLocaleData] sets the table of its locale. *)
Theorem module_state_frame (call later : Call) (LOCALE_MESSAGES : Store) :
  (isRegisterLocaleData call = false ->
     (run call LOCALE_MESSAGES).2 = LOCALE_MESSAGES
     /\ run later (run call LOCALE_MESSAGES).2 = run later LOCALE_MESSAGES)
  /\ (forall locale lhlMessages,
        call = Call_registerLocaleData locale lhlMessages ->
        (run call LOCALE_MESSAGES).2 = <[locale := lhlMessages]> LOCALE_MESSAGES).
Proof.
  split.
  - intros Hcall. by rewrite run_store.
  - by intros locale lhlMessages ->.
Qed.
End ModuleClaims.

(** * More on the operations

    Errors, edge cases and invariants of the functions above, read off the
    code. *)

(** ** Loops whose body fails on the element alone *)

Lemma forEach_first_bad {A S} (good : A -> bool) (step : A -> S -> S) (err : A -> Error)
    (body : A -> S -> Result S) (xs : list A) :
  (forall x s, body x s = if good x then Ok (step x s) else Throw (err x)) ->
  forall s,
    forEach xs body s
    = match find (fun x => negb (good x)) xs with
      | Some x => Throw (err x)
      | None => Ok (fold_left (fun s x => step x s) xs s)
      end.
Proof.
  intros Hbody. induction xs as [|x xs IH]; intros s; simpl; [done|].
  rewrite Hbody. destruct (good x); simpl; [apply IH | done].
Qed.

(** The property a run of assignments leaves under a key. *)
Lemma assigned_get {A V} (key : A -> string) (val : A -> V) (xs : list A) :
  forall (o : list (string * V)) (k : string),
    k <> "__proto__" ->
    om_get k (fold_left (fun o x => set_property (key x) (val x) o) xs o)
    = match last (filter (fun x => key x = k) xs) with
      | Some x => Some (val x)
      | None => om_get k o
      end.
Proof.
  induction xs as [|x xs IH] using rev_ind; intros o k Hk; [done|].
  rewrite fold_left_app, filter_app, last_app. simpl.
  rewrite filter_cons, filter_nil.
  destruct (decide (key x = k)) as [<-|Hne]; simpl.
  - by rewrite set_property_get_eq.
  - rewrite set_property_get_ne by done. by apply IH.
Qed.

(** ** [collectAllCustomElementsFromICU] with a map to start from *)

Lemma recordAll_keys_prefix els : forall seen,
  exists new, om_keys (recordAll els seen) = om_keys seen ++ new.
Proof.
  induction els as [|el els IH]; intros seen; simpl.
  - exists []. by rewrite app_nil_r.
  - destruct (IH (om_set (el_id el) el seen)) as [new ->].
    rewrite om_keys_set. destruct (om_has (el_id el) seen); [by exists new|].
    exists (el_id el :: new). by rewrite <- app_assoc.
Qed.

Lemma recordAll_keys els : forall seen,
  om_keys (recordAll els seen) = firstVisits (el_id <$> els) (om_keys seen).
Proof.
  induction els as [|el els IH]; intros seen; [done|].
  simpl. rewrite IH, om_keys_set. unfold firstVisits. simpl. f_equal.
  destruct (om_has (el_id el) seen) eqn:E.
  - apply om_has_elem_of in E. by rewrite bool_decide_eq_true_2.
  - rewrite bool_decide_eq_false_2; [done|]. rewrite <- om_has_elem_of. congruence.
Qed.

(** X1: [collectAllCustomElementsFromICU] called with a map
    [seenElementsById] to start from: an id met in the elements gets the last
    element visited with it, every other id keeps the entry the map had; the
    keys the map had stay first and in their order, a new id comes after
    them where it is first visited, and the keys stay without duplicates;
    collecting a list and then another into the result is collecting the
    two lists one after the other. *)
Theorem collectInto_seen (icuElements : list MessageElement) (seenElementsById : ElementMap) :
  (forall id,
     om_get id (collectInto icuElements seenElementsById)
     = match last (filter (fun el => el_id el = id) (allArgumentElements icuElements)) with
       | Some el => Some el
       | None => om_get id seenElementsById
       end)
  /\ (exists new, om_keys (collectInto icuElements seenElementsById)
                  = om_keys seenElementsById ++ new)
  /\ om_keys (collectInto icuElements seenElementsById)
     = firstVisits (el_id <$> allArgumentElements icuElements) (om_keys seenElementsById)
  /\ (NoDup (om_keys seenElementsById) ->
      NoDup (om_keys (collectInto icuElements seenElementsById)))
  /\ (forall more,
        collectInto (icuElements ++ more) seenElementsById
        = collectInto more (collectInto icuElements seenElementsById)).
Proof.
  split_and!.
  - intros id. by rewrite collectInto_recordAll, recordAll_get.
  - rewrite collectInto_recordAll. apply recordAll_keys_prefix.
  - rewrite collectInto_recordAll. apply recordAll_keys.
  - rewrite collectInto_recordAll. apply recordAll_NoDup.
  - intros more. rewrite !collectInto_recordAll. unfold allArgumentElements.
    by rewrite flat_map_app, recordAll_app.
Qed.

(** ** [_preformatValues]: the errors and the record *)

Section PreformatOutcome.
Context `{JsNumber}.

Implicit Types (values formattedValues : Record) (el : MessageElement).

Lemma preformatElement_cause values lhlMessage el formattedValues e :
  preformatElement values lhlMessage el formattedValues = Throw e ->
  (e = ValueNotProvided lhlMessage (el_id el) /\ has_property (el_id el) values = false)
  \/ (e = NotANumber lhlMessage (el_id el)
      /\ (exists style, el_format el = Some (numberFormat style))
      /\ forall v, get_property (el_id el) values <> VNumber v).
Proof.
  unfold preformatElement.
  destruct (negb (String.eqb (el_id el) "")) eqn:Hid; simpl.
  - destruct (has_property (el_id el) values) eqn:Hhas; simpl; [|intros [= <-]; by left].
    destruct (el_format el) as [[style| | | |]|]; try done.
    destruct (get_property _ _) eqn:Hv; try done; intros [= <-];
      right; split_and!; try done; by exists style.
  - destruct (el_format el) as [[style| | | |]|]; try done.
    destruct (get_property _ _) eqn:Hv; try done; intros [= <-];
      right; split_and!; try done; by exists style.
Qed.

(** X2: each error of [_preformatValues] says what is wrong.  It names the
    message it was called with, and either a kept placeholder whose id the
    values do not have (value not provided), or a kept number placeholder
    whose value is no number, or a key of the values that is not
    [errorCode], is no name every object inherits and is the id of no
    placeholder (unmatched value). *)
Theorem preformatValues_error_cause
    (formatter : Formatter) (values : Record) (lhlMessage : string) (e : Error) :
  _preformatValues formatter values lhlMessage = Throw e ->
  let kept := om_values (collectAllCustomElementsFromICU (getAst_elements formatter)) in
  (exists el, el ∈ kept /\ e = ValueNotProvided lhlMessage (el_id el)
              /\ has_property (el_id el) values = false)
  \/ (exists el style, el ∈ kept /\ e = NotANumber lhlMessage (el_id el)
                       /\ el_format el = Some (numberFormat style)
                       /\ forall v, get_property (el_id el) values <> VNumber v)
  \/ (exists valueId, valueId ∈ om_keys values /\ e = UnmatchedValue valueId lhlMessage
                      /\ valueId <> "errorCode" /\ isInherited valueId = false
                      /\ forall el, el ∈ allArgumentElements (getAst_elements formatter) ->
                                    el_id el <> valueId).
Proof.
  intros Hthrow kept. unfold _preformatValues in Hthrow. fold kept in Hthrow.
  destruct (forEach kept _ _) as [fv|e1] eqn:E1; simpl in Hthrow.
  - right; right.
    pose proof (forEach_Ok_each (fun el fv => has_property (el_id el) fv = true) _ _ _ _
                  (preformatElement_has values lhlMessage)
                  (fun x y s s' => preformatElement_has_mono values lhlMessage y s s' (el_id x))
                  E1) as Hids.
    apply (forEach_Throw_inv
             (fun fv => forall el, el ∈ kept -> has_property (el_id el) fv = true))
      in Hthrow as (valueId & s0 & Hin & Hs0 & Hb); [|done|].
    + exists valueId. unfold checkValueId in Hb.
      destruct (has_property valueId s0) eqn:Hhas; [done|].
      destruct (String.eqb valueId "errorCode") eqn:Hec; [done|].
      injection Hb as <-. apply String.eqb_neq in Hec.
      unfold has_property in Hhas. apply orb_false_iff in Hhas as [Hown Hinh].
      split_and!; try done.
      intros el (el' & Hel' & Hid)%collected_values_of_id Heq.
      specialize (Hs0 el' Hel'). unfold has_property in Hs0.
      by rewrite Hid, Heq, Hown, Hinh in Hs0.
    + intros k s s' _ Hs Hstep el Hel. eapply checkValueId_has_mono; [by apply Hs | done].
  - injection Hthrow as <-.
    apply (forEach_Throw_inv (fun _ => True)) in E1 as (el & s0 & Hel & _ & Hb); [|done..].
    destruct (preformatElement_cause _ _ _ _ _ Hb) as [[-> Hhas] | (-> & [style Hstyle] & Hv)].
    + left. by exists el.
    + right; left. by exists el, style.
Qed.

(** The value the first loop stores for an element that has no number
    format is the provided one, and is still there at the end. *)
Lemma preformatValues_other formatter values lhlMessage id el r :
  om_get id (collectAllCustomElementsFromICU (getAst_elements formatter)) = Some el ->
  (forall style, el_format el <> Some (numberFormat style)) ->
  id <> "__proto__" ->
  _preformatValues formatter values lhlMessage = Ok r ->
  om_get id r = Some (get_property id values).
Proof.
  intros Hget Hformat Hproto. unfold _preformatValues.
  pose proof (collected_NoDup (getAst_elements formatter)) as Hnd.
  rewrite collected_keys_ids in Hnd.
  apply om_get_elem_of in Hget.
  pose proof (collected_entry _ _ _ Hget) as [_ Hid].
  assert (el ∈ om_values (collectAllCustomElementsFromICU (getAst_elements formatter))) as Hin.
  { unfold om_values. apply list_elem_of_fmap. by eexists (_, _). }
  apply list_elem_of_split in Hin as (l1 & l2 & Hsplit). rewrite Hsplit in *.
  rewrite fmap_app, fmap_cons in Hnd. simpl in Hnd.
  apply NoDup_app in Hnd as (_ & _ & [Hl2 _]%NoDup_cons).
  rewrite forEach_app. simpl.
  destruct (forEach l1 _ _) as [s1|]; [simpl|done].
  destruct (preformatElement values lhlMessage _ s1) as [s2|] eqn:E0; [simpl|done].
  assert (om_get id s2 = Some (get_property id values)) as Hs2.
  { unfold preformatElement in E0. rewrite Hid in E0.
    destruct (negb _ && negb _); [done|].
    destruct (el_format el) as [[style| | | |]|]; try (by destruct (Hformat style));
      injection E0 as <-; by apply set_property_get_eq. }
  destruct (forEach l2 _ _) as [fv|] eqn:E2; [simpl|done].
  intros Hloop.
  apply (forEach_Ok_inv (fun s => om_get id s = Some (get_property id values))) in E2.
  - apply (forEach_Ok_inv (fun s => om_get id s = Some (get_property id values))) in Hloop;
      [done..|].
    intros k s s' _ Hs Hstep.
    destruct (checkValueId_get _ _ _ _ _ id Hstep) as [-> | (_ & Hhas & _)]; [done|].
    unfold has_property, om_has in Hhas. by rewrite Hs in Hhas.
  - done.
  - intros el' s s' Hel' Hs Hstep.
    rewrite (preformatElement_get_ne values lhlMessage el' s s' id); [done | | done].
    intros Heq. apply Hl2, list_elem_of_fmap. exists el'. by rewrite Hid.
Qed.

Lemma set_property_keys_iff {V} k (v : V) (o : list (string * V)) k' :
  k' ∈ om_keys (set_property k v o) <-> k' ∈ om_keys o \/ (k' = k /\ k <> "__proto__").
Proof.
  unfold set_property. destruct (String.eqb k "__proto__") eqn:E.
  - apply String.eqb_eq in E. split; [by left | by intros [?|[_ ?]]].
  - apply String.eqb_neq in E. rewrite om_keys_set.
    destruct (om_has k o) eqn:Hhas.
    + apply om_has_elem_of in Hhas. split; [by left | by intros [?|[-> _]]].
    + rewrite elem_of_app, list_elem_of_singleton. tauto.
Qed.

Lemma preformatElement_keys_iff values lhlMessage el formattedValues formattedValues' k :
  preformatElement values lhlMessage el formattedValues = Ok formattedValues' ->
  k ∈ om_keys formattedValues'
  <-> k ∈ om_keys formattedValues \/ (k = el_id el /\ k <> "__proto__").
Proof.
  assert (forall v : value,
            k ∈ om_keys (set_property (el_id el) v formattedValues)
            <-> k ∈ om_keys formattedValues \/ (k = el_id el /\ k <> "__proto__")) as Hset.
  { intros v. rewrite set_property_keys_iff. split; intros [?|[-> ?]]; auto. }
  unfold preformatElement.
  destruct (negb _ && negb _); [done|].
  destruct (el_format el) as [[]|]; try (intros [= <-]; apply Hset).
  destruct (get_property _ _); try done. intros [= <-]; apply Hset.
Qed.

(** X3: the record [_preformatValues] returns.  Its keys are the ids of
    the kept placeholders ([__proto__] apart, which an assignment does not
    add) and [errorCode] when the values have that key, and no other; under
    the id of a kept placeholder that has no number format it holds the
    provided value as it is. *)
Theorem preformatValues_record
    (formatter : Formatter) (values : Record) (lhlMessage : string) (r : Record) :
  _preformatValues formatter values lhlMessage = Ok r ->
  let collected := collectAllCustomElementsFromICU (getAst_elements formatter) in
  (forall k, k ∈ om_keys r
             <-> (k ∈ om_keys collected /\ k <> "__proto__")
                 \/ (k = "errorCode" /\ k ∈ om_keys values))
  /\ (forall id el,
        om_get id collected = Some el -> id <> "__proto__" ->
        (forall style, el_format el <> Some (numberFormat style)) ->
        om_get id r = Some (get_property id values)).
Proof.
  intros Hr collected. split; [|intros id el Hget Hproto Hformat; by eapply preformatValues_other].
  unfold _preformatValues in Hr. fold collected in Hr.
  destruct (forEach (om_values collected) _ _) as [fv|] eqn:E1; [simpl in Hr|done].
  assert (forall k, k ∈ om_keys fv <-> k ∈ om_keys collected /\ k <> "__proto__") as Hfv.
  { intros k. unfold collected at 1. rewrite collected_keys_ids. fold collected.
    revert E1. generalize (om_values collected). intros els E1.
    assert (forall k, k ∈ om_keys fv
                      <-> k ∈ om_keys (@nil (string * value))
                          \/ (k ∈ el_id <$> els /\ k <> "__proto__")) as Hgen.
    { clear k. revert E1. generalize (@nil (string * value)) as s.
      induction els as [|el els IH]; intros s; simpl.
      - intros [= <-] k. split; [by left | by intros [?|[?%elem_of_nil _]]].
      - destruct (preformatElement values lhlMessage el s) as [s1|] eqn:E; [simpl|done].
        intros Hloop k. rewrite (IH s1 Hloop k), (preformatElement_keys_iff _ _ _ _ _ _ E).
        rewrite elem_of_cons. tauto. }
    rewrite Hgen. split; [by intros [?%elem_of_nil|?] | by right]. }
  intros k. rewrite <- Hfv. clear Hfv E1.
  revert fv Hr. induction (om_keys values) as [|valueId ks IH]; intros fv; simpl.
  - intros [= <-]. split; [by left | by intros [?|[_ ?%elem_of_nil]]].
  - destruct (checkValueId values lhlMessage valueId fv) as [s1|] eqn:E; [simpl|done].
    intros Hloop. rewrite (IH s1 Hloop), elem_of_cons.
    unfold checkValueId in E.
    destruct (has_property valueId fv) eqn:Hhas.
    + injection E as <-. split; [tauto|].
      intros [?|[Hk [Hv|?]]]; [by left | | by right].
      subst k valueId. left. unfold has_property in Hhas.
      change (isInherited "errorCode") with false in Hhas. rewrite orb_false_r in Hhas.
      by apply om_has_elem_of.
    + destruct (String.eqb valueId "errorCode") eqn:Hec; [|done].
      apply String.eqb_eq in Hec as ->. injection E as <-.
      rewrite set_property_keys_iff.
      assert ("errorCode" <> "__proto__") by done. tauto.
Qed.

(** A kept number placeholder whose value is no number stops the first loop. *)
Lemma preformatValues_needs_number formatter values lhlMessage el style :
  el ∈ om_values (collectAllCustomElementsFromICU (getAst_elements formatter)) ->
  el_format el = Some (numberFormat style) ->
  (forall v, get_property (el_id el) values <> VNumber v) ->
  isOk (_preformatValues formatter values lhlMessage) = false.
Proof.
  intros Hel Hformat Hv. unfold _preformatValues.
  assert (isOk (forEach (om_values (collectAllCustomElementsFromICU (getAst_elements formatter)))
                  (preformatElement values lhlMessage) []) = false) as Hloop.
  { apply (forEach_must_throw (fun _ => True) _ _ _ el); [done.. |].
    intros s _. unfold preformatElement. rewrite Hformat.
    destruct (negb _ && negb _); [done|].
    destruct (get_property (el_id el) values) eqn:E; try done. by destruct (Hv n). }
  by destruct (forEach _ _ _).
Qed.
End PreformatOutcome.

Section FormatMessageNumber.
Context `{JsNumber} `{!Host}.

(** X4: when the template has a number placeholder (the one kept under
    its id) and the value provided under that id is no number (a string,
    say, or nothing at all), [_formatMessage] throws a validation error. *)
Theorem formatMessage_not_a_number
    (message : string) (values : option Record) (locale : string)
    (formatter : Formatter) (id : string) (style : option string) :
  MessageFormat message (localeForMessageFormat locale) formats = Ok formatter ->
  om_get id (collectAllCustomElementsFromICU (getAst_elements formatter))
    = Some (argumentElement id (Some (numberFormat style))) ->
  (forall v, get_property id (default [] values) <> VNumber v) ->
  exists e, _formatMessage message values locale = Throw e /\ isValidationError e = true.
Proof.
  intros Hparse Hget Hv.
  eapply formatMessage_preformat_throws; [done|].
  eapply (preformatValues_needs_number _ _ _ (argumentElement id (Some (numberFormat style))));
    [|done..].
  unfold om_values. apply list_elem_of_fmap. eexists (_, _). split; [done|].
  by apply om_get_elem_of.
Qed.
End FormatMessageNumber.

(** ** [_preformatValues]: which check fails first *)

Section PreformatPrecedence.
Context `{JsNumber}.

Implicit Types (values formattedValues : Record) (el : MessageElement).

Lemma preformatElement_fits values lhlMessage el formattedValues :
  preformatElement values lhlMessage el formattedValues
  = if valueFits values el
    then Ok (set_property (el_id el)
               match el_format el, get_property (el_id el) values with
               | Some (numberFormat style), VNumber v =>
                   VNumber (preformatNumber (el_id el) style v)
               | _, value => value
               end formattedValues)
    else Throw (elementError values lhlMessage el).
Proof.
  unfold preformatElement, valueFits, elementError.
  destruct (String.eqb (el_id el) ""), (has_property (el_id el) values); simpl;
    try done; destruct (el_format el) as [[]|]; try done;
    by destruct (get_property (el_id el) values).
Qed.

Lemma has_property_set_ne k k' (v : value) (o : Record) :
  k <> k' -> has_property k' (set_property k v o) = has_property k' o.
Proof.
  intros Hne. unfold has_property, om_has. by rewrite set_property_get_ne.
Qed.

Lemma checkLoop_outcome values lhlMessage (matched : string -> bool) (ks : list string) :
  forall formattedValues,
    (forall k, k <> "errorCode" -> has_property k formattedValues = matched k) ->
    match find (fun k => negb (matched k || String.eqb k "errorCode")) ks with
    | Some k =>
        forEach ks (checkValueId values lhlMessage) formattedValues
        = Throw (UnmatchedValue k lhlMessage)
    | None => isOk (forEach ks (checkValueId values lhlMessage) formattedValues) = true
    end.
Proof.
  induction ks as [|k ks IH]; intros fv Hfv; [done|].
  cbn [find forEach].
  destruct (String.eqb k "errorCode") eqn:Hec.
  - rewrite orb_true_r. cbn [negb]. apply String.eqb_eq in Hec as ->.
    assert (exists s, checkValueId values lhlMessage "errorCode" fv = Ok s
                      /\ forall k, k <> "errorCode" -> has_property k s = matched k)
      as (s & -> & Hs).
    { unfold checkValueId. destruct (has_property "errorCode" fv); [by exists fv|].
      simpl. eexists. split; [done|]. intros k Hk. rewrite <- Hfv by done.
      apply has_property_set_ne. congruence. }
    cbn [mbind Result_bind]. by apply IH.
  - assert (checkValueId values lhlMessage k fv
            = if has_property k fv then Ok fv else Throw (UnmatchedValue k lhlMessage)) as ->.
    { unfold checkValueId. by rewrite Hec. }
    apply String.eqb_neq in Hec. rewrite orb_false_r, <- (Hfv k Hec).
    destruct (has_property k fv); cbn [negb mbind Result_bind]; [by apply IH | done].
Qed.

Lemma existsb_id_elem_of (kept : list MessageElement) (k : string) :
  existsb (fun el => String.eqb (el_id el) k) kept = true <-> k ∈ el_id <$> kept.
Proof.
  rewrite existsb_exists, list_elem_of_fmap. split.
  - intros (el & Hin%list_elem_of_In & Heq%String.eqb_eq). by exists el.
  - intros (el & Heq & Hin%list_elem_of_In). exists el. split; [done|].
    by apply String.eqb_eq.
Qed.

(** X5: which error [_preformatValues] throws.  The kept placeholders
    are checked first, in the order of the map: the first one whose value is
    not provided or, for a number format, is no number, gives the error.
    When all of them pass, the keys of the values are checked in their
    order: the first one that is the id of no kept placeholder, is no name
    every object inherits and is not [errorCode] gives the unmatched-value
    error.  When there is none either, [_preformatValues] returns. *)
Theorem preformatValues_precedence
    (formatter : Formatter) (values : Record) (lhlMessage : string) :
  let kept := om_values (collectAllCustomElementsFromICU (getAst_elements formatter)) in
  match find (fun el => negb (valueFits values el)) kept with
  | Some el =>
      _preformatValues formatter values lhlMessage
      = Throw (elementError values lhlMessage el)
  | None =>
      match find (fun valueId => negb (keyMatched kept valueId)) (om_keys values) with
      | Some valueId =>
          _preformatValues formatter values lhlMessage
          = Throw (UnmatchedValue valueId lhlMessage)
      | None => isOk (_preformatValues formatter values lhlMessage) = true
      end
  end.
Proof.
  intros kept. unfold _preformatValues. fold kept.
  rewrite (forEach_first_bad (valueFits values)
             (fun el formattedValues =>
                set_property (el_id el)
                  match el_format el, get_property (el_id el) values with
                  | Some (numberFormat style), VNumber v =>
                      VNumber (preformatNumber (el_id el) style v)
                  | _, value => value
                  end formattedValues)
             (elementError values lhlMessage))
    by (intros el s; apply preformatElement_fits).
  destruct (find _ kept) as [el|] eqn:Hfind; [done|]. cbn [mbind Result_bind].
  match goal with |- context [fold_left ?f kept ?s] => set (fv := fold_left f kept s) end.
  assert (forall k, has_property k fv
                    = existsb (fun el => String.eqb (el_id el) k) kept || isInherited k) as Hfv.
  { intros k. unfold has_property.
    destruct (isInherited k) eqn:Hinh; [by rewrite !orb_true_r|]. rewrite !orb_false_r.
    assert (k <> "__proto__") as Hproto by (by intros ->).
    unfold om_has.
    assert (om_get k fv
            = match last (filter (fun el => el_id el = k) kept) with
              | Some el =>
                  Some match el_format el, get_property (el_id el) values with
                       | Some (numberFormat style), VNumber v =>
                           VNumber (preformatNumber (el_id el) style v)
                       | _, value => value
                       end
              | None => None
              end) as ->
      by (subst fv; apply (assigned_get el_id _ kept [] k Hproto)).
    destruct (last _) as [el|] eqn:Hlast.
    - apply last_filter_elem_of in Hlast as [Hin Hid]. symmetry.
      apply existsb_id_elem_of, list_elem_of_fmap. by exists el.
    - rewrite last_filter_None in Hlast. simpl.
      destruct (existsb _ kept) eqn:E; [|done].
      apply existsb_id_elem_of, list_elem_of_fmap in E as (el & Hid & Hin).
      by destruct (Hlast el Hin). }
  pose proof (checkLoop_outcome values lhlMessage
                (fun k => existsb (fun el => String.eqb (el_id el) k) kept || isInherited k)
                (om_keys values) fv (fun k _ => Hfv k)) as Hloop.
  unfold keyMatched. by destruct (find _ (om_keys values)).
Qed.
End PreformatPrecedence.

(** ** Strings *)

Section StringFacts.
#[local] Arguments String.append _ _ : simpl nomatch.

Lemma string_app_assoc (a b c : string) : (a +:+ b) +:+ c = a +:+ (b +:+ c).
Proof. induction a as [|x a IH]; simpl; [done | by rewrite IH]. Qed.

Lemma string_app_nil_r (a : string) : a +:+ "" = a.
Proof. induction a as [|x a IH]; simpl; [done | by rewrite IH]. Qed.

Lemma string_app_eq_nil (a b : string) : a +:+ b = "" -> a = "" /\ b = "".
Proof. by destruct a. Qed.

Lemma string_length_0 (s : string) : Nat.eqb (String.length s) 0 = String.eqb s "".
Proof. by destruct s. Qed.

Lemma allChars_app p (a b : string) : allChars p (a +:+ b) = allChars p a && allChars p b.
Proof. induction a as [|x a IH]; simpl; [done | by rewrite IH, andb_assoc]. Qed.

Lemma allChars_impl (p q : ascii -> bool) (s : string) :
  (forall c, p c = true -> q c = true) -> allChars p s = true -> allChars q s = true.
Proof.
  intros Hpq. induction s as [|c s IH]; simpl; [done|].
  intros [Hc Hs]%andb_true_iff. by rewrite (Hpq c Hc), IH.
Qed.
End StringFacts.

(** ** Message ids: [MESSAGE_I18N_ID_REGEX] and [getIcuMessageIdParts] *)

Section MessageIds.
#[local] Arguments String.append _ _ : simpl nomatch.

Lemma afterPrefix_Some (p s rest : string) : afterPrefix p s = Some rest <-> s = p +:+ rest.
Proof.
  revert s. induction p as [|a p IH]; intros s; simpl.
  - split; [by intros [= ->] | by intros ->].
  - destruct s as [|b s]; [done|].
    destruct (Ascii.eqb a b) eqn:E.
    + apply Ascii.eqb_eq in E as ->. rewrite IH. split; [by intros -> | by intros [= ->]].
    + apply Ascii.eqb_neq in E. split; [done | intros [= ? _]; congruence].
Qed.

(** The second alternative matches only where the first does, so the test
    looks for a space and for nothing more. *)
Lemma matchesSpaceAndWord_matchesSpace (s : string) :
  matchesSpaceAndWord s = true -> matchesSpace s = true.
Proof. unfold matchesSpaceAndWord, matchesSpace. by destruct (afterPrefix " " s). Qed.

Lemma idTest_hasSpace (s : string) : MESSAGE_I18N_ID_REGEX_test s = hasSpace s.
Proof.
  unfold hasSpace, anyChar. induction s as [|c s IH]; [done|].
  cbn [MESSAGE_I18N_ID_REGEX_test allChars]. rewrite IH, negb_andb, negb_involutive.
  f_equal.
  destruct (matchesSpaceAndWord (String c s)) eqn:Hword.
  - rewrite orb_true_r. apply matchesSpaceAndWord_matchesSpace in Hword.
    unfold matchesSpace in Hword. cbn [afterPrefix] in Hword.
    destruct (Ascii.eqb " " c) eqn:E; [|done]. apply Ascii.eqb_eq in E as <-. done.
  - rewrite orb_false_r. unfold matchesSpace. cbn [afterPrefix].
    rewrite Ascii.eqb_sym. by destruct (Ascii.eqb c " ").
Qed.

Lemma hasSpace_app (a b : string) : hasSpace (a +:+ " " +:+ b) = true.
Proof.
  unfold hasSpace, anyChar. rewrite allChars_app. cbn [String.append allChars].
  by rewrite andb_false_r.
Qed.

Lemma hasSpace_split (s : string) :
  hasSpace s = true -> exists before after, s = before +:+ " " +:+ after.
Proof.
  unfold hasSpace, anyChar. induction s as [|c s IH]; [done|].
  cbn [allChars]. rewrite negb_andb, negb_involutive.
  intros [Hc | (before & after & ->)%IH]%orb_true_iff.
  - apply Ascii.eqb_eq in Hc as ->. by exists "", s.
  - by exists (String c before), after.
Qed.

(** X6: the bar of [MESSAGE_I18N_ID_REGEX] separates two alternatives, and
    the first is a space: the test accepts the strings that have a space and
    no other, whatever stands around the space. *)
Theorem MESSAGE_I18N_ID_REGEX_test_spec (s : string) :
  MESSAGE_I18N_ID_REGEX_test s = true
  <-> exists before after, s = before +:+ " " +:+ after.
Proof.
  rewrite idTest_hasSpace. split; [apply hasSpace_split|].
  intros (before & after & ->). apply hasSpace_app.
Qed.

Lemma cutAt_found (sep s before after : string) :
  cutAt sep s = (before, Some after) -> s = before +:+ sep +:+ after.
Proof.
  revert before. induction s as [|c s IH]; intros before; cbn [cutAt].
  - destruct (afterPrefix sep "") as [rest|] eqn:E; [|done].
    apply afterPrefix_Some in E. by intros [= <- <-].
  - destruct (afterPrefix sep (String c s)) as [rest|] eqn:E.
    + apply afterPrefix_Some in E. by intros [= <- <-].
    + destruct (cutAt sep s) as [b a] eqn:Hcut. intros [= <- ->].
      simpl. f_equal. by apply IH.
Qed.


Lemma cutAt_here (sep s rest : string) :
  afterPrefix sep s = Some rest -> cutAt sep s = ("", Some rest).
Proof. intros Hp. destruct s; cbn [cutAt]; by rewrite Hp. Qed.

Lemma cutAt_occurs (sep a b : string) : is_Some (cutAt sep (a +:+ sep +:+ b)).2.
Proof.
  induction a as [|c a IH].
  - rewrite (cutAt_here sep _ b); [by eexists|]. by apply afterPrefix_Some.
  - change (String c a +:+ sep +:+ b) with (String c (a +:+ sep +:+ b)). cbn [cutAt].
    destruct (afterPrefix sep (String c (a +:+ sep +:+ b))); [by eexists|].
    by destruct (cutAt sep (a +:+ sep +:+ b)).
Qed.

(** The separator does not occur where a string has no space. *)
Lemma cutAt_no_space (s rest : string) :
  allChars (fun c => negb (Ascii.eqb c " ")) s = true ->
  cutAt " | " (s +:+ " | " +:+ rest) = (s, Some rest).
Proof.
  induction s as [|c s IH]; intros Hs.
  - apply cutAt_here. by apply afterPrefix_Some.
  - simpl in Hs. apply andb_true_iff in Hs as [Hc Hs].
    change (String c s +:+ " | " +:+ rest) with (String c (s +:+ " | " +:+ rest)).
    cbn [cutAt].
    assert (afterPrefix " | " (String c (s +:+ " | " +:+ rest)) = None) as ->.
    { cbn [afterPrefix]. destruct (Ascii.eqb " " c) eqn:E; [|done].
      apply Ascii.eqb_eq in E as <-. done. }
    by rewrite IH.
Qed.

Lemma cutAt_no_space_end (s : string) :
  allChars (fun c => negb (Ascii.eqb c " ")) s = true -> cutAt " | " s = (s, None).
Proof.
  induction s as [|c s IH]; intros Hs; [done|].
  simpl in Hs. apply andb_true_iff in Hs as [Hc Hs]. cbn [cutAt].
  assert (afterPrefix " | " (String c s) = None) as ->.
  { cbn [afterPrefix]. destruct (Ascii.eqb " " c) eqn:E; [|done].
      apply Ascii.eqb_eq in E as <-. done. }
  by rewrite IH.
Qed.

(** X7: [getIcuMessageIdParts] takes apart what [filename | key] puts
    together, for a file name without a space and a key that is not empty
    and has no white space. *)
Theorem getIcuMessageIdParts_join (filename key : string) :
  allChars (fun c => negb (Ascii.eqb c " ")) filename = true ->
  key <> "" -> allChars (fun c => negb (isWhiteSpace c)) key = true ->
  getIcuMessageIdParts (filename +:+ " | " +:+ key) = Ok (filename, Some key).
Proof.
  intros Hfile Hne Hkey. unfold getIcuMessageIdParts.
  assert (MESSAGE_I18N_ID_REGEX_test (filename +:+ " | " +:+ key) = true) as ->.
  { rewrite idTest_hasSpace. apply (hasSpace_app filename ("| " +:+ key)). }
  cbn [negb]. rewrite cutAt_no_space by done. cbn [fmap option_fmap option_map fst].
  rewrite cutAt_no_space_end; [done|].
  revert Hkey. apply allChars_impl. intros c Hc.
  apply negb_true_iff. apply negb_true_iff in Hc.
  destruct (Ascii.eqb c " ") eqn:E; [|done]. apply Ascii.eqb_eq in E as ->. done.
Qed.



End MessageIds.

(** ** [isIcuMessage] and [getRendererFormattedStrings] *)

Section IcuMessageShape.
Context `{JsNumber}.

(** X9: what [isIcuMessage] accepts: an object (not [null], not an array)
    with own properties [i18nId], a string that has a space, and
    [formattedDefault], a string, and whose [values] is absent, [undefined],
    or an object all of whose values are strings or numbers. *)
Theorem isIcuMessage_shape (v : value) :
  isIcuMessage v = true <->
  exists props id text,
    v = VObject props
    /\ om_get "i18nId" props = Some (VString id)
    /\ hasSpace id = true
    /\ om_get "formattedDefault" props = Some (VString text)
    /\ match om_get "values" props with
       | None | Some VUndefined => True
       | Some (VObject r) => forallb isStringOrNumber (om_values r) = true
       | Some _ => False
       end.
Proof.
  assert (forall r : list (string * value),
            existsb (fun value => negb (String.eqb (typeof value) "string")
                                  && negb (String.eqb (typeof value) "number"))
              (Object_values (VObject r))
            = negb (forallb isStringOrNumber (om_values r))) as Hvalues.
  { intros r. unfold Object_values, om_values. simpl.
    induction r as [|[k x] r IH]; simpl; [done|].
    rewrite IH, negb_andb. f_equal. by destruct x. }
  split.
  - unfold isIcuMessage. destruct v as [| | | | | |props|]; try done.
    simpl. unfold get_property.
    destruct (om_get "i18nId" props) as [[| | | |id| | |]|] eqn:Hid; try done.
    destruct (om_get "formattedDefault" props) as [[| | | |text| | |]|] eqn:Htext; try done.
    simpl. rewrite idTest_hasSpace. intros Hrest. exists props, id, text.
    destruct (om_get "values" props) as [[| | | | | |r|]|]; simpl in Hrest; try done.
    fold (Object_values (VObject r)) in Hrest. rewrite Hvalues in Hrest.
    by destruct (forallb _ _).
  - intros (props & id & text & -> & Hid & Htest & Htext & Hvals).
    rewrite <- idTest_hasSpace in Htest.
    unfold isIcuMessage. simpl. unfold get_property. rewrite Hid, Htext. simpl.
    destruct (om_get "values" props) as [[| | | | | |r|]|]; simpl; try done.
    fold (Object_values (VObject r)). by rewrite Hvalues, Hvals.
Qed.
End IcuMessageShape.

Section RendererStrings.
Context `{JsNumber} `{!Host}.

Lemma getRendererFormattedStrings_unfold (locale : string) (LOCALE_MESSAGES : Store) :
  getRendererFormattedStrings locale LOCALE_MESSAGES
  = match localeTable LOCALE_MESSAGES locale with
    | None => (Throw (UnsupportedLocale locale), LOCALE_MESSAGES)
    | Some localeMessages =>
        (forEach (filter (fun f => String.prefix "report/" f = true) (om_keys localeMessages))
           (fun icuMessageId strings =>
              '(filename, key) ← getIcuMessageIdParts icuMessageId;
              if negb (endsWith "util.js" filename) then Throw (UnexpectedMessage icuMessageId)
              else Ok (set_property (default "undefined" key)
                         (from_option message "undefined" (om_get icuMessageId localeMessages))
                         strings)) [],
         LOCALE_MESSAGES)
    end.
Proof.
  unfold getRendererFormattedStrings, readLocale, throw, pure, mbind, Op_bind.
  by destruct (localeTable LOCALE_MESSAGES locale).
Qed.

End RendererStrings.

(** ** [_formatPathAsString] *)

Section PathStrings.
#[local] Arguments String.append _ _ : simpl nomatch.

Lemma formatPath_unfold pathInLHR : _formatPathAsString pathInLHR = forEach pathInLHR pathStep "".
Proof. reflexivity. Qed.

Lemma pathStep_writable property acc :
  writable property = true ->
  pathStep property acc = Ok (acc +:+ pathSegment (String.eqb acc "") property).
Proof.
  unfold writable, pathStep, pathSegment. rewrite string_length_0.
  destruct (isLettersOnly property); simpl.
  - intros _. destruct (String.eqb acc "") eqn:E.
    + by apply String.eqb_eq in E as ->.
    + by rewrite string_app_assoc.
  - by intros ->%negb_true_iff.
Qed.

Lemma pathStep_not_writable property acc :
  writable property = false -> pathStep property acc = Throw (CannotHandle property).
Proof.
  unfold writable, pathStep. destruct (isLettersOnly property); [done|]. simpl.
  by intros ->%negb_false_iff.
Qed.

Lemma pathSegment_not_nil first property : pathSegment first property <> "".
Proof.
  unfold pathSegment, isLettersOnly. destruct (String.eqb property "") eqn:E; simpl.
  - done.
  - destruct (allChars isAsciiLetter property); [|done].
    destruct first; [|done]. simpl. intros ->. done.
Qed.

Lemma formatPath_from pathInLHR : forall acc,
  match find (fun property => negb (writable property)) pathInLHR with
  | Some property => forEach pathInLHR pathStep acc = Throw (CannotHandle property)
  | None => forEach pathInLHR pathStep acc
            = Ok (acc +:+ pathSegments (String.eqb acc "") pathInLHR)
  end.
Proof.
  induction pathInLHR as [|property rest IH]; intros acc; simpl.
  - by rewrite string_app_nil_r.
  - destruct (writable property) eqn:Hw; simpl.
    + rewrite pathStep_writable by done. simpl.
      specialize (IH (acc +:+ pathSegment (String.eqb acc "") property)).
      destruct (find _ rest); [done|]. rewrite IH.
      assert (String.eqb (acc +:+ pathSegment (String.eqb acc "") property) "" = false) as ->.
      { apply String.eqb_neq. intros [_ ?]%string_app_eq_nil. by eapply pathSegment_not_nil. }
      by rewrite string_app_assoc.
    + by rewrite pathStep_not_writable.
Qed.

(** X11: [_formatPathAsString] throws for the first property it cannot
    write (one that is not made of letters only and has a closing bracket, a
    quote or white space) and for no other reason; otherwise the path string
    is the segments of the properties one after the other: the name, after a
    dot unless it is first, for a property made of letters, the name in
    brackets for any other. *)
Theorem formatPathAsString_outcome (pathInLHR : list string) :
  match find (fun property => negb (writable property)) pathInLHR with
  | Some property => _formatPathAsString pathInLHR = Throw (CannotHandle property)
  | None => _formatPathAsString pathInLHR = Ok (pathSegments true pathInLHR)
  end.
Proof.
  pose proof (formatPath_from pathInLHR "") as H. rewrite formatPath_unfold.
  by destruct (find _ pathInLHR).
Qed.

Lemma isDigit_not_special (c : ascii) :
  isDigit c = true ->
  isAsciiLetter c = false
  /\ (Ascii.eqb c "]" || Nat.eqb (nat_of_ascii c) 34 || Ascii.eqb c "'" || isWhiteSpace c) = false.
Proof. destruct c as [[] [] [] [] [] [] [] []]; by intros. Qed.

Lemma string_of_uint_digits (d : Decimal.uint) :
  allChars isDigit (NilEmpty.string_of_uint d) = true.
Proof. induction d; simpl; done. Qed.

Lemma indexKey_digits (i : nat) : allChars isDigit (indexKey i) = true.
Proof. apply string_of_uint_digits. Qed.

Lemma digits_not_letters (s : string) : allChars isDigit s = true -> isLettersOnly s = false.
Proof.
  unfold isLettersOnly. destruct s as [|c s]; [done|]. simpl.
  intros [Hc _]%andb_true_iff. by destruct (isDigit_not_special c Hc) as [-> _].
Qed.

Lemma digits_no_bracket (s : string) :
  allChars isDigit s = true -> hasBracketQuoteOrSpace s = false.
Proof.
  intros Hs. unfold hasBracketQuoteOrSpace, anyChar. apply negb_false_iff.
  revert Hs. apply allChars_impl. intros c Hc.
  by destruct (isDigit_not_special c Hc) as [_ ->].
Qed.

(** X12: an array index never stops [_formatPathAsString]; it is written
    in brackets after the string of the path before it. *)
Theorem formatPathAsString_index (pathInLHR : list string) (i : nat) :
  _formatPathAsString (pathInLHR ++ [indexKey i])
  = (pathAsString ← _formatPathAsString pathInLHR;
     Ok (pathAsString +:+ "[" +:+ indexKey i +:+ "]")).
Proof.
  rewrite !formatPath_unfold, forEach_app.
  destruct (forEach pathInLHR pathStep "") as [s|e]; [|done]. simpl.
  unfold pathStep.
  by rewrite (digits_not_letters _ (indexKey_digits i)),
    (digits_no_bracket _ (indexKey_digits i)).
Qed.

(** *** The path string determines the path *)

Lemma letters_split (a : string) : forall b R R',
  allChars isAsciiLetter a = true -> allChars isAsciiLetter b = true ->
  startsWithoutLetter R -> startsWithoutLetter R' ->
  a +:+ R = b +:+ R' -> a = b /\ R = R'.
Proof.
  induction a as [|x a IH]; intros [|y b] R R' Ha Hb HR HR'; simpl in *.
  - done.
  - intros ->. simpl in HR. apply andb_true_iff in Hb as [Hy _]. congruence.
  - intros <-. simpl in HR'. apply andb_true_iff in Ha as [Hx _]. congruence.
  - intros [= -> Heq]. apply andb_true_iff in Ha as [_ Ha], Hb as [_ Hb].
    destruct (IH b R R' Ha Hb HR HR' Heq) as [-> ->]. done.
Qed.

Lemma until_split (c : ascii) (a : string) : forall b R R',
  allChars (fun x => negb (Ascii.eqb x c)) a = true ->
  allChars (fun x => negb (Ascii.eqb x c)) b = true ->
  a +:+ String c R = b +:+ String c R' -> a = b /\ R = R'.
Proof.
  induction a as [|x a IH]; intros [|y b] R R' Ha Hb; simpl in *.
  - by intros [= ->].
  - intros [= <- _]. by rewrite Ascii.eqb_refl in Hb.
  - intros [= -> _]. by rewrite Ascii.eqb_refl in Ha.
  - intros [= -> Heq]. apply andb_true_iff in Ha as [_ Ha], Hb as [_ Hb].
    destruct (IH b R R' Ha Hb Heq) as [-> ->]. done.
Qed.

Lemma pathSegments_start (pathInLHR : list string) :
  startsWithoutLetter (pathSegments false pathInLHR).
Proof.
  destruct pathInLHR as [|property rest]; simpl; [done|].
  unfold pathSegment. by destruct (isLettersOnly property).
Qed.

Lemma not_letters_no_bracket (property : string) :
  writable property = true -> isLettersOnly property = false ->
  allChars (fun x => negb (Ascii.eqb x "]")) property = true.
Proof.
  unfold writable. intros Hw Hl. rewrite Hl in Hw. simpl in Hw.
  apply negb_true_iff in Hw. unfold hasBracketQuoteOrSpace, anyChar in Hw.
  apply negb_false_iff in Hw. revert Hw. apply allChars_impl.
  intros c Hc. apply negb_true_iff in Hc.
  by apply orb_false_iff in Hc as [[[-> _]%orb_false_iff _]%orb_false_iff _].
Qed.

Lemma pathSegments_inj (p : list string) : forall first q,
  forallb writable p = true -> forallb writable q = true ->
  pathSegments first p = pathSegments first q -> p = q.
Proof.
  induction p as [|k r IH]; intros first [|k' r'] Hp Hq; simpl in *.
  - done.
  - intros Heq. symmetry in Heq. apply string_app_eq_nil in Heq as [Heq _].
    by apply pathSegment_not_nil in Heq.
  - intros [Heq _]%string_app_eq_nil. by apply pathSegment_not_nil in Heq.
  - apply andb_true_iff in Hp as [Hk Hr], Hq as [Hk' Hr'].
    pose proof (pathSegments_start r) as HS. pose proof (pathSegments_start r') as HS'.
    unfold pathSegment.
    destruct (isLettersOnly k) eqn:Lk, (isLettersOnly k') eqn:Lk'.
    + assert (k +:+ pathSegments false r = k' +:+ pathSegments false r' ->
              k :: r = k' :: r') as Hgo.
      { unfold isLettersOnly in Lk, Lk'.
        apply andb_true_iff in Lk as [_ Lk], Lk' as [_ Lk'].
        intros [-> Heq]%letters_split; [|done..]. f_equal. by eapply IH. }
      destruct first; simpl; rewrite ?string_app_assoc; simpl; [done|].
      intros [= Heq]. by apply Hgo.
    + unfold isLettersOnly in Lk. apply andb_true_iff in Lk as [Hne Lk].
      destruct k as [|x k]; [done|]. simpl in Lk. apply andb_true_iff in Lk as [Hx _].
      destruct first; simpl; [|done]. intros [= -> _]. done.
    + unfold isLettersOnly in Lk'. apply andb_true_iff in Lk' as [Hne Lk'].
      destruct k' as [|x k']; [done|]. simpl in Lk'. apply andb_true_iff in Lk' as [Hx _].
      destruct first; simpl; [|done]. intros [= <- _]. done.
    + rewrite !string_app_assoc. simpl. intros [= Heq].
      rewrite ?string_app_assoc in Heq. simpl in Heq.
      apply until_split in Heq as [-> Heq]; [|by apply not_letters_no_bracket..].
      f_equal. by eapply IH.
Qed.

Lemma formatPath_Ok (pathInLHR : list string) (pathAsString : string) :
  _formatPathAsString pathInLHR = Ok pathAsString ->
  forallb writable pathInLHR = true /\ pathAsString = pathSegments true pathInLHR.
Proof.
  pose proof (formatPath_from pathInLHR "") as Hp. rewrite formatPath_unfold. intros Hs.
  destruct (find _ pathInLHR) eqn:Hfind; [congruence|]. split; [|simpl in Hp; congruence].
  apply forallb_forall. intros x Hx. by apply negb_false_iff, (find_none _ _ Hfind).
Qed.

(** X13: two paths that [_formatPathAsString] writes as the same string
    are the same path. *)
Theorem formatPathAsString_inj (p q : list string) (pathAsString : string) :
  _formatPathAsString p = Ok pathAsString ->
  _formatPathAsString q = Ok pathAsString ->
  p = q.
Proof.
  intros [Hp ->]%formatPath_Ok [Hq Heq]%formatPath_Ok. by apply (pathSegments_inj p true q).
Qed.
End PathStrings.

(** ** [replaceIcuMessages]: documents without messages, and the walk that stops *)

Lemma find_app {A} (f : A -> bool) (l1 l2 : list A) :
  find f (l1 ++ l2) = match find f l1 with Some x => Some x | None => find f l2 end.
Proof. induction l1 as [|x l1 IH]; simpl; [done|]. by destruct (f x). Qed.

Lemma find_negb_None {A} (f : A -> bool) (l : list A) :
  find (fun x => negb (f x)) l = None <-> forallb f l = true.
Proof.
  induction l as [|x l IH]; simpl; [done|].
  destruct (f x); simpl; [done|]. split; done.
Qed.

Section ReplaceMore.
Context `{JsNumber} `{!Host}.

Variables (locale : string) (LOCALE_MESSAGES : Store).

#[local] Abbreviation ok := (locationOk locale LOCALE_MESSAGES).

#[local] Abbreviation record := (recordLocation pathText).

#[local] Abbreviation text := (formattedText locale LOCALE_MESSAGES).

Lemma localized_no_locations (v : value) :
  forall pathInLHR, icuLocations v pathInLHR = [] -> localized text v = v.
Proof.
  induction v as [v Harr Hobj | items IH | props IH] using value_nested_ind;
    intros pathInLHR Hnone.
  - destruct v; try done. by destruct (Hobj props).
  - simpl in *. f_equal. revert Hnone. generalize 0 as i.
    induction IH as [|x items Hx _ IHitems]; intros i; simpl; [done|].
    intros [Hhere Hrest]%app_eq_nil.
    destruct (isIcuMessage x); [done|]. f_equal; [by eapply Hx | by eapply IHitems].
  - simpl in *. f_equal. revert Hnone.
    induction IH as [|[k x] props Hx _ IHprops]; simpl; [done|].
    intros [Hhere Hrest]%app_eq_nil. simpl in Hx.
    destruct (isIcuMessage x); [done|]. f_equal; [f_equal; by eapply Hx | by eapply IHprops].
Qed.

(** X14: on a document that holds no [LH.IcuMessage] as a property value
    (a string, a number, [null], an object tree of plain data),
    [replaceIcuMessages] returns the empty map and leaves the document as it
    is, whatever the locale, supported or not. *)
Theorem replaceIcuMessages_no_message (inputObject : value) :
  icuLocations inputObject [] = [] ->
  replaceIcuMessages inputObject locale LOCALE_MESSAGES = (Ok ∅, inputObject, LOCALE_MESSAGES).
Proof.
  intros Hnone. unfold replaceIcuMessages.
  rewrite (replaceInObject_ok locale LOCALE_MESSAGES) by (by rewrite Hnone).
  rewrite Hnone. simpl. by rewrite (localized_no_locations _ [] Hnone).
Qed.

Lemma visitProperty_message_error pathInLHR property x recurse icuMessagePaths :
  isIcuMessage x = true -> ok (pathInLHR ++ [property], x) = false ->
  exists e,
    locationError locale LOCALE_MESSAGES (pathInLHR ++ [property], x) = Some e
    /\ visitProperty locale pathInLHR property x recurse icuMessagePaths LOCALE_MESSAGES
       = (x, icuMessagePaths, LOCALE_MESSAGES, Throw e).
Proof.
  intros Hicu Hok. unfold locationOk in Hok. unfold locationError. simpl in *.
  unfold visitProperty. rewrite Hicu.
  pose proof (getFormatted_store x locale LOCALE_MESSAGES) as Hst.
  destruct (getFormatted x locale LOCALE_MESSAGES) as [[s|e] st]; simpl in *; subst st.
  - destruct (_formatPathAsString (pathInLHR ++ [property])) as [|e]; [done|]. by exists e.
  - by exists e.
Qed.

End ReplaceMore.

Section PartwayFacts.
Context `{JsNumber}.

Variable text : value -> string.

Lemma icuLocations_length (v : value) :
  forall p q, length (icuLocations v p) = length (icuLocations v q).
Proof.
  induction v as [v Harr Hobj | items IH | props IH] using value_nested_ind; intros p q.
  - destruct v; try done. by destruct (Hobj props).
  - simpl. generalize 0 as i.
    induction IH as [|x items Hx _ IHitems]; intros i; simpl; [done|].
    rewrite !length_app, (IHitems (S i)). f_equal.
    destruct (isIcuMessage x); [done | apply Hx].
  - simpl. induction IH as [|[k x] props Hx _ IHprops]; simpl; [done|].
    rewrite !length_app, IHprops. f_equal. simpl in Hx.
    destruct (isIcuMessage x); [done | apply Hx].
Qed.

Lemma firstProps_0 (visit : nat -> value -> value) (props : list (string * value)) :
  Forall (fun kx => visit 0 kx.2 = kx.2) props -> firstProps text visit 0 props = props.
Proof.
  induction 1 as [|[k x] props Hx _ IH]; simpl; [done|].
  destruct (isIcuMessage x); [done|]. simpl in Hx. rewrite Hx. f_equal. exact IH.
Qed.

Lemma firstItems_0 (visit : nat -> value -> value) (items : list value) :
  Forall (fun x => visit 0 x = x) items -> firstItems text visit 0 items = items.
Proof.
  induction 1 as [|x items Hx _ IH]; simpl; [done|].
  destruct (isIcuMessage x); [done|]. rewrite Hx. f_equal. exact IH.
Qed.

Lemma localizedFirst_0 (v : value) : localizedFirst text 0 v = v.
Proof.
  induction v as [v Harr Hobj | items IH | props IH] using value_nested_ind.
  - destruct v; try done. by destruct (Hobj props).
  - simpl. f_equal. by apply firstItems_0.
  - simpl. f_equal. by apply firstProps_0.
Qed.

Lemma localizedFirst_all (v : value) :
  forall n p, length (icuLocations v p) <= n -> localizedFirst text n v = localized text v.
Proof.
  induction v as [v Harr Hobj | items IH | props IH] using value_nested_ind; intros n p.
  - destruct v; try done. by destruct (Hobj props).
  - simpl. intros Hn. f_equal. revert n Hn. generalize 0 as i.
    induction IH as [|x items Hx _ IHitems]; intros i n; simpl; [done|].
    rewrite length_app. intros Hn.
    destruct (isIcuMessage x).
    + destruct n as [|n]; simpl in Hn; [lia|]. f_equal. apply (IHitems (S i)). lia.
    + rewrite (Hx n (p ++ [indexKey i])) by lia. f_equal. apply (IHitems (S i)).
      rewrite (icuLocations_length x [] (p ++ [indexKey i])). lia.
  - simpl. intros Hn. f_equal. revert n Hn.
    induction IH as [|[k x] props Hx _ IHprops]; intros n; simpl; [done|].
    rewrite length_app. intros Hn. simpl in Hx.
    destruct (isIcuMessage x).
    + destruct n as [|n]; simpl in Hn; [lia|]. f_equal. apply IHprops. lia.
    + rewrite (Hx n (p ++ [k])) by lia. f_equal. apply IHprops.
      rewrite (icuLocations_length x [] (p ++ [k])). lia.
Qed.
Lemma firstProps_places (p : list string) (props : list (string * value)) :
  NoDup (om_keys props) ->
  Forall (fun kx => forall n q i location,
            icuLocations kx.2 q !! i = Some location ->
            exists rest, location.1 = q ++ rest
                         /\ valueAt rest (localizedFirst text n kx.2)
                            = Some (placeAfter text n i location)) props ->
  forall n i location,
    flat_map (fun kx => if isIcuMessage kx.2 then [(p ++ [kx.1], kx.2)]
                        else icuLocations kx.2 (p ++ [kx.1])) props !! i = Some location ->
    exists k rest,
      location.1 = p ++ k :: rest /\ k ∈ om_keys props
      /\ (x ← om_get k (firstProps text (fun n x => localizedFirst text n x) n props);
          valueAt rest x) = Some (placeAfter text n i location).
Proof.
  intros Hnd IH. induction IH as [|[k0 x] props Hx _ IHprops]; intros n i location; [done|].
  unfold om_keys in Hnd. cbn [map fst] in Hnd. apply NoDup_cons in Hnd as [Hk0 Hnd].
  specialize (IHprops Hnd). cbn [flat_map firstProps fst snd] in *.
  assert (forall k (y : value) (tail : list (string * value)),
            k ∈ om_keys props -> om_get k ((k0, y) :: tail) = om_get k tail) as Hskip.
  { intros k y tail Hk. simpl. destruct (String.eqb k k0) eqn:E; [|done].
    apply String.eqb_eq in E. by subst. }
  destruct (isIcuMessage x) eqn:Hicu.
  - destruct i as [|i]; simpl.
    + intros [= <-]. exists k0, []. split_and!; [done | by left |].
      unfold placeAfter. destruct n as [|n]; simpl; by rewrite String.eqb_refl.
    + intros Hloc. destruct n as [|n].
      * destruct (IHprops 0 i location Hloc) as (k & rest & Hpath & Hk & Hat).
        exists k, rest. split_and!; [done | by right |].
        rewrite Hskip by done.
        rewrite firstProps_0 in Hat; [done|].
        apply Forall_forall. intros y _. apply localizedFirst_0.
      * destruct (IHprops n i location Hloc) as (k & rest & Hpath & Hk & Hat).
        exists k, rest. split_and!; [done | by right |].
        by rewrite Hskip.
  - intros Hloc.
    destruct (decide (i < length (icuLocations x (p ++ [k0])))) as [Hi|Hi].
    + rewrite lookup_app_l in Hloc by done.
      destruct (Hx n (p ++ [k0]) i location Hloc) as (rest & Hpath & Hat).
      exists k0, rest. split_and!; [by rewrite Hpath, <- app_assoc | by left |].
      simpl. by rewrite String.eqb_refl.
    + rewrite lookup_app_r in Hloc by lia.
      rewrite (icuLocations_length x [] (p ++ [k0])).
      destruct (IHprops (n - length (icuLocations x (p ++ [k0])))
                  (i - length (icuLocations x (p ++ [k0]))) location Hloc)
        as (k & rest & Hpath & Hk & Hat).
      exists k, rest. split_and!; [done | by right |].
      rewrite Hskip, Hat by done. f_equal. unfold placeAfter.
      destruct (Nat.ltb_spec (i - length (icuLocations x (p ++ [k0])))
                  (n - length (icuLocations x (p ++ [k0])))),
        (Nat.ltb_spec i n); try done; lia.
Qed.

Lemma firstItems_places (p : list string) (items : list value) :
  Forall (fun x => forall n q i location,
            icuLocations x q !! i = Some location ->
            exists rest, location.1 = q ++ rest
                         /\ valueAt rest (localizedFirst text n x)
                            = Some (placeAfter text n i location)) items ->
  forall n i j0 location,
    itemsFrom (fun k x => if isIcuMessage x then [(p ++ [k], x)]
                          else icuLocations x (p ++ [k])) j0 items !! i = Some location ->
    exists j rest,
      location.1 = p ++ indexKey (j0 + j) :: rest
      /\ (x ← firstItems text (fun n x => localizedFirst text n x) n items !! j;
          valueAt rest x) = Some (placeAfter text n i location).
Proof.
  intros IH. induction IH as [|x items Hx _ IHitems]; intros n i j0 location; [done|].
  cbn [itemsFrom firstItems].
  destruct (isIcuMessage x) eqn:Hicu.
  - destruct i as [|i]; simpl.
    + intros [= <-]. exists 0, []. split_and!; [by rewrite Nat.add_0_r |].
      unfold placeAfter. by destruct n as [|n].
    + intros Hloc. destruct n as [|n].
      * destruct (IHitems 0 i (S j0) location Hloc) as (j & rest & Hpath & Hat).
        exists (S j), rest. split_and!; [by rewrite Nat.add_succ_r |].
        rewrite firstItems_0 in Hat; [done|].
        apply Forall_forall. intros y _. apply localizedFirst_0.
      * destruct (IHitems n i (S j0) location Hloc) as (j & rest & Hpath & Hat).
        exists (S j), rest. split_and!; [by rewrite Nat.add_succ_r | done].
  - intros Hloc.
    destruct (decide (i < length (icuLocations x (p ++ [indexKey j0])))) as [Hi|Hi].
    + rewrite lookup_app_l in Hloc by done.
      destruct (Hx n (p ++ [indexKey j0]) i location Hloc) as (rest & Hpath & Hat).
      exists 0, rest. split_and!; [by rewrite Hpath, <- app_assoc, Nat.add_0_r | done].
    + rewrite lookup_app_r in Hloc by lia.
      rewrite (icuLocations_length x [] (p ++ [indexKey j0])).
      destruct (IHitems (n - length (icuLocations x (p ++ [indexKey j0])))
                  (i - length (icuLocations x (p ++ [indexKey j0]))) (S j0) location Hloc)
        as (j & rest & Hpath & Hat).
      exists (S j), rest. split_and!; [by rewrite Nat.add_succ_r |].
      etrans; [exact Hat|]. f_equal. unfold placeAfter.
      destruct (Nat.ltb_spec (i - length (icuLocations x (p ++ [indexKey j0])))
                  (n - length (icuLocations x (p ++ [indexKey j0])))),
        (Nat.ltb_spec i n); try done; lia.
Qed.

(** The path of each message leads, in the tree with the first [n] messages
    replaced, to its string when it is one of them and to the message
    otherwise. *)
Lemma localizedFirst_valueAt (v : value) :
  uniqueKeys v ->
  forall n p i location,
    icuLocations v p !! i = Some location ->
    exists rest,
      location.1 = p ++ rest
      /\ valueAt rest (localizedFirst text n v) = Some (placeAfter text n i location).
Proof.
  induction v as [v Harr Hobj | items IH | props IH] using value_nested_ind;
    intros Hu n p i location Hloc.
  - destruct v; try done. by destruct (Hobj props).
  - apply uniqueKeys_items in Hu.
    assert (Forall (fun x => forall n q i location,
                      icuLocations x q !! i = Some location ->
                      exists rest, location.1 = q ++ rest
                                   /\ valueAt rest (localizedFirst text n x)
                                      = Some (placeAfter text n i location)) items) as Hall.
    { rewrite Forall_forall in IH, Hu |- *. intros x Hx. by apply IH, Hu. }
    destruct (firstItems_places p items Hall n i 0 location Hloc) as (j & rest & Hpath & Hat).
    exists (indexKey j :: rest). split; [done|].
    cbn [localizedFirst valueAt].
    destruct (firstItems _ _ n items !! j) as [y|] eqn:Hy; [|done].
    by rewrite (om_get_item _ _ _ Hy).
  - apply uniqueKeys_props in Hu as [Hnd Hu].
    assert (Forall (fun kx => forall n q i location,
                      icuLocations kx.2 q !! i = Some location ->
                      exists rest, location.1 = q ++ rest
                                   /\ valueAt rest (localizedFirst text n kx.2)
                                      = Some (placeAfter text n i location)) props) as Hall.
    { rewrite Forall_forall in IH, Hu |- *. intros kx Hkx. by apply IH, Hu. }
    destruct (firstProps_places p props Hnd Hall n i location Hloc)
      as (k & rest & Hpath & _ & Hat).
    exists (k :: rest). split; [done|]. by cbn [localizedFirst valueAt Object_entries].
Qed.
End PartwayFacts.

Section Partway.
Context `{JsNumber} `{!Host}.

Variables (locale : string) (LOCALE_MESSAGES : Store).

#[local] Abbreviation ok := (locationOk locale LOCALE_MESSAGES).

#[local] Abbreviation record := (recordLocation pathText).

#[local] Abbreviation text := (formattedText locale LOCALE_MESSAGES).

#[local] Abbreviation prefix := (okPrefix locale LOCALE_MESSAGES).

#[local] Abbreviation outcome := (walkOutcome locale LOCALE_MESSAGES).

Lemma okPrefix_all (locations : list (list string * value)) :
  forallb ok locations = true -> prefix locations = locations.
Proof.
  induction locations as [|l locations IH]; simpl; [done|].
  intros [-> Hrest]%andb_true_iff. by rewrite IH.
Qed.

Lemma okPrefix_app (a b : list (list string * value)) :
  prefix (a ++ b) = if forallb ok a then a ++ prefix b else prefix a.
Proof.
  induction a as [|l a IH]; simpl; [done|].
  destruct (ok l); simpl; [|done]. rewrite IH. by destruct (forallb ok a).
Qed.

Lemma okPrefix_short (locations : list (list string * value)) :
  forallb ok locations = false -> length (prefix locations) < length locations.
Proof.
  induction locations as [|l locations IH]; simpl; [done|].
  destruct (ok l); simpl; [|lia]. intros Hrest%IH. lia.
Qed.

Lemma walkOutcome_app (a b : list (list string * value)) :
  outcome (a ++ b) = if forallb ok a then outcome b else outcome a.
Proof.
  unfold walkOutcome. rewrite find_app.
  destruct (forallb ok a) eqn:Ha.
  - apply find_negb_None in Ha. by rewrite Ha.
  - destruct (find _ a) eqn:Hfind; [done|].
    apply find_negb_None in Hfind. congruence.
Qed.

Lemma walkOutcome_ok (locations : list (list string * value)) :
  forallb ok locations = true -> outcome locations = Ok tt.
Proof. intros Hok%find_negb_None. unfold walkOutcome. by rewrite Hok. Qed.

Lemma locationError_not_ok (location : list string * value) :
  ok location = false -> is_Some (locationError locale LOCALE_MESSAGES location).
Proof.
  unfold locationOk, locationError.
  destruct (getFormatted location.2 locale LOCALE_MESSAGES).1; simpl; [|by eexists].
  destruct (_formatPathAsString location.1); [done | by eexists].
Qed.

Lemma walkOutcome_throws (locations : list (list string * value)) :
  forallb ok locations = false -> exists e, outcome locations = Throw e.
Proof.
  intros Hok. unfold walkOutcome.
  destruct (find _ locations) as [l|] eqn:Hfind.
  - apply find_some in Hfind as [_ Hl%negb_true_iff].
    destruct (locationError_not_ok l Hl) as [e ->]. by exists e.
  - apply find_negb_None in Hfind. congruence.
Qed.

(** The walk, wherever it stops: the messages it got through are replaced
    and recorded, the others are as they were. *)
Lemma replaceInObject_partway (v : value) :
  forall pathInLHR icuMessagePaths,
    replaceInObject locale v pathInLHR icuMessagePaths LOCALE_MESSAGES
    = (localizedFirst text (length (prefix (icuLocations v pathInLHR))) v,
       fold_left record (prefix (icuLocations v pathInLHR)) icuMessagePaths,
       LOCALE_MESSAGES,
       outcome (icuLocations v pathInLHR)).
Proof.
  induction v as [v Harr Hobj | items IH | props IH] using value_nested_ind;
    intros pathInLHR icuMessagePaths.
  - rewrite replaceInObject_atom by done. destruct v; try done. by destruct (Hobj props).
  - rewrite replaceInObject_array. cbn [icuLocations localizedFirst].
    enough (forall i icuMessagePaths,
              let locations :=
                itemsFrom (fun k x => if isIcuMessage x then [(pathInLHR ++ [k], x)]
                                      else icuLocations x (pathInLHR ++ [k])) i items in
              walkItems (fun property x =>
                           visitProperty locale pathInLHR property x
                             (replaceInObject locale x (pathInLHR ++ [property])))
                i items icuMessagePaths LOCALE_MESSAGES
              = (firstItems text (fun n x => localizedFirst text n x)
                   (length (prefix locations)) items,
                 fold_left record (prefix locations) icuMessagePaths,
                 LOCALE_MESSAGES, outcome locations)) as Hwalk
      by (by rewrite Hwalk).
    clear icuMessagePaths.
    induction IH as [|x items Hx _ IHitems]; intros i icuMessagePaths; [done|].
    cbn [walkItems itemsFrom firstItems]. cbv zeta.
    rewrite okPrefix_app, walkOutcome_app.
    destruct (isIcuMessage x) eqn:Hicu.
    + cbn [forallb okPrefix]. rewrite andb_true_r.
      destruct (ok (pathInLHR ++ [indexKey i], x)) eqn:Hhere.
      * rewrite (visitProperty_message locale LOCALE_MESSAGES) by done.
        rewrite (IHitems (S i)). by cbn [app length fold_left].
      * destruct (visitProperty_message_error locale LOCALE_MESSAGES pathInLHR (indexKey i) x
                    (replaceInObject locale x (pathInLHR ++ [indexKey i]))
                    icuMessagePaths Hicu Hhere) as (e & He & ->).
        cbn [length fold_left]. unfold walkOutcome. cbn [find]. rewrite Hhere. cbn [negb]. by rewrite He.
    + rewrite visitProperty_other, Hx by done.
      destruct (forallb ok (icuLocations x (pathInLHR ++ [indexKey i]))) eqn:Hhere.
      * rewrite (okPrefix_all _ Hhere), (walkOutcome_ok _ Hhere).
        rewrite (IHitems (S i)), length_app, fold_left_app.
        rewrite (icuLocations_length x [] (pathInLHR ++ [indexKey i])).
        rewrite Nat.add_comm, Nat.add_sub, Nat.add_comm.
        by rewrite !(localizedFirst_all text x _ (pathInLHR ++ [indexKey i])) by lia.
      * destruct (walkOutcome_throws _ Hhere) as [e ->].
        pose proof (okPrefix_short _ Hhere) as Hshort.
        rewrite (icuLocations_length x [] (pathInLHR ++ [indexKey i])).
        replace (_ - _) with 0 by lia.
        rewrite firstItems_0; [done|].
        apply Forall_forall. intros y _. apply localizedFirst_0.
  - rewrite replaceInObject_object. cbn [icuLocations localizedFirst].
    enough (forall icuMessagePaths,
              let locations :=
                flat_map (fun kx => if isIcuMessage kx.2 then [(pathInLHR ++ [kx.1], kx.2)]
                                    else icuLocations kx.2 (pathInLHR ++ [kx.1])) props in
              walkProps (fun property x =>
                           visitProperty locale pathInLHR property x
                             (replaceInObject locale x (pathInLHR ++ [property])))
                props icuMessagePaths LOCALE_MESSAGES
              = (firstProps text (fun n x => localizedFirst text n x)
                   (length (prefix locations)) props,
                 fold_left record (prefix locations) icuMessagePaths,
                 LOCALE_MESSAGES, outcome locations)) as Hwalk
      by (by rewrite Hwalk).
    clear icuMessagePaths.
    induction IH as [|[k x] props Hx _ IHprops]; intros icuMessagePaths; [done|].
    cbn [walkProps flat_map firstProps fst snd]. cbv zeta. simpl in Hx.
    rewrite okPrefix_app, walkOutcome_app.
    destruct (isIcuMessage x) eqn:Hicu.
    + cbn [forallb okPrefix]. rewrite andb_true_r.
      destruct (ok (pathInLHR ++ [k], x)) eqn:Hhere.
      * rewrite (visitProperty_message locale LOCALE_MESSAGES) by done.
        rewrite IHprops. by cbn [app length fold_left].
      * destruct (visitProperty_message_error locale LOCALE_MESSAGES pathInLHR k x
                    (replaceInObject locale x (pathInLHR ++ [k]))
                    icuMessagePaths Hicu Hhere) as (e & He & ->).
        cbn [length fold_left]. unfold walkOutcome. cbn [find]. rewrite Hhere. cbn [negb]. by rewrite He.
    + rewrite visitProperty_other, Hx by done.
      destruct (forallb ok (icuLocations x (pathInLHR ++ [k]))) eqn:Hhere.
      * rewrite (okPrefix_all _ Hhere), (walkOutcome_ok _ Hhere).
        rewrite IHprops, length_app, fold_left_app.
        rewrite (icuLocations_length x [] (pathInLHR ++ [k])).
        rewrite Nat.add_comm, Nat.add_sub, Nat.add_comm.
        by rewrite !(localizedFirst_all text x _ (pathInLHR ++ [k])) by lia.
      * destruct (walkOutcome_throws _ Hhere) as [e ->].
        pose proof (okPrefix_short _ Hhere) as Hshort.
        rewrite (icuLocations_length x [] (pathInLHR ++ [k])).
        replace (_ - _) with 0 by lia.
        rewrite firstProps_0; [done|].
        apply Forall_forall. intros y _. apply localizedFirst_0.
Qed.

Lemma okPrefix_stops (locations : list (list string * value))
    (location : list string * value) :
  find (fun location => negb (ok location)) locations = Some location ->
  locations !! length (prefix locations) = Some location.
Proof.
  induction locations as [|l locations IH]; simpl; [done|].
  destruct (ok l); simpl; [apply IH | done].
Qed.

(** X15: when some message does not format or the path to it cannot be
    written, [replaceIcuMessages] throws the error of the first such
    message in the order of the walk (the error of [getFormatted] if it has
    one, else the one of [_formatPathAsString]) and leaves the table of
    locale messages as it is; in the input object the messages before that
    one are replaced by their strings and nothing else is changed: the path
    of each earlier message leads to its string, the path of the failing
    message and of each later one leads to the message still. *)
Theorem replaceIcuMessages_throws_partway
    (inputObject : value) (location : list string * value) :
  find (fun location => negb (ok location)) (icuLocations inputObject []) = Some location ->
  let locations := icuLocations inputObject [] in
  let n := length (prefix locations) in
  exists e,
    locationError locale LOCALE_MESSAGES location = Some e
    /\ replaceIcuMessages inputObject locale LOCALE_MESSAGES
       = (Throw e, localizedFirst text n inputObject, LOCALE_MESSAGES)
    /\ locations !! n = Some location
    /\ (uniqueKeys inputObject ->
        forall i other,
          locations !! i = Some other ->
          valueAt other.1 (localizedFirst text n inputObject)
          = Some (if Nat.ltb i n then VString (text other.2) else other.2)).
Proof.
  intros Hfind locations n. subst locations n.
  unfold replaceIcuMessages. rewrite replaceInObject_partway.
  unfold walkOutcome. rewrite Hfind.
  pose proof (find_some _ _ Hfind) as [_ Hl%negb_true_iff].
  destruct (locationError_not_ok location Hl) as [e ->]. exists e.
  split_and!; [done | done | by apply okPrefix_stops |].
  intros Hu i other Hother.
  destruct (localizedFirst_valueAt text inputObject Hu
              (length (prefix (icuLocations inputObject []))) [] i other Hother)
    as (rest & Hpath & Hat).
  simpl in Hpath. by rewrite Hpath.
Qed.

(** X16: for a locale without a table of messages and whose name is none
    that every object inherits, so that [LOCALE_MESSAGES[locale]] is
    [undefined], [replaceIcuMessages] throws the error of an unsupported
    locale as soon as the document holds a message, and returns the empty
    map when it holds none; the document is unchanged either way. *)
Theorem replaceIcuMessages_unsupported_locale (inputObject : value) :
  LOCALE_MESSAGES !! locale = None ->
  isInherited locale = false ->
  replaceIcuMessages inputObject locale LOCALE_MESSAGES
  = (match icuLocations inputObject [] with
     | [] => Ok ∅
     | _ => Throw (UnsupportedLocale locale)
     end, inputObject, LOCALE_MESSAGES).
Proof.
  intros Hlocale Hname. unfold replaceIcuMessages. rewrite replaceInObject_partway.
  pose proof (icuLocations_messages inputObject []) as Hmessages.
  destruct (icuLocations inputObject []) as [|location locations];
    [simpl; by rewrite localizedFirst_0|].
  assert (getFormatted location.2 locale LOCALE_MESSAGES
          = (Throw (UnsupportedLocale locale), LOCALE_MESSAGES)) as Hthrow.
  { unfold getFormatted, _localizeIcuMessage, readLocale, localeTable, mbind, Op_bind, throw.
    rewrite (Hmessages location) by left. by rewrite Hlocale, Hname. }
  assert (ok location = false) as Hok by (unfold locationOk; by rewrite Hthrow).
  unfold walkOutcome, locationError. cbn [okPrefix find]. rewrite Hok. cbn [negb].
  rewrite Hthrow. simpl.
  by rewrite localizedFirst_0.
Qed.
End Partway.

(** ** The recorded paths tell the locations apart *)

Section ReplacePaths.
Context `{JsNumber} `{!Host}.

Lemma icuLocations_under (v : value) (prefix : list string) (location : list string * value) :
  uniqueKeys v -> location ∈ icuLocations v prefix ->
  exists rest, location.1 = prefix ++ rest.
Proof.
  intros Hu Hin.
  destruct (icuLocations_valueAt (fun _ => "") v prefix location Hu Hin) as (rest & Hrest & _).
  by exists rest.
Qed.

Lemma visited_under (x : value) (q : list string) (location : list string * value) :
  uniqueKeys x ->
  location ∈ (if isIcuMessage x then [(q, x)] else icuLocations x q) ->
  exists rest, location.1 = q ++ rest.
Proof.
  intros Hu. destruct (isIcuMessage x).
  - intros ->%list_elem_of_singleton. exists []. by rewrite app_nil_r.
  - by apply icuLocations_under.
Qed.

Lemma icuLocations_NoDup (v : value) :
  forall pathInLHR, uniqueKeys v -> NoDup (fst <$> icuLocations v pathInLHR).
Proof.
  induction v as [v Harr Hobj | items IH | props IH] using value_nested_ind;
    intros pathInLHR Hu.
  - destruct v; try done; try (by constructor). by destruct (Hobj props).
  - apply uniqueKeys_items in Hu. simpl.
    generalize 0 as i.
    induction IH as [|x items Hx _ IHitems]; intros i; simpl; [constructor|].
    apply Forall_cons in Hu as [Hux Hu].
    rewrite fmap_app. apply NoDup_app. split_and!.
    + destruct (isIcuMessage x); [apply NoDup_singleton | by apply Hx].
    + intros path (l1 & -> & Hl1)%list_elem_of_fmap (l2 & Heq & Hl2)%list_elem_of_fmap.
      apply (visited_under x) in Hl1 as [r1 Hr1]; [|done].
      apply itemsFrom_elem_of in Hl2 as (j & y & Hy & Hl2).
      apply (visited_under y) in Hl2 as [r2 Hr2].
      2: { rewrite Forall_forall in Hu. apply Hu. by eapply list_elem_of_lookup_2. }
      rewrite Hr1, Hr2, <- !app_assoc in Heq. apply app_inv_head in Heq.
      injection Heq as Heq%indexKey_inj _. lia.
    + by apply IHitems.
  - apply uniqueKeys_props in Hu as [Hnd Hu]. simpl.
    induction IH as [|[k x] props Hx _ IHprops]; simpl; [constructor|].
    apply Forall_cons in Hu as [Hux Hu]. simpl in Hux, Hx.
    unfold om_keys in Hnd. simpl in Hnd. apply NoDup_cons in Hnd as [Hk Hnd].
    rewrite fmap_app. apply NoDup_app. split_and!.
    + destruct (isIcuMessage x); [apply NoDup_singleton | by apply Hx].
    + intros path (l1 & -> & Hl1)%list_elem_of_fmap (l2 & Heq & Hl2)%list_elem_of_fmap.
      apply (visited_under x) in Hl1 as [r1 Hr1]; [|done].
      apply list_elem_of_In, in_flat_map in Hl2 as ([k' y] & Hy & Hl2).
      apply list_elem_of_In in Hy, Hl2. simpl in Hl2.
      apply (visited_under y) in Hl2 as [r2 Hr2].
      2: { rewrite Forall_forall in Hu. by apply (Hu (k', y)). }
      rewrite Hr1, Hr2, <- !app_assoc in Heq. apply app_inv_head in Heq.
      injection Heq as -> _. apply Hk. apply list_elem_of_fmap. by exists (k', y).
    + by apply IHprops.
Qed.

Lemma pathEntry_path (location : list string * value) :
  entryPath (pathEntry pathText location) = pathText location.1.
Proof. unfold pathEntry. by destruct (values _). Qed.

(** X17: when [replaceIcuMessages] returns, on a document in which no
    object has two properties of one name, no two entries of the returned
    map hold the same path: entries with the same path are the same entry
    of the same [i18nId]. *)
Theorem replaceIcuMessages_paths_distinct
    (inputObject : value) (locale : string) (LOCALE_MESSAGES : Store)
    (icuMessagePaths : IcuMessagePaths) (inputObject' : value) (LOCALE_MESSAGES' : Store)
    (id1 id2 : string) (entries1 entries2 : list IcuMessagePath) (i j : nat)
    (entry1 entry2 : IcuMessagePath) :
  uniqueKeys inputObject ->
  replaceIcuMessages inputObject locale LOCALE_MESSAGES
    = (Ok icuMessagePaths, inputObject', LOCALE_MESSAGES') ->
  icuMessagePaths !! id1 = Some entries1 -> entries1 !! i = Some entry1 ->
  icuMessagePaths !! id2 = Some entries2 -> entries2 !! j = Some entry2 ->
  entryPath entry1 = entryPath entry2 ->
  id1 = id2 /\ i = j.
Proof.
  intros Hu Hcall H1 Hi H2 Hj Hpath.
  set (locations := icuLocations inputObject []) in *.
  assert (forallb (locationOk locale LOCALE_MESSAGES) locations = true) as Hok.
  { destruct (forallb _ locations) eqn:E; [done|].
    unfold replaceIcuMessages in Hcall.
    destruct (replaceInObject_throws locale LOCALE_MESSAGES inputObject [] ∅ E)
      as (v' & paths' & e & Hthrow).
    by rewrite Hthrow in Hcall. }
  unfold replaceIcuMessages in Hcall.
  rewrite (replaceInObject_ok locale LOCALE_MESSAGES) in Hcall by done.
  injection Hcall as <- _ _.
  fold locations in H1, H2. rewrite recorded_lookup, lookup_empty in H1, H2.
  assert (forall new entries : list IcuMessagePath,
            match new with
            | [] => None
            | y :: l => Some (default [] None ++ y :: l)
            end = Some entries -> entries = new) as Hentries
    by (intros [|] ?; simpl; congruence).
  apply Hentries in H1, H2. subst entries1 entries2. clear Hentries.
  apply list_lookup_fmap_Some in Hi as (l1 & -> & Hl1), Hj as (l2 & -> & Hl2).
  rewrite !pathEntry_path in Hpath.
  pose proof (list_elem_of_lookup_2 _ _ _ Hl1) as [Hid1 Hin1]%list_elem_of_filter.
  pose proof (list_elem_of_lookup_2 _ _ _ Hl2) as [Hid2 Hin2]%list_elem_of_filter.
  pose proof (icuLocations_NoDup inputObject [] Hu) as Hnd. fold locations in Hnd.
  assert (l1.1 = l2.1) as Hsame.
  { rewrite forallb_forall in Hok.
    pose proof (Hok l1 (proj1 (list_elem_of_In _ _) Hin1)) as [_ Hp1]%andb_true_iff.
    pose proof (Hok l2 (proj1 (list_elem_of_In _ _) Hin2)) as [_ Hp2]%andb_true_iff.
    unfold pathText in Hpath.
    destruct (_formatPathAsString l1.1) as [s1|] eqn:E1; [|done].
    destruct (_formatPathAsString l2.1) as [s2|] eqn:E2; [|done].
    subst s2. apply formatPath_Ok in E1 as [Hw1 ->], E2 as [Hw2 Heq].
    by apply (pathSegments_inj _ true). }
  assert (l1 = l2) as <-.
  { apply list_elem_of_lookup_1 in Hin1 as [n1 Hn1], Hin2 as [n2 Hn2].
    assert (n1 = n2) as <-.
    { apply (NoDup_lookup _ _ _ l1.1 Hnd); rewrite list_lookup_fmap.
      - by rewrite Hn1.
      - by rewrite Hn2, Hsame. }
    congruence. }
  split; [congruence|]. subst id1 id2.
  apply (NoDup_lookup _ _ _ l1 (NoDup_filter _ _ (NoDup_fmap_1 _ _ Hnd)) Hl1 Hl2).
Qed.
End ReplacePaths.

(** ** The order of [Array.prototype.sort] on strings *)

Lemma ascii_compare_Lt_trans (a b c : ascii) :
  Ascii.compare a b = Lt -> Ascii.compare b c = Lt -> Ascii.compare a c = Lt.
Proof.
  unfold Ascii.compare. rewrite !N.compare_lt_iff. lia.
Qed.

Lemma string_compare_trans (s1 : string) : forall s2 s3,
  String.compare s1 s2 <> Gt -> String.compare s2 s3 <> Gt -> String.compare s1 s3 <> Gt.
Proof.
  induction s1 as [|a s1 IH]; intros [|b s2] [|c s3]; simpl; try done.
  destruct (Ascii.compare a b) eqn:Eab; [|
    destruct (Ascii.compare b c) eqn:Ebc; [| |done] | done].
  - apply Ascii.compare_eq_iff in Eab as ->.
    destruct (Ascii.compare b c); [apply IH | done..].
  - apply Ascii.compare_eq_iff in Ebc as ->. by rewrite Eab.
  - by rewrite (ascii_compare_Lt_trans a b c).
Qed.

#[local] Instance string_leb_transitive : Transitive (fun s t => String.leb s t = true).
Proof.
  intros s1 s2 s3. unfold String.leb. intros H12 H23.
  pose proof (string_compare_trans s1 s2 s3) as Htrans.
  destruct (String.compare s1 s2), (String.compare s2 s3), (String.compare s1 s3);
    try done; exfalso; by apply Htrans.
Qed.

#[local] Instance string_leb_total : Total (fun s t => String.leb s t = true).
Proof. intros s t. apply String.leb_total. Qed.

Section Locales.
Context `{JsNumber} `{!Host}.

(** X18: [getAvailableLocales] returns the locales that have a table of
    messages, each once, in ascending order of their code units, and leaves
    the tables as they are. *)
Theorem getAvailableLocales_sorted (LOCALE_MESSAGES : Store) :
  exists locales,
    getAvailableLocales LOCALE_MESSAGES = (Ok locales, LOCALE_MESSAGES)
    /\ StronglySorted (fun s t => String.leb s t = true) locales
    /\ NoDup locales
    /\ forall locale, locale ∈ locales <-> is_Some (LOCALE_MESSAGES !! locale).
Proof.
  eexists. split; [reflexivity|].
  pose proof (merge_sort_Permutation (fun s t => String.leb s t = true)
                (map fst (map_to_list LOCALE_MESSAGES))) as Hperm.
  split_and!.
  - apply (StronglySorted_merge_sort _).
  - rewrite Hperm. apply (NoDup_fst_map_to_list LOCALE_MESSAGES).
  - intros locale. rewrite Hperm, list_elem_of_fmap. split.
    + intros ([k t] & -> & Hin). apply elem_of_map_to_list in Hin. by exists t.
    + intros [t Ht]. exists (locale, t). split; [done|]. by apply elem_of_map_to_list.
Qed.

(** X19: after [registerLocaleData(locale, lhlMessages)], for a locale
    other than [__proto__]: [hasLocale] of the locale is what [Intl] says of
    it; [getAvailableLocales] lists the locale; [getFormatted] of a message
    in that locale uses the registered table (the message of the id when it
    has one, else the default of the message); calls for any other locale
    give what they gave before; and a second registration for the locale
    replaces the first. *)
Theorem registerLocaleData_then
    (locale : string) (lhlMessages : LhlMessages) (LOCALE_MESSAGES : Store) :
  locale <> "__proto__" ->
  exists registered,
    registerLocaleData locale lhlMessages LOCALE_MESSAGES = (Ok tt, registered)
    /\ (hasLocale locale registered).1
       = (hasIntlSupport ← Intl_supportedLocalesOf locale; Ok hasIntlSupport)
    /\ (exists locales, (getAvailableLocales registered).1 = Ok locales /\ locale ∈ locales)
    /\ (forall icuMessage, isIcuMessage icuMessage = true ->
          (getFormatted icuMessage locale registered).1
          = match om_get (i18nId (asIcuMessage icuMessage)) lhlMessages with
            | Some localeMessage =>
                _formatMessage (message localeMessage) (values (asIcuMessage icuMessage)) locale
            | None => Ok (formattedDefault (asIcuMessage icuMessage))
            end)
    /\ (forall other, other <> locale ->
          (forall v, (getFormatted v other registered).1
                     = (getFormatted v other LOCALE_MESSAGES).1)
          /\ (forall v, (replaceIcuMessages v other registered).1
                        = (replaceIcuMessages v other LOCALE_MESSAGES).1)
          /\ (getRendererFormattedStrings other registered).1
             = (getRendererFormattedStrings other LOCALE_MESSAGES).1
          /\ (hasLocale other registered).1 = (hasLocale other LOCALE_MESSAGES).1)
    /\ (forall later,
          (registerLocaleData locale later registered).2
          = (registerLocaleData locale later LOCALE_MESSAGES).2).
Proof.
  intros _.
  exists (<[locale := lhlMessages]> LOCALE_MESSAGES). split; [done|]. split_and!.
  - unfold hasLocale, readLocale, localeTable, mbind, Op_bind, mret, Op_ret, pure, Result_bind.
    destruct (Intl_supportedLocalesOf locale) as [b|]; [|done]. simpl.
    rewrite lookup_insert_eq. rewrite bool_decide_eq_true_2 by (by eexists).
    by rewrite andb_true_r.
  - eexists. split; [reflexivity|].
    rewrite (merge_sort_Permutation (fun s t => String.leb s t = true)).
    apply list_elem_of_fmap. exists (locale, lhlMessages). split; [done|].
    apply elem_of_map_to_list. by rewrite lookup_insert_eq.
  - intros icuMessage Hicu.
    unfold getFormatted, _localizeIcuMessage, readLocale, localeTable, mbind, Op_bind,
      mret, Op_ret, pure.
    rewrite Hicu, lookup_insert_eq. by destruct (om_get _ lhlMessages).
  - intros other Hother.
    assert (<[locale := lhlMessages]> LOCALE_MESSAGES !! other = LOCALE_MESSAGES !! other)
      as Hsame by (by rewrite lookup_insert_ne).
    split_and!.
    + intros v. by apply getFormatted_local.
    + intros v. destruct (replaceIcuMessages_local v other _ _ Hsame) as (r & v' & -> & ->).
      done.
    + pose proof (run_local (Call_getRendererFormattedStrings other) _ _ Hsame) as Hrun.
      simpl in Hrun. by injection Hrun.
    + pose proof (run_local (Call_hasLocale other) _ _ Hsame) as Hrun.
      simpl in Hrun. by injection Hrun.
  - intros later. unfold registerLocaleData, writeLocale. simpl. apply insert_insert_eq.
Qed.

(** X21: a locale for which no table was registered but whose name every
    object inherits ([constructor], [toString], ...) is not rejected as
    unsupported: [getFormatted] returns the default of every message,
    [getRendererFormattedStrings] returns the empty record and [hasLocale]
    what [Intl] says of the name, while [getAvailableLocales] does not list
    it. *)
Theorem inherited_locale_name (locale : string) (LOCALE_MESSAGES : Store) :
  LOCALE_MESSAGES !! locale = None ->
  isInherited locale = true ->
  (forall icuMessage, isIcuMessage icuMessage = true ->
     getFormatted icuMessage locale LOCALE_MESSAGES
     = (Ok (formattedDefault (asIcuMessage icuMessage)), LOCALE_MESSAGES))
  /\ getRendererFormattedStrings locale LOCALE_MESSAGES = (Ok [], LOCALE_MESSAGES)
  /\ hasLocale locale LOCALE_MESSAGES
     = (hasIntlSupport ← Intl_supportedLocalesOf locale; Ok hasIntlSupport, LOCALE_MESSAGES)
  /\ exists locales,
       getAvailableLocales LOCALE_MESSAGES = (Ok locales, LOCALE_MESSAGES)
       /\ locale ∉ locales.
Proof.
  intros Hlocale Hname.
  assert (localeTable LOCALE_MESSAGES locale = Some []) as Htable
    by (unfold localeTable; by rewrite Hlocale, Hname).
  split_and!.
  - intros icuMessage Hicu.
    unfold getFormatted, _localizeIcuMessage, readLocale, mbind, Op_bind, mret, Op_ret.
    by rewrite Hicu, Htable.
  - rewrite getRendererFormattedStrings_unfold. by rewrite Htable.
  - unfold hasLocale, readLocale, mbind, Op_bind, mret, Op_ret, pure, Result_bind.
    rewrite Htable. destruct (Intl_supportedLocalesOf locale) as [b|]; [|done]. simpl.
    by rewrite andb_true_r.
  - eexists. split; [reflexivity|].
    rewrite (merge_sort_Permutation (fun s t => String.leb s t = true)).
    intros ([k t] & -> & Hin%elem_of_map_to_list)%list_elem_of_fmap.
    simpl in Hlocale. by rewrite Hlocale in Hin.
Qed.
End Locales.

(** ** [CANONICAL_LOCALES] *)

Section CanonicalLocales.
#[local] Arguments String.append _ _ : simpl nomatch.

Lemma string_length_app (a b : string) :
  String.length (a +:+ b) = String.length a + String.length b.
Proof. induction a as [|c a IH]; simpl; [done | by rewrite IH]. Qed.

Lemma substring_all (s : string) : substring 0 (String.length s) s = s.
Proof. induction s as [|c s IH]; simpl; [done | by rewrite IH]. Qed.

Lemma substring_skip (a s : string) (m : nat) :
  substring (String.length a) m (a +:+ s) = substring 0 m s.
Proof. induction a as [|c a IH]; simpl; [done | exact IH]. Qed.

Lemma substring_split (s : string) : forall k m,
  k + m = String.length s -> s = substring 0 k s +:+ substring k m s.
Proof.
  induction s as [|c s IH]; intros k m Hlen; simpl in *.
  - assert (k = 0) as -> by lia. assert (m = 0) as -> by lia. done.
  - destruct k as [|k]; simpl.
    + assert (m = S (String.length s)) as -> by lia. simpl. by rewrite substring_all.
    + f_equal. apply IH. lia.
Qed.

Lemma endsWith_app (a suffix : string) : endsWith suffix (a +:+ suffix) = true.
Proof.
  unfold endsWith. rewrite string_length_app.
  apply andb_true_iff. split; [apply Nat.leb_le; lia|].
  replace (String.length a + String.length suffix - String.length suffix)
    with (String.length a) by lia.
  rewrite substring_skip, substring_all. apply String.eqb_refl.
Qed.

Lemma endsWith_suffix (suffix s : string) :
  endsWith suffix s = true -> exists a, s = a +:+ suffix.
Proof.
  unfold endsWith. intros [Hlen Heq]%andb_true_iff.
  apply Nat.leb_le in Hlen. apply String.eqb_eq in Heq.
  exists (substring 0 (String.length s - String.length suffix) s).
  etrans; [apply (substring_split s (String.length s - String.length suffix)
                    (String.length suffix)); lia|].
  by rewrite Heq.
Qed.

Lemma noDot_app (a b : string) : noDot (a +:+ b) = noDot a && noDot b.
Proof. apply allChars_app. Qed.

(** Where the first [.json] of a name is when what is left has no dot. *)
Lemma cutAt_json (s rest : string) :
  noDot s = true -> cutAt ".json" (s +:+ ".json" +:+ rest) = (s, Some rest).
Proof.
  induction s as [|c s IH]; intros Hs.
  - apply cutAt_here. by apply afterPrefix_Some.
  - unfold noDot in Hs. simpl in Hs. apply andb_true_iff in Hs as [Hc Hs].
    change (String c s +:+ ".json" +:+ rest) with (String c (s +:+ ".json" +:+ rest)).
    cbn [cutAt].
    assert (afterPrefix ".json" (String c (s +:+ ".json" +:+ rest)) = None) as ->.
    { cbn [afterPrefix]. destruct (Ascii.eqb "." c) eqn:E; [|done].
      apply Ascii.eqb_eq in E as <-. done. }
    by rewrite IH.
Qed.

Lemma json_once (y : string) : forall a z,
  noDot z = true -> a +:+ ".json" = y +:+ ".json" +:+ z -> z = "".
Proof.
  induction y as [|c y IH]; intros a z Hz Heq.
  - destruct a as [|c a]; simpl in Heq.
    + injection Heq as <-. done.
    + injection Heq as -> Heq.
      apply (f_equal noDot) in Heq. unfold noDot in *. simpl in Heq.
      rewrite allChars_app, Hz in Heq. simpl in Heq. by rewrite andb_false_r in Heq.
  - destruct a as [|c' a]; simpl in Heq.
    + injection Heq as <- Heq.
      apply (f_equal noDot) in Heq. rewrite !noDot_app in Heq.
      change (noDot ".json") with false in Heq. by rewrite andb_false_r in Heq.
    + injection Heq as -> Heq. by eapply IH.
Qed.

Lemma ctc_json_dot (locale a : string) :
  noDot locale = true -> locale +:+ ".json" = a +:+ ".ctc.json" -> False.
Proof.
  revert a. induction locale as [|c locale IH]; intros a Hl Heq.
  - destruct a as [|c a]; simpl in Heq; [done|].
    injection Heq as -> Heq.
    apply (f_equal String.length) in Heq. rewrite string_length_app in Heq.
    simpl in Heq. lia.
  - unfold noDot in Hl. simpl in Hl. apply andb_true_iff in Hl as [Hc Hl].
    destruct a as [|c' a]; simpl in Heq.
    + injection Heq as -> _. done.
    + injection Heq as -> Heq. by eapply IH.
Qed.

Lemma replaceFirst_json (locale : string) :
  noDot locale = true -> replaceFirst ".json" "" (locale +:+ ".json") = locale.
Proof.
  intros Hl. unfold replaceFirst.
  rewrite <- (string_app_nil_r (locale +:+ ".json")), string_app_assoc.
  rewrite cutAt_json by done. simpl. by rewrite string_app_nil_r.
Qed.

(** X20: [CANONICAL_LOCALES], as the module computes it when it is
    loaded: the placeholder list where the file system cannot be read;
    otherwise a list in ascending order in which a name without a dot
    occurs exactly when the directory has the file of that name with the
    extension [.json]. *)
Theorem canonicalLocales_listing (basenames : list string) :
  canonicalLocales None = ["__availableLocales__"]
  /\ StronglySorted (fun s t => String.leb s t = true) (canonicalLocales (Some basenames))
  /\ forall locale,
       noDot locale = true ->
       (locale ∈ canonicalLocales (Some basenames) <-> locale +:+ ".json" ∈ basenames).
Proof.
  split; [done|]. split.
  - apply (StronglySorted_merge_sort _).
  - intros locale Hlocale. unfold canonicalLocales.
    rewrite merge_sort_Permutation. rewrite list_elem_of_fmap. split.
    + intros (basename & -> & [Hjson Hin]%list_elem_of_filter).
      apply andb_true_iff in Hjson as [[a ->]%endsWith_suffix _].
      unfold replaceFirst in *.
      pose proof (cutAt_occurs ".json" a "") as [z Hz].
      rewrite string_app_nil_r in Hz.
      destruct (cutAt ".json" (a +:+ ".json")) as [y after] eqn:Hcut.
      simpl in Hz. subst after. simpl in Hlocale |- *.
      apply cutAt_found in Hcut.
      rewrite noDot_app in Hlocale. apply andb_true_iff in Hlocale as [Hy Hz].
      pose proof (json_once y a z Hz Hcut) as ->. simpl in Hcut.
      by rewrite string_app_nil_r, <- Hcut.
    + intros Hin. exists (locale +:+ ".json"). split; [by rewrite replaceFirst_json|].
      apply list_elem_of_filter. split; [|done].
      rewrite endsWith_app. simpl.
      destruct (endsWith ".ctc.json" (locale +:+ ".json")) eqn:E; [|done].
      apply endsWith_suffix in E as [a Ha]. by destruct (ctc_json_dot locale a).
Qed.
End CanonicalLocales.

(** * The definitions at work

    The theorems above, applied to concrete messages and documents, and the
    inputs on which a statement of the specification does not hold. *)

Section Evaluation.
#[local] Existing Instance rationalNumber.
#[local] Existing Instance substitutionHost.

(** The example of the comment in message.js: [icu] appears in both options
    of the plural and once in the map. *)
Example collect_plural_options :
  let hello := [messageTextElement "hello "; argumentElement "icu" None] in
  om_keys (collectAllCustomElementsFromICU
             [argumentElement "count"
                (Some (pluralFormat false 0
                         [optionalFormatPattern "=1" hello;
                          optionalFormatPattern "other" hello]))])
  = ["count"; "icu"].
Proof. reflexivity. Qed.

Example formatPath_properties_and_indices :
  _formatPathAsString ["audits"; "bootup-time"; "details"; "items"; indexKey 12; "url"]
  = Ok "audits[bootup-time].details.items[12].url".
Proof. reflexivity. Qed.

Example isIcuMessage_needs_formattedDefault :
  isIcuMessage (VObject [("i18nId", VString "core/audits/redirects.js | title")] : value)
  = false.
Proof. reflexivity. Qed.

Example formatMessage_seconds :
  _formatMessage "Took {timeInMs, number, seconds} s" (Some [("timeInMs", VInteger 2500)]) "en-US"
  = Ok "Took 5/2 s".
Proof. reflexivity. Qed.

Example availableLocales_sorted :
  (getAvailableLocales (<["fr" := []]> (<["de" := []]> (<["en-US" := []]> ∅)))).1
  = Ok ["de"; "en-US"; "fr"].
Proof. reflexivity. Qed.



(** A placeholder in an option of a select is not collected: no check looks
    for its value, and what becomes of the message is up to the formatter. *)
Example preformatValues_select_option_unchecked :
  let elements :=
    [argumentElement "kind"
       (Some (selectFormat
                [optionalFormatPattern "other"
                   [messageTextElement "by "; argumentElement "name" None]]))] in
  let formatter : Formatter := {| getAst_elements := elements; format := substitute elements |} in
  _preformatValues formatter [("kind", VString "a")] "{kind, select, other {by {name}}}"
  = Ok [("kind", VString "a")].
Proof. reflexivity. Qed.

Lemma formatMessage_unmatched_value_witness :
  exists e, @_formatMessage rationalNumber substitutionHost "Hello {name}"
              (Some [("name", VString "you"); ("other", VString "x")]) "en-US" = Throw e
            /\ isValidationError e = true.
Proof.
  apply (@formatMessage_unmatched_value rationalNumber substitutionHost
           "Hello {name}" (Some [("name", VString "you"); ("other", VString "x")]) "en-US"
           {| getAst_elements := [messageTextElement "Hello "; argumentElement "name" None];
              format := substitute [messageTextElement "Hello "; argumentElement "name" None] |}
           "other").
  - reflexivity.
  - simpl. apply list_elem_of_In. simpl. right. left. reflexivity.
  - intros el Hel. apply list_elem_of_In in Hel. simpl in Hel.
    destruct Hel as [<- | []]. simpl. discriminate.
  - discriminate.
  - reflexivity.
Defined.

(** C4 as stated fails: [errorCode] matches no placeholder of the message and
    the message is formatted all the same. *)
Lemma formatMessage_unmatched_errorCode_accepted :
  let values : @Record rationalNumber := [("errorCode", VString "NO_FCP")] in
  "errorCode" ∈ om_keys values
  /\ allArgumentElements [messageTextElement "Something went wrong"] = []
  /\ @MessageFormat rationalNumber substitutionHost "Something went wrong"
       (@localeForMessageFormat "en-US") formats
     = Ok {| getAst_elements := [messageTextElement "Something went wrong"];
             format := substitute [messageTextElement "Something went wrong"] |}
  /\ @_formatMessage rationalNumber substitutionHost "Something went wrong" (Some values) "en-US"
     = Ok "Something went wrong".
Proof.
  split_and!; [| reflexivity..].
  simpl. apply list_elem_of_In. simpl. left. reflexivity.
Qed.

Lemma preformatValues_number_conversion_witness :
  exists r,
    _preformatValues secondsFormatter
      [("timeInMs", VInteger 1234)] "Took {timeInMs, number, seconds}" = Ok r
    /\ om_get "timeInMs" r = Some (@VNumber rationalNumber (6 # 5)%Q).
Proof.
  destruct (preformatValues_number_conversion secondsFormatter
              [("timeInMs", VInteger 1234)] "Took {timeInMs, number, seconds}"
              "timeInMs" (Some "seconds")) as [Hconv Htotal].
  - reflexivity.
  - discriminate.
  - destruct Htotal as [r Hr].
    + intros el Hel. apply list_elem_of_In in Hel. simpl in Hel.
      destruct Hel as [<- | []]. split.
      * right. reflexivity.
      * intros style _. exists (inject_Z 1234). reflexivity.
    + intros k Hk. apply list_elem_of_In in Hk. simpl in Hk.
      destruct Hk as [<- | []]. right. right.
      exists (argumentElement "timeInMs" (Some (numberFormat (Some "seconds")))).
      split; [|reflexivity]. apply list_elem_of_In. simpl. left. reflexivity.
    + exists r. split; [exact Hr|].
      destruct (Hconv r Hr) as (v & w & Hv & Hw & _ & Hseconds & _).
      rewrite Hw, (Hseconds eq_refl eq_refl).
      injection Hv as <-. reflexivity.
Defined.

(** C1 as stated fails: a template may use one id under two number styles;
    the map keeps the last placeholder, and the value of the [bytes]
    placeholder is not [v/1024]. *)
Lemma preformatValues_duplicate_id_uses_last_style :
  let first := argumentElement "x" (Some (numberFormat (Some "bytes"))) in
  let last := argumentElement "x" (Some (numberFormat (Some "milliseconds"))) in
  let formatter : Formatter :=
    {| getAst_elements := [first; messageTextElement " in "; last];
       format := substitute [first; messageTextElement " in "; last] |} in
  let values : Record := [("x", VInteger 2048)] in
  MessageFormat
    "{x, number, bytes} in {x, number, milliseconds}" "en-US" formats = Ok formatter
  /\ first ∈ allArgumentElements (getAst_elements formatter)
  /\ _preformatValues formatter values
       "{x, number, bytes} in {x, number, milliseconds}"
     = Ok [("x", VInteger 2050)]
  /\ num_div (inject_Z 2048) (num_lit 1024) = inject_Z 2
  /\ inject_Z 2050 <> inject_Z 2.
Proof.
  split_and!; [reflexivity | | reflexivity | reflexivity | discriminate].
  simpl. apply list_elem_of_In. simpl. left. reflexivity.
Qed.

Lemma preformatValues_errorCode_witness :
  exists r,
    _preformatValues helloFormatter
      [("name", VString "you"); ("errorCode", VString "NO_FCP")] "Hello {name}" = Ok r
    /\ om_get "errorCode" r = Some (VString "NO_FCP").
Proof.
  apply (proj2 (preformatValues_errorCode helloFormatter
                  [("name", VString "you"); ("errorCode", VString "NO_FCP")]
                  "Hello {name}" (VString "NO_FCP"))).
  - reflexivity.
  - intros el Hel. apply list_elem_of_In in Hel. simpl in Hel.
    destruct Hel as [<- | []]. simpl. discriminate.
  - intros k Hk Hne. apply list_elem_of_In in Hk. simpl in Hk.
    destruct Hk as [<- | [<- | []]].
    + exists (argumentElement "name" None). split; [|reflexivity].
      apply list_elem_of_In. simpl. left. reflexivity.
    + destruct Hne. reflexivity.
  - intros el Hel. apply list_elem_of_In in Hel. simpl in Hel.
    destruct Hel as [<- | []]. split.
    + right. reflexivity.
    + intros style Hstyle. discriminate Hstyle.
Defined.

(** C10 as stated fails: the record has [errorCode], its other keys (none)
    match placeholders and the template has no [errorCode] placeholder, but a
    placeholder without a value makes [_preformatValues] throw. *)
Lemma preformatValues_errorCode_placeholder_missing :
  let values : Record := [("errorCode", VString "NO_FCP")] in
  om_keys values = ["errorCode"]
  /\ allArgumentElements (getAst_elements helloFormatter) = [argumentElement "name" None]
  /\ _preformatValues helloFormatter values "Hello {name}"
     = Throw (ValueNotProvided "Hello {name}" "name").
Proof. split_and!; reflexivity. Qed.

Lemma getFormatted_localized_witness :
  getFormatted titleMessage "de" germanMessages
    = (Ok "Vermeide 3 Weiterleitungen", germanMessages)
  /\ forall s : string, getFormatted (VString s) "de" germanMessages = (Ok s, germanMessages).
Proof.
  destruct (getFormatted_localized titleMessage "de" germanMessages
              [("core/audits/redirects.js | title",
                {| message := "Vermeide {count} Weiterleitungen" |})]
              {| message := "Vermeide {count} Weiterleitungen" |})
    as [Hmessage Hstring].
  split; [|exact Hstring]. rewrite Hmessage.
  - reflexivity.
  - reflexivity.
  - reflexivity.
  - reflexivity.
Defined.

Lemma getFormatted_default_witness :
  exists text,
    prop "formattedDefault" titleMessage = VString text
    /\ getFormatted titleMessage "de" emptyGermanMessages = (Ok text, emptyGermanMessages).
Proof.
  apply (getFormatted_default titleMessage "de" emptyGermanMessages []).
  - reflexivity.
  - reflexivity.
  - reflexivity.
Defined.

Lemma replaceIcuMessages_replaces_and_records_witness :
  exists icuMessagePaths,
    replaceIcuMessages reportDocument "de" germanMessages
    = (Ok icuMessagePaths,
       VObject [("audits", VArray [VString "Vermeide 3 Weiterleitungen"; VString "plain"]);
                ("title", VString "Vermeide 3 Weiterleitungen")],
       germanMessages)
    /\ icuMessagePaths !! "core/audits/redirects.js | title"
       = Some [PathWithValues [("count", VInteger 3)] "audits[0]";
               PathWithValues [("count", VInteger 3)] "title"].
Proof.
  destruct (replaceIcuMessages_replaces_and_records reportDocument "de" germanMessages)
    as (_ & _ & Hreturns & _).
  destruct Hreturns as (icuMessagePaths & Hresult & Hpaths).
  - vm_compute. reflexivity.
  - exists icuMessagePaths. split.
    + rewrite Hresult. reflexivity.
    + rewrite Hpaths. reflexivity.
Defined.

(** C2 as stated fails: the locale is supported and the property value is an
    [LH.IcuMessage], but the name of the property has a space; the call
    throws and the message is where it was. *)
Lemma replaceIcuMessages_throws_on_property_name :
  let inputObject : value := VObject [("final url", titleMessage)] in
  isIcuMessage titleMessage = true
  /\ germanMessages !! "de"
     = Some [("core/audits/redirects.js | title",
              {| message := "Vermeide {count} Weiterleitungen" |})]
  /\ replaceIcuMessages inputObject "de" germanMessages
     = (Throw (CannotHandle "final url"), inputObject, germanMessages).
Proof. split_and!; reflexivity. Qed.

Lemma module_state_frame_witness :
  (run (Call_replaceIcuMessages reportDocument "de") germanMessages).2 = germanMessages
  /\ run (Call_getFormatted titleMessage "de")
       (run (Call_replaceIcuMessages reportDocument "de") germanMessages).2
     = run (Call_getFormatted titleMessage "de") germanMessages.
Proof.
  apply (proj1 (module_state_frame (Call_replaceIcuMessages reportDocument "de")
                  (Call_getFormatted titleMessage "de") germanMessages)).
  reflexivity.
Defined.

(** C8 as stated fails: [registerLocaleData] is exported, changes the table,
    and with it the result of a later [getFormatted]. *)
Lemma registerLocaleData_changes_later_result :
  let call := Call_registerLocaleData "de"
                [("core/audits/redirects.js | title",
                  {| message := "Vermeide {count} Weiterleitungen" |})] in
  let later := Call_getFormatted titleMessage "de" in
  (run call (∅ : Store)).2 <> ∅
  /\ (run later (∅ : Store)).1 = OutString (Throw (UnsupportedLocale "de"))
  /\ (run later (run call (∅ : Store)).2).1 = OutString (Ok "Vermeide 3 Weiterleitungen").
Proof.
  split_and!; [|reflexivity..].
  simpl. intros Heq. apply (f_equal (fun m : Store => m !! "de")) in Heq.
  by rewrite lookup_insert_eq, lookup_empty in Heq.
Qed.

(** The test of [MESSAGE_I18N_ID_REGEX] looks for a space. *)
Example idTest_samples :
  MESSAGE_I18N_ID_REGEX_test "hello world" = true
  /\ MESSAGE_I18N_ID_REGEX_test "a | " = true
  /\ MESSAGE_I18N_ID_REGEX_test "core/audits/redirects.js|title" = false.
Proof. split_and!; reflexivity. Qed.

Example getIcuMessageIdParts_samples :
  getIcuMessageIdParts "hello world" = Ok ("hello world", None)
  /\ getIcuMessageIdParts "a | b c" = Ok ("a", Some "b c")
  /\ getIcuMessageIdParts "a | b | c" = Ok ("a", Some "b")
  /\ getIcuMessageIdParts "hello" = Throw (InvalidMessageId "hello").
Proof. split_and!; reflexivity. Qed.

(** A message whose id has a space and no separator is a message: it is
    replaced, by its default where the table has no entry for it, and its
    path is recorded. *)
Example replaceIcuMessages_loose_id :
  isIcuMessage looseMessage = true
  /\ getFormatted looseMessage "de" germanMessages = (Ok "dflt", germanMessages)
  /\ replaceIcuMessages looseDocument "de" germanMessages
     = (Ok {[ "hello world" := [PathOnly "a"] ]}, VObject [("a", VString "dflt")],
        germanMessages).
Proof. split_and!; reflexivity. Qed.

Example getRendererFormattedStrings_spaced_key :
  getRendererFormattedStrings "de" rendererMessages = (Ok [("two words", "A")], rendererMessages).
Proof. reflexivity. Qed.

Example localizedFirst_one :
  localizedFirst (fun _ => "text") 1 spacedDocument
  = VObject [("title", VString "text"); ("final url", titleMessage); ("last", titleMessage)].
Proof. reflexivity. Qed.

Example canonicalLocales_of_files :
  canonicalLocales (Some ["en-US.json"; "en-US.ctc.json"; "de.json"; "README.md"])
  = ["de"; "en-US"].
Proof. reflexivity. Qed.

Example preformatValues_checks_placeholders_first :
  _preformatValues helloFormatter [("other", VString "x")] "Hello {name}"
  = Throw (ValueNotProvided "Hello {name}" "name").
Proof. reflexivity. Qed.

Lemma preformatValues_error_cause_witness :
  exists el,
    el ∈ om_values (collectAllCustomElementsFromICU (getAst_elements helloFormatter))
    /\ el_id el = "name" /\ has_property (el_id el) ([] : Record) = false.
Proof.
  destruct (preformatValues_error_cause helloFormatter [] "Hello {name}"
              (ValueNotProvided "Hello {name}" "name"))
    as [(el & Hel & Heq & Hhas) | [(el & style & _ & Heq & _) | (valueId & _ & Heq & _)]].
  - reflexivity.
  - exists el. split; [exact Hel|]. split; [|exact Hhas].
    injection Heq as Hid. symmetry. exact Hid.
  - discriminate Heq.
  - discriminate Heq.
Defined.

Lemma preformatValues_record_witness :
  let values : Record := [("name", VString "you"); ("errorCode", VString "NO_FCP")] in
  let r : Record := [("name", VString "you"); ("errorCode", VString "NO_FCP")] in
  _preformatValues helloFormatter values "Hello {name}" = Ok r
  /\ ("other" ∈ om_keys r -> False)
  /\ om_get "name" r = Some (VString "you").
Proof.
  intros values r.
  destruct (preformatValues_record helloFormatter values "Hello {name}" r) as [Hkeys Hget].
  - reflexivity.
  - split; [reflexivity|]. split.
    + intros Hin. apply Hkeys in Hin. destruct Hin as [[Hin _] | [Heq _]].
      * apply list_elem_of_In in Hin. simpl in Hin. destruct Hin as [Heq | []].
        discriminate Heq.
      * discriminate Heq.
    + apply (Hget "name" (argumentElement "name" None)).
      * reflexivity.
      * discriminate.
      * intros style Hstyle. discriminate Hstyle.
Defined.

Lemma formatMessage_not_a_number_witness :
  exists e,
    @_formatMessage rationalNumber substitutionHost "Took {timeInMs, number, seconds}"
      (Some [("timeInMs", VString "soon")]) "en-US" = Throw e
    /\ isValidationError e = true.
Proof.
  apply (@formatMessage_not_a_number rationalNumber substitutionHost
           "Took {timeInMs, number, seconds}" (Some [("timeInMs", VString "soon")]) "en-US"
           secondsFormatter "timeInMs" (Some "seconds")).
  - reflexivity.
  - reflexivity.
  - intros v Hv. discriminate Hv.
Defined.

Lemma getIcuMessageIdParts_join_witness :
  getIcuMessageIdParts "core/audits/redirects.js | title"
  = Ok ("core/audits/redirects.js", Some "title").
Proof.
  apply (getIcuMessageIdParts_join "core/audits/redirects.js" "title").
  - reflexivity.
  - discriminate.
  - reflexivity.
Defined.

Lemma formatPathAsString_inj_witness :
  ["audits"; "bootup-time"; indexKey 0] = ["audits"; "bootup-time"; "0"].
Proof.
  apply (formatPathAsString_inj ["audits"; "bootup-time"; indexKey 0]
           ["audits"; "bootup-time"; "0"] "audits[bootup-time][0]").
  - reflexivity.
  - reflexivity.
Defined.

Lemma replaceIcuMessages_no_message_witness :
  replaceIcuMessages plainDocument "tlh" germanMessages = (Ok ∅, plainDocument, germanMessages).
Proof.
  apply (replaceIcuMessages_no_message "tlh" germanMessages plainDocument).
  reflexivity.
Defined.

Lemma replaceIcuMessages_throws_partway_witness :
  replaceIcuMessages spacedDocument "de" germanMessages
  = (Throw (CannotHandle "final url"),
     VObject [("title", VString "Vermeide 3 Weiterleitungen");
              ("final url", titleMessage); ("last", titleMessage)],
     germanMessages)
  /\ valueAt ["last"]
       (VObject [("title", VString "Vermeide 3 Weiterleitungen");
                 ("final url", titleMessage); ("last", titleMessage)])
     = Some titleMessage.
Proof.
  destruct (replaceIcuMessages_throws_partway "de" germanMessages spacedDocument
              (["final url"], titleMessage)) as (e & He & Hcall & _ & Hplaces).
  - vm_compute. reflexivity.
  - split.
    + rewrite Hcall. vm_compute in He. injection He as <-. reflexivity.
    + reflexivity.
Defined.

Lemma replaceIcuMessages_unsupported_locale_witness :
  replaceIcuMessages reportDocument "fr" germanMessages
  = (Throw (UnsupportedLocale "fr"), reportDocument, germanMessages).
Proof.
  rewrite (replaceIcuMessages_unsupported_locale "fr" germanMessages reportDocument).
  - reflexivity.
  - reflexivity.
  - reflexivity.
Defined.

Lemma replaceIcuMessages_paths_distinct_witness :
  "core/audits/redirects.js | title" = "core/audits/redirects.js | title" /\ 1 = 1.
Proof.
  apply (replaceIcuMessages_paths_distinct reportDocument "de" germanMessages
           {[ "core/audits/redirects.js | title"
              := [PathWithValues [("count", VInteger 3)] "audits[0]";
                  PathWithValues [("count", VInteger 3)] "title"] ]}
           (VObject [("audits", VArray [VString "Vermeide 3 Weiterleitungen"; VString "plain"]);
                     ("title", VString "Vermeide 3 Weiterleitungen")])
           germanMessages
           "core/audits/redirects.js | title" "core/audits/redirects.js | title"
           [PathWithValues [("count", VInteger 3)] "audits[0]";
            PathWithValues [("count", VInteger 3)] "title"]
           [PathWithValues [("count", VInteger 3)] "audits[0]";
            PathWithValues [("count", VInteger 3)] "title"]
           1 1
           (PathWithValues [("count", VInteger 3)] "title")
           (PathWithValues [("count", VInteger 3)] "title")).
  - simpl. repeat split; apply (bool_decide_unpack _); vm_compute; exact I.
  - vm_compute. reflexivity.
  - reflexivity.
  - reflexivity.
  - reflexivity.
  - reflexivity.
  - reflexivity.
Defined.

Lemma registerLocaleData_then_witness :
  exists registered,
    registerLocaleData "de"
      [("core/audits/redirects.js | title", {| message := "Vermeide {count} Weiterleitungen" |})]
      (∅ : Store) = (Ok tt, registered)
    /\ (getFormatted titleMessage "de" registered).1 = Ok "Vermeide 3 Weiterleitungen"
    /\ (getFormatted looseMessage "de" registered).1 = Ok "dflt"
    /\ (getFormatted titleMessage "fr" registered).1 = Throw (UnsupportedLocale "fr").
Proof.
  destruct (registerLocaleData_then "de"
              [("core/audits/redirects.js | title",
                {| message := "Vermeide {count} Weiterleitungen" |})] (∅ : Store))
    as (registered & Hregistered & _ & _ & Hformatted & Hother & _).
  - discriminate.
  - exists registered. split; [exact Hregistered|]. split_and!.
    + rewrite (Hformatted titleMessage); reflexivity.
    + rewrite (Hformatted looseMessage); reflexivity.
    + destruct (Hother "fr") as [Hsame _]; [discriminate|].
      rewrite (Hsame titleMessage). reflexivity.
Defined.

Lemma inherited_locale_name_witness :
  getFormatted titleMessage "constructor" germanMessages
  = (Ok "Avoid 3 redirects", germanMessages)
  /\ getRendererFormattedStrings "constructor" germanMessages = (Ok [], germanMessages).
Proof.
  destruct (inherited_locale_name "constructor" germanMessages) as (Hformatted & Hstrings & _).
  - reflexivity.
  - reflexivity.
  - split; [|exact Hstrings]. rewrite Hformatted; reflexivity.
Defined.
End Evaluation.
